(** * Readable-text extraction (src/readable.ts)

    A shallow embedding of [getReadableText]: the cleaner, the link registry,
    the dedup and emission engine, the filter-group formatter, the tree walker,
    the root selector, the fallback pass and the result assembler, followed by
    the properties of the specification that were checked against them.

    Conventions of the embedding.
    - A JavaScript string is the list of its UTF-16 code units ([list N]);
      [length] is therefore [String.prototype.length].
    - Counters and lengths are natural numbers.  A numeric option is a
      JavaScript [number]: [NaN], an infinity, or a finite value, which is
      carried as the exact rational that the double is ([None] when
      [typeof] is not ['number']).  The constants that the closure computes
      from the options are such numbers too, and are compared, truncated
      and printed the way the code does it.
    - [String.prototype.toLowerCase] and the printing of a number that is
      not a whole number belong to the JavaScript runtime: they are members
      of the class [JsRuntime], and every general theorem holds for any such
      functions.  [asciiRuntime] is the instance used to evaluate the ASCII
      scenarios.
    - The document is the host's: a tree of nodes carrying, for each element,
      what only the host can compute (rendered text, computed style, resolved
      media sources). *)

From Stdlib Require Import ZArith NArith List String Ascii Lia Bool DecimalNat.
From Stdlib Require Import QArith Qcanon Qround.
From stdpp Require Import base option list gmap sets.

Close Scope Q_scope.
Close Scope Qc_scope.
Local Open Scope nat_scope.

(** ** Strings as code units *)

Abbreviation jsstring := (list N).

Definition lit (s : string) : jsstring :=
  List.map N_of_ascii (list_ascii_of_string s).

Definition SPACE : N := 32%N.
Definition NBSP : N := 160%N.
Definition MIDDOT : N := 183%N.
Definition BULLET : N := 8226%N.
Definition ELLIPSIS : N := 8230%N.
Definition HASH : N := 35%N.
Definition NEWLINE : N := 10%N.

Definition unitIn (c : N) (cs : list N) : bool := List.existsb (N.eqb c) cs.

Definition inRange (lo hi c : N) : bool := (lo <=? c)%N && (c <=? hi)%N.

(** The class [\s] of a regular expression, which is also what [trim],
    [trimEnd] and [split(/\s+/)] treat as white space. *)
Definition isSpace (c : N) : bool :=
  unitIn c [9; 10; 11; 12; 13; 32; 160; 5760; 8232; 8233; 8239; 8287; 12288; 65279]%N
  || inRange 8192 8202 c.

Definition isDigit (c : N) : bool := inRange 48 57 c.
Definition isUpper (c : N) : bool := inRange 65 90 c.
Definition isLower (c : N) : bool := inRange 97 122 c.
Definition isLetter (c : N) : bool := isUpper c || isLower c.

(** The class [\w]. *)
Definition isWord (c : N) : bool := isLetter c || isDigit c || (c =? 95)%N.

Definition isBulletGlyph (c : N) : bool := (c =? BULLET)%N || (c =? MIDDOT)%N.

(** Case folding of the [i] flag, for patterns whose letters are ASCII: a
    code unit above 127 never folds to an ASCII one. *)
Definition foldUnit (c : N) : N := if isUpper c then (c + 32)%N else c.

Definition truthy (s : jsstring) : bool :=
  match s with [] => false | _ => true end.

(** [a || b] on strings. *)
Definition orElse (a b : jsstring) : jsstring := if truthy a then a else b.

Definition strEq (a b : jsstring) : bool := bool_decide (a = b).

Fixpoint dropWhile (f : N -> bool) (s : jsstring) : jsstring :=
  match s with
  | [] => []
  | c :: r => if f c then dropWhile f r else s
  end.

Fixpoint takeWhile (f : N -> bool) (s : jsstring) : jsstring :=
  match s with
  | [] => []
  | c :: r => if f c then c :: takeWhile f r else []
  end.

Definition trimStart (s : jsstring) : jsstring := dropWhile isSpace s.
Definition trimEnd (s : jsstring) : jsstring := rev (dropWhile isSpace (rev s)).
Definition trim (s : jsstring) : jsstring := trimEnd (trimStart s).

(** [s.startsWith(p)] *)
Fixpoint startsWith (s p : jsstring) : bool :=
  match p, s with
  | [], _ => true
  | a :: p', b :: s' => (a =? b)%N && startsWith s' p'
  | _ :: _, [] => false
  end.

(** A prefix test under the [i] flag; [p] is written in lower case. *)
Fixpoint startsWithCI (s p : jsstring) : bool :=
  match p, s with
  | [], _ => true
  | a :: p', b :: s' => (a =? foldUnit b)%N && startsWithCI s' p'
  | _ :: _, [] => false
  end.

(** [re.test(s)] for a pattern that may match at any position: [f] decides
    whether the pattern matches at the head of a suffix. *)
Fixpoint anywhere (f : jsstring -> bool) (s : jsstring) : bool :=
  f s || match s with [] => false | _ :: r => anywhere f r end.

(** The same for a pattern that starts with [\b] followed by a word
    character: [prevWord] tells whether the previous unit is in [\w]. *)
Fixpoint atWordStart (f : jsstring -> bool) (prevWord : bool) (s : jsstring) : bool :=
  (negb prevWord && f s)
  || match s with [] => false | c :: r => atWordStart f (isWord c) r end.

(** [s.includes(p)] *)
Definition includes (s p : jsstring) : bool := anywhere (fun t => startsWith t p) s.

Definition headIs (f : N -> bool) (s : jsstring) : bool :=
  match s with c :: _ => f c | [] => false end.

(** [/\s+/g -> ' '] *)
Fixpoint collapseFrom (inSpace : bool) (s : jsstring) : jsstring :=
  match s with
  | [] => []
  | c :: r =>
      if isSpace c
      then (if inSpace then collapseFrom true r else SPACE :: collapseFrom true r)
      else c :: collapseFrom false r
  end.

Definition collapseSpaces (s : jsstring) : jsstring := collapseFrom false s.

Definition stripBulletGlyphs (s : jsstring) : jsstring :=
  List.filter (fun c => negb (isBulletGlyph c)) s.

(** [pieces.join(sep)] *)
Fixpoint join (sep : jsstring) (pieces : list jsstring) : jsstring :=
  match pieces with
  | [] => []
  | [p] => p
  | p :: rest => p ++ sep ++ join sep rest
  end.

(** [s.repeat(n)] *)
Fixpoint repeatStr (s : jsstring) (n : nat) : jsstring :=
  match n with 0 => [] | S k => s ++ repeatStr s k end.

(** [s.split(re)] for a pattern [re] matching the non-empty runs of the
    units in [sep] ([/\n+/], [/\s+/]). *)
Fixpoint splitRuns (sep : N -> bool) (inSep : bool) (cur : jsstring) (s : jsstring)
  : list jsstring :=
  match s with
  | [] => [rev cur]
  | c :: r =>
      if sep c
      then (if inSep then splitRuns sep true cur r
            else rev cur :: splitRuns sep true [] r)
      else splitRuns sep false (c :: cur) r
  end.

Definition splitOn (sep : N -> bool) (s : jsstring) : list jsstring :=
  splitRuns sep false [] s.

(** Decimal numerals, as template literals print a non-negative integer. *)
Fixpoint uintUnits (d : Decimal.uint) : jsstring :=
  match d with
  | Decimal.Nil => []
  | Decimal.D0 r => 48%N :: uintUnits r
  | Decimal.D1 r => 49%N :: uintUnits r
  | Decimal.D2 r => 50%N :: uintUnits r
  | Decimal.D3 r => 51%N :: uintUnits r
  | Decimal.D4 r => 52%N :: uintUnits r
  | Decimal.D5 r => 53%N :: uintUnits r
  | Decimal.D6 r => 54%N :: uintUnits r
  | Decimal.D7 r => 55%N :: uintUnits r
  | Decimal.D8 r => 56%N :: uintUnits r
  | Decimal.D9 r => 57%N :: uintUnits r
  end.

Definition decimal (n : nat) : jsstring := uintUnits (Nat.to_uint n).

(** [Number(s)] on a string of decimal digits. *)
Definition digitsValue (s : jsstring) : nat :=
  fold_left (fun acc c => 10 * acc + N.to_nat (c - 48)%N) s 0.

(** ** Cleaner/Normalizer *)

(** [text.replace(/\u00a0/g, ' ').replace(/\s+/g, ' ').trim()] *)
Definition normalize (text : jsstring) : jsstring :=
  trim (collapseSpaces (List.map (fun c => if (c =? NBSP)%N then SPACE else c) text)).

(** [/[.#][\w-]+\s*\{[^}]*\}/] at the head of [s]. *)
Definition cssRuleAt (s : jsstring) : bool :=
  match s with
  | c :: r =>
      unitIn c (lit ".#")
      && (let name := takeWhile (fun x => isWord x || (x =? 45)%N) r in
          truthy name
          && match dropWhile isSpace (drop (length name) r) with
             | b :: body => (b =? 123)%N && unitIn 125%N body
             | [] => false
             end)
  | [] => false
  end.

(** [/(fill|stroke|opacity|clip-path|stroke-width)\s*:/i] at the head of [s]. *)
Definition cssPropertyAt (s : jsstring) : bool :=
  List.existsb
    (fun k => startsWithCI s k
              && headIs (N.eqb 58) (dropWhile isSpace (drop (length k) s)))
    [lit "fill"; lit "stroke"; lit "opacity"; lit "clip-path"; lit "stroke-width"].

Definition looksLikeCss (text : jsstring) : bool :=
  if negb (includes text (lit "{")) || negb (includes text (lit "}")) then false
  else if anywhere cssRuleAt text then true
  else if anywhere cssPropertyAt text then true
  else false.

(** [/\b(k1|k2|...)\b/] at a word start. *)
Definition keywordAt (ks : list jsstring) (s : jsstring) : bool :=
  List.existsb (fun k => startsWith s k && negb (headIs isWord (drop (length k) s))) ks.

(** [/\b(k1|k2|...)\./] at a word start. *)
Definition memberAccessAt (ks : list jsstring) (s : jsstring) : bool :=
  List.existsb (fun k => startsWith s (k ++ lit ".")) ks.

(** [/[;{}]\s*$/] at the head of [s]. *)
Definition statementEndAt (s : jsstring) : bool :=
  match s with
  | c :: r => unitIn c (lit ";{}") && List.forallb isSpace r
  | [] => false
  end.

Definition looksLikeCode (text : jsstring) : bool :=
  if looksLikeCss text then true
  else if startsWith text (lit "//") then true
  else if startsWith text (lit "/*") then true
  else if atWordStart (keywordAt [lit "const"; lit "let"; lit "var"; lit "function"]) false text
       then true
  else if anywhere statementEndAt text then true
  else if atWordStart (memberAccessAt [lit "document"; lit "window"; lit "this"]) false text
       then true
  else if includes text (lit "=>") then true
  else false.

Definition cleanText (text : jsstring) : jsstring :=
  let cleaned := normalize text in
  if negb (truthy cleaned) then []
  else if negb (truthy (trim (stripBulletGlyphs cleaned))) then []
  else if looksLikeCode cleaned then []
  else cleaned.

(** The longest run of white space and bullets at the head of [s], which is
    what repeating the group [\s* • \s*] consumes: the number of bullets in
    it and its length. *)
Fixpoint bulletRun (s : jsstring) : nat * nat :=
  match s with
  | c :: r =>
      if (c =? BULLET)%N then let '(n, len) := bulletRun r in (S n, S len)
      else if isSpace c then let '(n, len) := bulletRun r in (n, S len)
      else (0, 0)
  | [] => (0, 0)
  end.

(** The first [replace] of [normalizeBullets]: a run with two bullets or
    more becomes ' • '.  [skip] counts the units of the current match that
    are still to be dropped. *)
Fixpoint collapseBulletRuns (skip : nat) (s : jsstring) : jsstring :=
  match s with
  | [] => []
  | c :: r =>
      match skip with
      | S k => collapseBulletRuns k r
      | 0 =>
          let '(n, len) := bulletRun s in
          if 2 <=? n then [SPACE; BULLET; SPACE] ++ collapseBulletRuns (len - 1) r
          else c :: collapseBulletRuns 0 r
      end
  end.

(** [/\s*•\s*$/] at the head of [s]. *)
Definition trailingBulletAt (s : jsstring) : bool :=
  match dropWhile isSpace s with
  | c :: r => (c =? BULLET)%N && List.forallb isSpace r
  | [] => false
  end.

Fixpoint cutTrailingBullet (s : jsstring) : jsstring :=
  if trailingBulletAt s then []
  else match s with [] => [] | c :: r => c :: cutTrailingBullet r end.

(** [/^\s*•\s*|\s*•\s*$/g -> ''] *)
Definition stripEdgeBullets (s : jsstring) : jsstring :=
  match dropWhile isSpace s with
  | c :: r =>
      if (c =? BULLET)%N then cutTrailingBullet (dropWhile isSpace r)
      else cutTrailingBullet s
  | [] => cutTrailingBullet s
  end.

Definition normalizeBullets (text : jsstring) : jsstring :=
  trim (stripEdgeBullets (collapseBulletRuns 0 text)).

(** [/updated\s+[^•]+/g -> 'updated'].  A match needs a white-space unit
    after the word and at least two units before the next bullet; it then
    runs up to that bullet. *)
Fixpoint replaceUpdated (skip : nat) (s : jsstring) : jsstring :=
  match s with
  | [] => []
  | c :: r =>
      match skip with
      | S k => replaceUpdated k r
      | 0 =>
          let after := drop 7 s in
          let run := length (takeWhile (fun x => negb (x =? BULLET)%N) after) in
          if startsWith s (lit "updated") && headIs isSpace after && (2 <=? run)
          then lit "updated" ++ replaceUpdated (6 + run) r
          else c :: replaceUpdated 0 r
      end
  end.

(** ** Numbers *)

(** A JavaScript number.  Every finite double is a rational, and the
    closure only compares its numbers, takes [Math.max] and [Math.min] of
    them, truncates them, doubles them and subtracts them; [Finite] carries
    the exact value.  (The zero that carries a sign is not told apart from
    the other one: no operation of the closure does.) *)
Inductive number := NaN | PosInfinity | NegInfinity | Finite (q : Qc).

Definition ofZ (z : Z) : number := Finite (Qc_of_Z z).

(** A count or a length, as a number. *)
Definition ofNat (n : nat) : number := ofZ (Z.of_nat n).

(** [a < b]; [b > a] is the same test. *)
Definition lessThan (a b : number) : bool :=
  match a, b with
  | NaN, _ | _, NaN => false
  | PosInfinity, _ | _, NegInfinity => false
  | NegInfinity, _ | _, PosInfinity => true
  | Finite p, Finite q => negb (Qle_bool q p)
  end.

(** [a <= b]; [b >= a] is the same test. *)
Definition atMost (a b : number) : bool :=
  match a, b with
  | NaN, _ | _, NaN => false
  | NegInfinity, _ | _, PosInfinity => true
  | PosInfinity, _ | _, NegInfinity => false
  | Finite p, Finite q => Qle_bool p q
  end.

(** [Math.max(a, b)] *)
Definition mathMax (a b : number) : number :=
  match a, b with
  | NaN, _ | _, NaN => NaN
  | _, _ => if lessThan a b then b else a
  end.

(** [Math.min(a, b)] *)
Definition mathMin (a b : number) : number :=
  match a, b with
  | NaN, _ | _, NaN => NaN
  | _, _ => if lessThan b a then b else a
  end.

(** [Number.isFinite(a)] *)
Definition isFinite (a : number) : bool :=
  match a with Finite _ => true | _ => false end.

(** [a - b].  The difference of two doubles is rounded to a double; it is
    the exact difference wherever the closure reads its value as a number:
    in [maxLineLength - 1], where [maxLineLength] is 40 at least (and a
    limit of [2^53] or more is never subtracted from, no string being that
    long).  The other difference, [items.length - limit], is only printed
    (see [numberToString]). *)
Definition minus (a b : number) : number :=
  match a, b with
  | NaN, _ | _, NaN => NaN
  | Finite p, Finite q => Finite (p - q)%Qc
  | PosInfinity, PosInfinity | NegInfinity, NegInfinity => NaN
  | PosInfinity, _ | _, NegInfinity => PosInfinity
  | NegInfinity, _ | _, PosInfinity => NegInfinity
  end.

(** [a * 2] *)
Definition twice (a : number) : number :=
  match a with Finite q => Finite (2 * q)%Qc | _ => a end.

(** The whole part of a rational, rounding towards zero. *)
Definition truncate (q : Qc) : Z :=
  if Qle_bool 0 q then Qfloor q else Qceiling q.

(** The index at which [x.slice(0, e)] ends, for a string or an array [x]
    of length [len]: [e] is truncated ([NaN] counts as 0); a negative
    index counts from the end. *)
Definition sliceEnd (len : nat) (e : number) : nat :=
  match e with
  | NaN | NegInfinity => 0
  | PosInfinity => len
  | Finite q =>
      let t := truncate q in
      if (t <? 0)%Z then Z.to_nat (Z.of_nat len + t) else Nat.min (Z.to_nat t) len
  end.

(** Whether a rational is a whole number. *)
Definition isWhole (q : Qc) : bool := Qle_bool q (inject_Z (Qfloor q)).

(** ** The JavaScript runtime *)

(** What the extraction takes from the JavaScript runtime:
    [String.prototype.toLowerCase], [Number(s)] for an arbitrary string
    [s], and the text of a number that is not a whole number.  The only
    number obtained from a string is a heading level that must be finite
    and positive and is then clamped to integers and used as a repeat count,
    which rounds down: [toPositiveNumber s] is [Number(s)] rounded down when
    it is finite and positive, [None] otherwise.  [formatNumber q] is
    [String(x)] for the double [x] nearest to [q]; it is asked for when [q]
    is not a whole number below [10^21]. *)
Class JsRuntime := {
  toLowerCase : jsstring -> jsstring;
  toPositiveNumber : jsstring -> option nat;
  formatNumber : Qc -> jsstring
}.

(** The digits of [num / den] after the point, for [0 <= num < den]. *)
Fixpoint fractionDigits (fuel : nat) (num den : Z) : jsstring :=
  match fuel with
  | 0 => []
  | S fuel' =>
      if (num =? 0)%Z then []
      else (48 + Z.to_N (10 * num / den))%N :: fractionDigits fuel' (10 * num mod den)%Z den
  end.

(** A rational in positional notation, to 17 digits after the point. *)
Definition positional (q : Qc) : jsstring :=
  let num := Z.abs (Qnum q) in
  let den := Z.pos (Qden q) in
  (if (Qnum q <? 0)%Z then lit "-" else [])
  ++ decimal (Z.to_nat (num / den))
  ++ (if (num mod den =? 0)%Z then []
      else lit "." ++ fractionDigits 17 (num mod den)%Z den).

(** The runtime on ASCII text, decimal numerals and short binary
    fractions (such as 0.5 and 2.25, which a double holds exactly and
    [String] prints in full). *)
Definition asciiRuntime : JsRuntime :=
  {| toLowerCase := List.map foldUnit;
     toPositiveNumber s :=
       let t := trim s in
       if truthy t && List.forallb isDigit t && (0 <? digitsValue t)
       then Some (digitsValue t) else None;
     formatNumber := positional |}.

(** [String(x)], as a template literal computes it.  A whole number below
    [10^21] is printed in full. *)
Definition numberToString `{JsRuntime} (x : number) : jsstring :=
  match x with
  | NaN => lit "NaN"
  | PosInfinity => lit "Infinity"
  | NegInfinity => lit "-Infinity"
  | Finite q =>
      let z := Qfloor q in
      if isWhole q && (Z.abs z <? 10 ^ 21)%Z then
        (if (z <? 0)%Z then lit "-" else []) ++ decimal (Z.to_nat (Z.abs z))
      else formatNumber q
  end.

(** ** The host's document *)

Record ComputedStyle := { display : jsstring; visibility : jsstring }.

(** What the host exposes of one element besides its place in the tree.
    [computedStyle] is [None] when there is no [window.getComputedStyle];
    [hrefProperty], [src] and [currentSrc] are the resolved properties
    [el.href], [el.src] and [el.currentSrc] (empty when absent). *)
Record ElementData := {
  tagName : jsstring;
  attributes : list (jsstring * jsstring);
  innerText : jsstring;
  computedStyle : option ComputedStyle;
  currentSrc : jsstring;
  src : jsstring;
  hrefProperty : jsstring
}.

(** [nodeType] 3, any other non-element node (a comment), [nodeType] 1. *)
#[warnings="-register-all"]
Inductive Node :=
| TextNode (data : jsstring)
| OtherNode
| ElementNode (e : ElementData) (kids : list Node).

(** An element together with its identity: the path of child indices that
    leads to it from the document element. *)
Record Element := {
  path : list nat;
  props : ElementData;
  childNodes : list Node
}.

Definition nodeOf (el : Element) : Node := ElementNode (props el) (childNodes el).

Fixpoint nodeText (n : Node) : jsstring :=
  match n with
  | TextNode data => data
  | OtherNode => []
  | ElementNode _ kids =>
      (fix each (ks : list Node) : jsstring :=
         match ks with [] => [] | k :: ks' => nodeText k ++ each ks' end) kids
  end.

Definition textContent (el : Element) : jsstring := nodeText (nodeOf el).

Fixpoint childrenFrom (p : list nat) (i : nat) (ks : list Node) : list Element :=
  match ks with
  | [] => []
  | ElementNode e kids :: ks' =>
      {| path := p ++ [i]; props := e; childNodes := kids |} :: childrenFrom p (S i) ks'
  | _ :: ks' => childrenFrom p (S i) ks'
  end.

(** [Array.from(el.children)] *)
Definition children (el : Element) : list Element :=
  childrenFrom (path el) 0 (childNodes el).

(** The levels of elements in a subtree, the root's included: a recursion
    that goes from an element to its [children] nests that deep at most. *)
Fixpoint nodeLevels (n : Node) : nat :=
  match n with
  | ElementNode _ kids =>
      S ((fix deepest (ks : list Node) : nat :=
            match ks with
            | [] => 0
            | k :: ks' => Nat.max (nodeLevels k) (deepest ks')
            end) kids)
  | _ => 0
  end.

Definition levels (el : Element) : nat := nodeLevels (nodeOf el).

(** The elements of a subtree in document order, the root first. *)
Fixpoint subtree (p : list nat) (n : Node) : list Element :=
  match n with
  | ElementNode e kids =>
      {| path := p; props := e; childNodes := kids |}
      :: (fix each (i : nat) (ks : list Node) : list Element :=
            match ks with
            | [] => []
            | k :: ks' => subtree (p ++ [i]) k ++ each (S i) ks'
            end) 0 kids
  | _ => []
  end.

Definition descendants (el : Element) : list Element :=
  tail (subtree (path el) (nodeOf el)).

Fixpoint nodeAt (n : Node) (p : list nat) : option Node :=
  match p with
  | [] => Some n
  | i :: p' =>
      match n with
      | ElementNode _ kids =>
          match kids !! i with Some k => nodeAt k p' | None => None end
      | _ => None
      end
  end.

Definition elementAt (doc : Node) (p : list nat) : option Element :=
  match nodeAt doc p with
  | Some (ElementNode e kids) => Some {| path := p; props := e; childNodes := kids |}
  | _ => None
  end.

Fixpoint lookupAttr (name : jsstring) (attrs : list (jsstring * jsstring))
  : option jsstring :=
  match attrs with
  | [] => None
  | (k, v) :: rest => if strEq k name then Some v else lookupAttr name rest
  end.

(** [el.getAttribute(name)], [None] for [null]. *)
Definition getAttribute (el : Element) (name : string) : option jsstring :=
  lookupAttr (lit name) (attributes (props el)).

Definition hasAttribute (el : Element) (name : string) : bool :=
  match getAttribute el name with Some _ => true | None => false end.

(** [el.getAttribute(name) || ''] *)
Definition attrOrEmpty (el : Element) (name : string) : jsstring :=
  match getAttribute el name with Some v => v | None => [] end.

(** [el.getAttribute(name) === value] *)
Definition attrIs (el : Element) (name value : string) : bool :=
  match getAttribute el name with Some v => strEq v (lit value) | None => false end.

(** [el.className], which reflects the [class] attribute. *)
Definition className (el : Element) : jsstring := attrOrEmpty el "class".

(** *** Selectors

    The selectors of the source are lists of compound selectors: a tag name
    or none, and attribute tests.  A type selector matches the tag name of an
    HTML element without regard to ASCII case. *)
Record Compound := {
  selTag : option string;
  selAttrs : list (string * option string)
}.

Definition byTag (t : string) : Compound := {| selTag := Some t; selAttrs := [] |}.
Definition byAttr (a v : string) : Compound :=
  {| selTag := None; selAttrs := [(a, Some v)] |}.

Definition matchesCompound (c : Compound) (el : Element) : bool :=
  match selTag c with
  | Some t => strEq (List.map foldUnit (tagName (props el))) (lit t)
  | None => true
  end
  && List.forallb
       (fun '(a, v) =>
          match v with Some x => attrIs el a x | None => hasAttribute el a end)
       (selAttrs c).

Definition matchesSelector (sel : list Compound) (el : Element) : bool :=
  List.existsb (fun c => matchesCompound c el) sel.

(** [Array.from(el.querySelectorAll(sel))] *)
Definition querySelectorAll (el : Element) (sel : list Compound) : list Element :=
  List.filter (matchesSelector sel) (descendants el).

(** [el.querySelector(sel)] *)
Definition querySelector (el : Element) (sel : list Compound) : option Element :=
  head (querySelectorAll el sel).

(** [doc.querySelectorAll(sel)]: the document element is a candidate too. *)
Definition docQuerySelectorAll (doc : Node) (sel : list Compound) : list Element :=
  List.filter (matchesSelector sel) (subtree [] doc).

(** [doc.body]: the first [body] or [frameset] child of the document element. *)
Definition docBody (doc : Node) : option Element :=
  match doc with
  | ElementNode e kids =>
      head (List.filter (matchesSelector [byTag "body"; byTag "frameset"])
              (childrenFrom [] 0 kids))
  | _ => None
  end.

(** The paths of an element and of its ancestors, the element first. *)
Fixpoint selfAndAncestors (p : list nat) (n : nat) : list (list nat) :=
  match n with
  | 0 => [take 0 p]
  | S k => take n p :: selfAndAncestors p k
  end.

(** [el.closest(sel)], as a truth value. *)
Definition closest (doc : Node) (el : Element) (sel : list Compound) : bool :=
  List.existsb
    (fun p => match elementAt doc p with
              | Some a => matchesSelector sel a
              | None => false
              end)
    (selfAndAncestors (path el) (length (path el))).

(** [el.parentElement] *)
Definition parentElement (doc : Node) (el : Element) : option Element :=
  match path el with
  | [] => None
  | _ => elementAt doc (take (length (path el) - 1) (path el))
  end.

(** [el.previousElementSibling] *)
Definition previousElementSibling (doc : Node) (el : Element) : option Element :=
  match parentElement doc el, last (path el) with
  | Some parent, Some i =>
      last (childrenFrom (path parent) 0 (take i (childNodes parent)))
  | _, _ => None
  end.

(** [root.contains(node)] *)
Definition containsNode (root node : Element) : bool :=
  bool_decide (path root `prefix_of` path node).

(** ** Options and resolved configuration *)

Inductive FilterMode := Summary | Compact | Full.

Inductive WalkMode := MainMode | ShellModeWalk.

(** [ReadableOptions]: a numeric option is [None] when [typeof] is not
    ['number'], a flag is [None] when it is left undefined. *)
Record ReadableOptions := {
  o_selector : jsstring;
  o_maxDepth : option number;
  o_maxItems : option number;
  o_maxListItems : option number;
  o_maxLineLength : option number;
  o_filterMode : option FilterMode;
  o_links : option bool;
  o_dedupe : option bool;
  o_dedupeWindow : option number;
  o_includeFooter : option bool;
  o_includeShell : option bool
}.

(** The constants the closure of [page.evaluate] computes from the options. *)
Record Config := {
  maxDepth : number;
  maxItems : number;
  maxListItems : number;
  maxLineLength : number;
  filterMode : FilterMode;
  lineLimit : number;
  linksEnabled : bool;
  dedupeEnabled : bool;
  dedupeWindow : number;
  includeFooter : bool;
  includeShell : bool
}.

(** [typeof o === 'number' ? Math.max(lo, o) : unset] *)
Definition clampOpt (lo : Z) (o : option number) (unset : number) : number :=
  match o with Some x => mathMax (ofZ lo) x | None => unset end.

Definition resolve (opts : ReadableOptions) : Config :=
  let mll := clampOpt 40 (o_maxLineLength opts) PosInfinity in
  {| maxDepth := clampOpt 0 (o_maxDepth opts) (ofZ 6);
     maxItems := clampOpt 1 (o_maxItems opts) PosInfinity;
     maxListItems := clampOpt 1 (o_maxListItems opts) PosInfinity;
     maxLineLength := mll;
     filterMode := match o_filterMode opts with Some m => m | None => Summary end;
     lineLimit := if isFinite mll then mll else ofZ 300;
     linksEnabled := match o_links opts with Some false => false | _ => true end;
     dedupeEnabled := match o_dedupe opts with Some false => false | _ => true end;
     dedupeWindow := clampOpt 10 (o_dedupeWindow opts) (ofZ 120);
     includeFooter := match o_includeFooter opts with Some true => true | _ => false end;
     includeShell := match o_includeShell opts with Some true => true | _ => false end |}.

(** [if (Number.isFinite(maxLineLength) && maxLineLength < 360) maxLineLength = 360],
    the assignment made when an article is chosen as the root. *)
Definition widenForArticle (cfg : Config) : Config :=
  {| maxDepth := maxDepth cfg;
     maxItems := maxItems cfg;
     maxListItems := maxListItems cfg;
     maxLineLength :=
       if isFinite (maxLineLength cfg) && lessThan (maxLineLength cfg) (ofZ 360)
       then ofZ 360 else maxLineLength cfg;
     filterMode := filterMode cfg;
     lineLimit := lineLimit cfg;
     linksEnabled := linksEnabled cfg;
     dedupeEnabled := dedupeEnabled cfg;
     dedupeWindow := dedupeWindow cfg;
     includeFooter := includeFooter cfg;
     includeShell := includeShell cfg |}.

(** [n >= budget] *)
Definition reaches (n : nat) (budget : number) : bool := atMost budget (ofNat n).

(** ** Extraction context *)

Record LinkEntry := { ref : jsstring; href : jsstring }.

(** The mutable variables of the closure. *)
Record State := mkState {
  itemCount : nat;
  truncated : bool;
  lines : list jsstring;
  fingerprintWindow : list jsstring;
  fingerprintSet : gset jsstring;
  linkMap : gmap jsstring jsstring;
  linkList : list LinkEntry;
  linkCounter : nat;
  shellMode : bool;
  shellRemaining : Z;
  walkMode : WalkMode
}.

Definition initialState : State :=
  mkState 0 false [] [] ∅ ∅ [] 0 false 0%Z MainMode.

Definition setTruncated (st : State) : State :=
  mkState (itemCount st) true (lines st) (fingerprintWindow st) (fingerprintSet st)
    (linkMap st) (linkList st) (linkCounter st)
    (shellMode st) (shellRemaining st) (walkMode st).

(** [lines.push(l); itemCount += 1; if (shellMode) shellRemaining -= 1] *)
Definition pushLine (l : jsstring) (st : State) : State :=
  mkState (itemCount st + 1) (truncated st) (lines st ++ [l])
    (fingerprintWindow st) (fingerprintSet st)
    (linkMap st) (linkList st) (linkCounter st)
    (shellMode st)
    (if shellMode st then (shellRemaining st - 1)%Z else shellRemaining st)
    (walkMode st).

Definition setFingerprints (w : list jsstring) (s : gset jsstring) (st : State) : State :=
  mkState (itemCount st) (truncated st) (lines st) w s
    (linkMap st) (linkList st) (linkCounter st)
    (shellMode st) (shellRemaining st) (walkMode st).

Definition setLinks (m : gmap jsstring jsstring) (l : list LinkEntry) (c : nat)
    (st : State) : State :=
  mkState (itemCount st) (truncated st) (lines st)
    (fingerprintWindow st) (fingerprintSet st) m l c
    (shellMode st) (shellRemaining st) (walkMode st).

Definition setMode (sm : bool) (sr : Z) (wm : WalkMode) (st : State) : State :=
  mkState (itemCount st) (truncated st) (lines st)
    (fingerprintWindow st) (fingerprintSet st)
    (linkMap st) (linkList st) (linkCounter st) sm sr wm.

(** Code that reads and writes the closure's variables is a function from the
    state to a result and the new state. *)
Definition M (A : Type) : Type := State -> A * State.

Definition ret {A} (a : A) : M A := fun st => (a, st).
Definition bind {A B} (m : M A) (k : A -> M B) : M B :=
  fun st => let '(a, st') := m st in k a st'.
Definition gets {A} (f : State -> A) : M A := fun st => (f st, st).
Definition modify (f : State -> State) : M unit := fun st => (tt, f st).

Notation "'let*' x ':=' m 'in' k" := (bind m (fun x => k))
  (at level 10, x pattern, m at level 100, k at level 200).
Notation "m ';;' k" := (bind m (fun _ => k))
  (at level 100, k at level 200, right associativity).

(** [for (const x of xs) { body(x); }] *)
Fixpoint forEach {A} (xs : list A) (body : A -> M unit) : M unit :=
  match xs with
  | [] => ret tt
  | x :: rest => body x;; forEach rest body
  end.

(** [for (const x of xs) { body(x); if (truncated) stop; }], where [stop] is
    a [break] or a [return] that ends the loop. *)
Fixpoint forEachUntilTruncated {A} (xs : list A) (body : A -> M unit) : M bool :=
  match xs with
  | [] => ret false
  | x :: rest =>
      body x;;
      let* t := gets truncated in
      if t then ret true else forEachUntilTruncated rest body
  end.

(** [for (const x of xs) { if (truncated) break; body(x); }] *)
Fixpoint forEachWhileOpen {A} (xs : list A) (body : A -> M unit) : M unit :=
  match xs with
  | [] => ret tt
  | x :: rest =>
      let* t := gets truncated in
      if t then ret tt else (body x;; forEachWhileOpen rest body)
  end.

(** ** The host and the result *)

(** What the host environment answers: [globalThis.document], given by its
    document element, and, for the caller's selector, the elements that
    [doc.querySelectorAll(opts.selector)] returns, named by their paths
    ([None] when the query throws, as it does on an invalid selector). *)
Record Host := {
  document : option Node;
  selected : option (list (list nat))
}.

Module Stats.
Record t := { lines : nat; maxDepth : number; items : nat }.
End Stats.

Module Result.
Record t := {
  text : jsstring;
  truncated : bool;
  stats : Stats.t;
  links : list LinkEntry
}.
End Result.

Section Extraction.
Context `{rt : JsRuntime}.

Definition fingerprintLine (text : jsstring) : jsstring :=
  trim (stripBulletGlyphs (replaceUpdated 0 (collapseSpaces (toLowerCase text)))).

(** ** Dedup and emission engine *)

(** The length of the prefix that [decorateLine] matches on a line starting
    with [#]: the hashes and the white space after them. *)
Definition headingPrefixLength (line : jsstring) : nat :=
  let hashes := takeWhile (N.eqb HASH) line in
  length hashes + length (takeWhile isSpace (drop (length hashes) line)).

Definition decorateLine (line : jsstring) (linkRef : option jsstring) : jsstring :=
  match linkRef with
  | None => line
  | Some r =>
      if negb (truthy r) then line
      else if startsWith line (lit "- ") then lit "- " ++ r ++ lit " " ++ drop 2 line
      else if startsWith line (lit "#") then
        let n := headingPrefixLength line in
        take n line ++ r ++ lit " " ++ drop n line
      else r ++ lit " " ++ line
  end.

Definition trimLine (cfg : Config) (text : jsstring) : jsstring :=
  if negb (isFinite (maxLineLength cfg)) then text
  else if atMost (ofNat (length text)) (maxLineLength cfg) then text
  else
    trimEnd (take (sliceEnd (length text) (minus (maxLineLength cfg) (ofZ 1))) text)
    ++ [ELLIPSIS].

(** [fingerprintSet.add(fp); fingerprintWindow.push(fp);] and the eviction
    of the oldest entry when the window has grown past [dedupeWindow]. *)
Definition rememberFingerprint (cfg : Config) (fp : jsstring) (st : State) : State :=
  let set1 := {[fp]} ∪ fingerprintSet st in
  let win1 := fingerprintWindow st ++ [fp] in
  if lessThan (dedupeWindow cfg) (ofNat (length win1)) then
    match win1 with
    | removed :: rest =>
        setFingerprints rest (if truthy removed then set1 ∖ {[removed]} else set1) st
    | [] => setFingerprints win1 set1 st
    end
  else setFingerprints win1 set1 st.

Definition addLine (cfg : Config) (line : jsstring) (linkRef : option jsstring)
  : M unit := fun st =>
  if truncated st then (tt, st)
  else if shellMode st && (shellRemaining st <=? 0)%Z then (tt, st)
  else
    let cleaned := normalizeBullets (cleanText line) in
    if negb (truthy cleaned) then (tt, st)
    else
      let fingerprint := fingerprintLine cleaned in
      let isHeading := startsWith cleaned (lit "#") in
      if dedupeEnabled cfg && negb isHeading
         && bool_decide (fingerprint ∈ fingerprintSet st)
      then (tt, st)
      else if reaches (itemCount st) (maxItems cfg) then (tt, setTruncated st)
      else
        let st1 := pushLine (trimLine cfg (decorateLine cleaned linkRef)) st in
        if dedupeEnabled cfg then (tt, rememberFingerprint cfg fingerprint st1)
        else (tt, st1).

(** ** Link registry *)

Definition rejectedUrl (trimmed : jsstring) : bool :=
  negb (truthy trimmed)
  || startsWith trimmed (lit "javascript:")
  || startsWith trimmed (lit "#")
  || startsWith trimmed (lit "data:")
  || startsWith trimmed (lit "blob:").

(** The body of [if (!ref) { ... }]: the next reference is allocated. *)
Definition allocateLink (trimmed : jsstring) : M jsstring := fun st =>
  let r := lit "L" ++ decimal (linkCounter st + 1) in
  (r, setLinks (<[trimmed := r]> (linkMap st))
        (linkList st ++ [{| ref := r; href := trimmed |}])
        (linkCounter st + 1) st).

Definition registerLink (href : jsstring) : M (option jsstring) :=
  let trimmed := trim href in
  if rejectedUrl trimmed then ret None
  else
    let* known := gets (fun st => linkMap st !! trimmed) in
    let* r :=
      match known with
      | Some r => if truthy r then ret r else allocateLink trimmed
      | None => allocateLink trimmed
      end in
    ret (Some (lit "@" ++ r)).

(** ** Tag classes *)

Definition SKIP_TAGS : list string :=
  ["script"; "style"; "svg"; "noscript"; "template"; "canvas"; "iframe"; "head";
   "meta"; "link"]%string.
Definition HEADING_TAGS : list string := ["h1"; "h2"; "h3"; "h4"; "h5"; "h6"]%string.
Definition HEADING_LIKE_TAGS : list string := ["summary"; "legend"]%string.
Definition BLOCK_TEXT_TAGS : list string :=
  ["p"; "blockquote"; "pre"; "figcaption"; "address"; "dd"; "dt"]%string.
Definition CONTAINER_TAGS : list string :=
  ["section"; "article"; "main"; "div"; "aside"; "header"; "footer"; "form";
   "fieldset"]%string.

(** Whether a query found an element. *)
Definition found {A} (o : option A) : bool :=
  match o with Some _ => true | None => false end.

(** [tags.has(tag)] *)
Definition has (tags : list string) (tag : jsstring) : bool :=
  List.existsb (fun t => strEq tag (lit t)) tags.

(** [tag === t] *)
Definition tagIs (tag : jsstring) (t : string) : bool := strEq tag (lit t).

(** [el.tagName.toLowerCase()] *)
Definition tagOf (el : Element) : jsstring := toLowerCase (tagName (props el)).

(** ['button, a, [role="button"], [role="link"]'] *)
Definition INTERACTIVE : list Compound :=
  [byTag "button"; byTag "a"; byAttr "role" "button"; byAttr "role" "link"].

(** ['a[href]'] *)
Definition ANCHOR_WITH_HREF : list Compound :=
  [{| selTag := Some "a"%string; selAttrs := [("href"%string, None)] |}].

Record FilterGroup := {
  label : jsstring;
  items : list jsstring;
  activeItems : list jsstring
}.

(** ** The functions of the closure

    [cfg] holds the constants resolved from the options (with
    [maxLineLength] as the root selector left it), [doc] is the document
    element, [rootSet] and [shellRootSet] are the sets of chosen roots. *)
Section Closure.
Variable cfg : Config.
Variable doc : Node.
Variables rootSet shellRootSet : gset (list nat).

Definition emitHiddenHeading (el : Element) : M bool :=
  if negb (truthy (textContent el)) then ret false
  else if 2 <? length (children el) then ret false
  else
    let text := cleanText (textContent el) in
    if negb (truthy text) || (60 <? length text) then ret false
    else addLine cfg (lit "### " ++ text) None;; ret true.

Definition isHidden (el : Element) : bool :=
  if hasAttribute el "hidden" then true
  else if attrIs el "aria-hidden" "true" then true
  else
    match computedStyle (props el) with
    | None => false
    | Some style =>
        strEq (display style) (lit "none") || strEq (visibility style) (lit "hidden")
    end.

Definition shouldSkip (el : Element) : M bool :=
  if includeFooter cfg then ret false
  else if bool_decide (path el ∈ rootSet) then ret false
  else if bool_decide (path el ∈ shellRootSet) then ret false
  else
    let* mode := gets walkMode in
    if closest doc el [byTag "footer"; byAttr "role" "contentinfo"] then ret true
    else if match mode with MainMode => true | _ => false end
            && closest doc el
                 [byTag "header"; byTag "nav"; byAttr "role" "navigation"; byTag "aside"]
         then ret true
    else if match mode with ShellModeWalk => true | _ => false end
            && closest doc el [byTag "main"; byTag "article"]
         then ret true
    else ret false.

Definition getLinkRef (el : Element) : M (option jsstring) :=
  if negb (linksEnabled cfg) then ret None
  else
    let tag := if truthy (tagName (props el)) then tagOf el else [] in
    let anchor := if tagIs tag "a" then Some el else querySelector el ANCHOR_WITH_HREF in
    match anchor with
    | None => ret None
    | Some a =>
        let href := orElse (attrOrEmpty a "href") (hrefProperty (props a)) in
        if negb (truthy href) then ret None else registerLink href
    end.

(** The heading level, rounded down (it is only used as a repeat count). *)
Definition getHeadingLevel (el : Element) (tag : jsstring) : nat :=
  if has HEADING_TAGS tag then digitsValue (drop 1 tag)
  else if attrIs el "role" "heading" then
    match toPositiveNumber (orElse (attrOrEmpty el "aria-level") (lit "3")) with
    | Some level => level
    | None => 3
    end
  else 3.

Fixpoint collectInlineText (p : list nat) (n : Node) {struct n} : M jsstring :=
  match n with
  | ElementNode _ kids =>
      let* parts :=
        (fix each (i : nat) (ks : list Node) {struct ks} : M (list jsstring) :=
           match ks with
           | [] => ret []
           | k :: ks' =>
               let* part :=
                 match k with
                 | TextNode data => ret (if truthy data then [data] else [])
                 | OtherNode => ret []
                 | ElementNode e ckids =>
                     let child := {| path := p ++ [i]; props := e; childNodes := ckids |} in
                     let tag := tagOf child in
                     if has SKIP_TAGS tag then ret []
                     else if tagIs tag "a" then
                       let text := cleanText (textContent child) in
                       if truthy text then
                         let* linkRef := getLinkRef child in
                         ret [match linkRef with
                              | Some r =>
                                  if truthy r then lit "[" ++ text ++ lit "]" ++ r else text
                              | None => text
                              end]
                       else ret []
                     else if has HEADING_TAGS tag || has HEADING_LIKE_TAGS tag then ret []
                     else if has BLOCK_TEXT_TAGS tag || tagIs tag "ul" || tagIs tag "ol"
                          then ret []
                     else if isHidden child then ret []
                     else let* t := collectInlineText (p ++ [i]) k in ret [t]
                 end in
               let* rest := each (S i) ks' in
               ret (part ++ rest)
           end) 0 kids in
      ret (join (lit " ") parts)
  | _ => ret []
  end.

Definition extractInlineText (el : Element) : M jsstring :=
  let* t := collectInlineText (path el) (nodeOf el) in
  ret (cleanText t).

(** The loop of [compactText] that drops a part equal, up to case, to the
    one kept before it. *)
Definition pushUnlessRepeated (unique : list jsstring) (part : jsstring) : list jsstring :=
  match last unique with
  | Some l =>
      if negb (truthy l) || negb (strEq (toLowerCase l) (toLowerCase part))
      then unique ++ [part] else unique
  | None => unique ++ [part]
  end.

Definition compactText (el : Element) : jsstring :=
  let parts :=
    List.filter truthy
      (List.map cleanText (splitOn (N.eqb NEWLINE) (innerText (props el)))) in
  let unique := fold_left pushUnlessRepeated parts [] in
  let joined := normalizeBullets (join [SPACE; BULLET; SPACE] unique) in
  trimLine cfg joined.

Definition isStandaloneInline (el : Element) : bool :=
  match parentElement doc el with
  | None => true
  | Some parent =>
      let tag := tagOf parent in
      if has HEADING_TAGS tag || has HEADING_LIKE_TAGS tag then false
      else if has BLOCK_TEXT_TAGS tag then false
      else if tagIs tag "li" || tagIs tag "button" || tagIs tag "a" || tagIs tag "label"
           then false
      else true
  end.

Definition isCard (el : Element) : bool :=
  let tag := tagOf el in
  if tagIs tag "article" then true
  else if attrIs el "role" "article" || attrIs el "role" "listitem" then true
  else
    let testId := attrOrEmpty el "data-testid" in
    if includes testId (lit "card") || includes testId (lit "model") then true
    else false.

Definition hasBlockChildren (el : Element) : bool :=
  List.existsb
    (fun child =>
       let childTag := tagOf child in
       has HEADING_TAGS childTag || has HEADING_LIKE_TAGS childTag
       || has BLOCK_TEXT_TAGS childTag
       || tagIs childTag "ul" || tagIs childTag "ol" || tagIs childTag "li"
       || tagIs childTag "article")
    (children el).

Definition shouldSummarizeCard (el : Element) : bool :=
  if negb (isCard el) then false
  else if bool_decide (path el ∈ rootSet) then false
  else if hasBlockChildren el then false
  else
    let text := cleanText (innerText (props el)) in
    if lessThan (twice (lineLimit cfg)) (ofNat (length text)) then false else true.

Definition withShellMode (limit : Z) (fn : M unit) : M unit :=
  let* prevMode := gets shellMode in
  let* prevRemaining := gets shellRemaining in
  let* prevWalkMode := gets walkMode in
  modify (setMode true limit ShellModeWalk);;
  fn;;
  modify (setMode prevMode prevRemaining prevWalkMode).

Definition isActiveChip (el : Element) : bool :=
  if attrIs el "aria-pressed" "true" then true
  else if attrIs el "aria-selected" "true" then true
  else
    let ariaCurrent := attrOrEmpty el "aria-current" in
    if truthy ariaCurrent && negb (strEq ariaCurrent (lit "false")) then true
    else
      let dataState := attrOrEmpty el "data-state" in
      if truthy dataState && has ["checked"; "selected"; "active"]%string dataState
      then true
      else
        let cls := toLowerCase (className el) in
        if includes cls (lit "active") || includes cls (lit "selected")
           || includes cls (lit "checked")
        then true else false.

(** [(text.match(/\d+/g) || []).length]: the number of runs of digits. *)
Fixpoint digitRuns (inDigits : bool) (s : jsstring) : nat :=
  match s with
  | [] => 0
  | c :: r =>
      if isDigit c
      then (if inDigits then digitRuns true r else S (digitRuns true r))
      else digitRuns false r
  end.

(** [/^reset\b/i.test(text)] *)
Definition startsWithReset (text : jsstring) : bool :=
  startsWithCI text (lit "reset") && negb (headIs isWord (drop 5 text)).

Definition isLabelCandidate (text : jsstring) : bool :=
  if negb (truthy text) then false
  else if negb (List.existsb isLetter text) && List.existsb isDigit text then false
  else
    let digitCount := digitRuns false text in
    let tokenCount := length (splitOn isSpace text) in
    if 3 <=? digitCount then false
    else if (2 <=? digitCount) && (3 <=? tokenCount) then false
    else if headIs (fun c => unitIn c (lit "<>")) text && (1 <=? digitCount) then false
    else if startsWithReset text then false
    else true.

Definition isInteractive (node : Element) : bool :=
  let tag := if truthy (tagName (props node)) then tagOf node else [] in
  if tagIs tag "button" || tagIs tag "a" then true
  else if attrIs node "role" "button" || attrIs node "role" "link" then true
  else false.

(** The loops of [findGroupLabel]: the text of the first eligible candidate
    that is short enough and plausible as a label. *)
Fixpoint firstLabel (eligible : Element -> bool) (limit : nat) (cands : list Element)
  : M (option jsstring) :=
  match cands with
  | [] => ret None
  | c :: rest =>
      if eligible c then
        let* text := extractInlineText c in
        if truthy text && (length text <=? limit) && isLabelCandidate text
        then ret (Some text)
        else firstLabel eligible limit rest
      else firstLabel eligible limit rest
  end.

(** The test that the second and third loops and the sibling lookup share:
    not interactive and without an interactive descendant. *)
Definition plainCandidate (node : Element) : bool :=
  negb (isInteractive node)
  && match querySelector node INTERACTIVE with Some _ => false | None => true end.

Definition findGroupLabel (el : Element) : M (option jsstring) :=
  let ariaLabel := cleanText (attrOrEmpty el "aria-label") in
  if truthy ariaLabel && isLabelCandidate ariaLabel then ret (Some ariaLabel)
  else
    let labelTags := ["label"; "strong"; "span"; "p"]%string in
    let* found :=
      firstLabel
        (fun child =>
           let tag := tagOf child in
           has HEADING_TAGS tag || has HEADING_LIKE_TAGS tag || has labelTags tag)
        40 (children el) in
    match found with
    | Some text => ret (Some text)
    | None =>
        let* found := firstLabel plainCandidate 30 (children el) in
        match found with
        | Some text => ret (Some text)
        | None =>
            let* found := firstLabel plainCandidate 30 (descendants el) in
            match found with
            | Some text => ret (Some text)
            | None =>
                match previousElementSibling doc el with
                | Some prev => firstLabel plainCandidate 30 [prev]
                | None => ret None
                end
            end
        end
    end.

(** [nodes.map((node) => extractInlineText(node)).filter(Boolean)] *)
Fixpoint extractTexts (nodes : list Element) : M (list jsstring) :=
  match nodes with
  | [] => ret []
  | n :: rest =>
      let* text := extractInlineText n in
      let* texts := extractTexts rest in
      ret (if truthy text then text :: texts else texts)
  end.

Definition extractFilterGroup (el : Element) : M (option FilterGroup) :=
  if negb (has CONTAINER_TAGS (tagOf el)) then ret None
  else if bool_decide (path el ∈ rootSet) then ret None
  else if found
            (querySelector el
               [byTag "h1";
                {| selTag := None;
                   selAttrs := [("role", Some "heading"); ("aria-level", Some "1")]%string |}])
       then ret None
  else if found
            (querySelector el [byTag "article"; byTag "table"; byTag "ul"; byTag "ol"])
       then ret None
  else
    let* found := findGroupLabel el in
    match found with
    | None => ret None
    | Some label =>
        if negb (truthy label) then ret None
        else
          let chipNodes :=
            List.filter (fun node => negb (isHidden node)) (querySelectorAll el INTERACTIVE) in
          if length chipNodes <? 3 then ret None
          else
            let* items := extractTexts chipNodes in
            if length items <? 2 then ret None
            else
              let short := length (List.filter (fun item => length item <=? 40) items) in
              if 10 * short <? 7 * Nat.max (length items) 1 then ret None
              else
                let* activeItems := extractTexts (List.filter isActiveChip chipNodes) in
                ret (Some {| label := label; items := items; activeItems := activeItems |})
    end.

(** [item.match(/^\+\s*(\d+)$/)]: the number after the plus sign. *)
Definition plusCount (item : jsstring) : option nat :=
  match item with
  | c :: r =>
      let digits := dropWhile isSpace r in
      if (c =? 43)%N && truthy digits && List.forallb isDigit digits
      then Some (digitsValue digits) else None
  | [] => None
  end.

(** [list.slice(0, maxListItems)] *)
Definition sliceToLimit {A} (limit : number) (l : list A) : list A :=
  take (sliceEnd (length l) limit) l.

(** The loop of [formatFilterGroup] that keeps the first occurrence of each
    item up to case; it yields [uniqueItems] and [seen]. *)
Definition pushUnlessSeen (acc : list jsstring * gset jsstring) (item : jsstring)
  : list jsstring * gset jsstring :=
  let key := toLowerCase item in
  if bool_decide (key ∈ acc.2) then acc else (acc.1 ++ [item], {[key]} ∪ acc.2).

Definition formatFilterGroup (group : FilterGroup) : jsstring :=
  let cleanedItems := List.filter (fun item => negb (startsWithReset item)) (items group) in
  let extraCount :=
    fold_left (fun n item => match plusCount item with Some k => n + k | None => n end)
      cleanedItems 0 in
  let filtered :=
    List.filter (fun item => match plusCount item with Some _ => false | None => true end)
      cleanedItems in
  let '(uniqueItems, seen) := fold_left pushUnlessSeen filtered ([], ∅) in
  let activeUnique :=
    List.filter (fun item => bool_decide (toLowerCase item ∈ seen)) (activeItems group) in
  let remaining :=
    List.filter
      (fun item =>
         negb (List.existsb
                 (fun active => strEq (toLowerCase active) (toLowerCase item))
                 activeUnique))
      uniqueItems in
  let selected :=
    match filterMode cfg with
    | Compact => sliceToLimit (maxListItems cfg) (activeUnique ++ remaining)
    | _ => sliceToLimit (maxListItems cfg) uniqueItems
    end in
  if length selected =? 0 then []
  else
    let remainingCount := length uniqueItems - length selected in
    let moreCount := remainingCount + extraCount in
    let suffix :=
      if 0 <? moreCount then lit " (+" ++ decimal moreCount ++ lit " more)" else [] in
    label group ++ lit ": " ++ join (lit ", ") selected ++ suffix.

(** ['  '.repeat(listDepth)] *)
Definition indent (listDepth : nat) : jsstring := repeatStr (lit "  ") listDepth.

(** The line [`- … (${remaining} more)`] before its indentation. *)
Definition moreLine (remaining : number) : jsstring :=
  lit "- " ++ [ELLIPSIS] ++ lit " (" ++ numberToString remaining ++ lit " more)".

(** [Math.min(items.length, maxListItems)] *)
Definition listLimit (n : nat) : number := mathMin (ofNat n) (maxListItems cfg).

(** The items that the loop [for (let i = 0; i < limit; i++)] visits: it
    leaves at the first index that is not below [limit].  (The limit is at
    most the number of items, or [NaN], so that [items[i]] is an item.) *)
Fixpoint itemsBelow {A} (limit : number) (i : nat) (items : list A) : list A :=
  match items with
  | [] => []
  | item :: rest =>
      if lessThan (ofNat i) limit then item :: itemsBelow limit (S i) rest else []
  end.

(** [handleList], given the function [walk] it calls on the items. *)
Definition handleList (walk : Element -> nat -> nat -> M unit)
    (el : Element) (depth listDepth : nat) : M unit :=
  let items := List.filter (fun child => tagIs (tagOf child) "li") (children el) in
  let limit := listLimit (length items) in
  let* stopped :=
    forEachUntilTruncated (itemsBelow limit 0 items)
      (fun item => walk item (depth + 1) (listDepth + 1)) in
  if stopped then ret tt
  else if lessThan limit (ofNat (length items)) then
    let remaining := minus (ofNat (length items)) limit in
    addLine cfg (indent listDepth ++ moreLine remaining) None
  else ret tt.

(** [walk].  Every recursive call is made on a child of the element, so
    that the calls nest no deeper than the subtree has levels: [fuel] bounds
    the nesting, and the passes start a walk with the [levels] of its root.
    (Every recursive call is also made at [depth + 1], and a call with
    [depth > maxDepth] returns at once: where [maxDepth] is a number the
    calls nest [maxDepth + 1 - depth] deep at most.) *)
Fixpoint walk (fuel : nat) (el : Element) (depth listDepth : nat) : M unit :=
  match fuel with
  | 0 => ret tt
  | S fuel' =>
      let* t := gets truncated in
      if t then ret tt
      else if lessThan (maxDepth cfg) (ofNat depth) then ret tt
      else
        let tag := tagOf el in
        if has SKIP_TAGS tag then ret tt
        else
          let* skip := shouldSkip el in
          if skip then ret tt
          else if isHidden el then (let* _ := emitHiddenHeading el in ret tt)
          else if tagIs tag "ul" || tagIs tag "ol" then
            handleList (walk fuel') el depth listDepth
          else if has HEADING_TAGS tag || has HEADING_LIKE_TAGS tag
                  || attrIs el "role" "heading" then
            let* text := extractInlineText el in
            if truthy text then
              let level := getHeadingLevel el tag in
              let prefix := repeatStr (lit "#") (Nat.min (Nat.max level 1) 6) in
              addLine cfg (prefix ++ lit " " ++ text) None
            else ret tt
          else if tagIs tag "blockquote" then
            let* text := extractInlineText el in
            if truthy text then addLine cfg (lit "> " ++ text) None else ret tt
          else if tagIs tag "figure" then
            let* caption :=
              match querySelector el [byTag "figcaption"] with
              | Some captionEl => extractInlineText captionEl
              | None => ret []
              end in
            let img := querySelector el [byTag "img"] in
            let video := querySelector el [byTag "video"] in
            let label :=
              orElse caption
                (orElse (match img with Some i => attrOrEmpty i "alt" | None => [] end)
                   (lit "Media")) in
            let src :=
              orElse
                (match img with
                 | Some i => orElse (currentSrc (props i)) (src (props i))
                 | None => []
                 end)
                (match video with
                 | Some v =>
                     orElse (currentSrc (props v))
                       (orElse (src (props v)) (attrOrEmpty v "poster"))
                 | None => []
                 end) in
            let* linkRef := if truthy src then registerLink src else ret None in
            if truthy label then addLine cfg (lit "- " ++ label) linkRef else ret tt
          else if tagIs tag "img" then
            let alt := orElse (cleanText (attrOrEmpty el "alt")) (lit "Image") in
            let src := orElse (currentSrc (props el)) (src (props el)) in
            let* linkRef := if truthy src then registerLink src else ret None in
            addLine cfg (lit "- " ++ alt) linkRef
          else if tagIs tag "video" then
            let caption := orElse (cleanText (attrOrEmpty el "aria-label")) (lit "Video") in
            let src :=
              orElse (currentSrc (props el))
                (orElse (src (props el)) (attrOrEmpty el "poster")) in
            let* linkRef := if truthy src then registerLink src else ret None in
            addLine cfg (lit "- " ++ caption) linkRef
          else if tagIs tag "li" then
            let* inline := extractInlineText el in
            let text := orElse inline (compactText el) in
            let* linkRef := getLinkRef el in
            (if truthy text
             then addLine cfg (indent listDepth ++ lit "- " ++ text) linkRef
             else ret tt);;
            let nestedLists :=
              List.filter
                (fun child =>
                   let childTag := tagOf child in
                   tagIs childTag "ul" || tagIs childTag "ol")
                (children el) in
            forEach nestedLists (fun list => walk fuel' list (depth + 1) (listDepth + 1))
          else
            let* group := extractFilterGroup el in
            let* handled :=
              match group, filterMode cfg with
              | Some _, Full | None, _ => ret false
              | Some g, _ =>
                  let line := formatFilterGroup g in
                  (if truthy line
                   then addLine cfg (indent listDepth ++ lit "- " ++ line) None
                   else ret tt);;
                  ret true
              end in
            if handled then ret tt
            else if shouldSummarizeCard el then
              let text := compactText el in
              let* linkRef := getLinkRef el in
              if truthy text
              then addLine cfg (indent listDepth ++ lit "- " ++ text) linkRef
              else ret tt
            else if has BLOCK_TEXT_TAGS tag then
              let* text := extractInlineText el in
              if truthy text then addLine cfg text None else ret tt
            else
              let* collapsed :=
                if has CONTAINER_TAGS tag then
                  if bool_decide (path el ∈ rootSet) then ret false
                  else
                    let* sm := gets shellMode in
                    if negb sm then
                      let hasBlock := hasBlockChildren el in
                      let* inlineText := extractInlineText el in
                      let childCount := length (children el) in
                      let isCompact :=
                        atMost (ofNat (length inlineText)) (lineLimit cfg)
                        && (childCount <=? 3) in
                      if truthy inlineText && negb hasBlock && isCompact
                      then addLine cfg inlineText None;; ret true
                      else ret false
                    else ret false
                else ret false in
              if collapsed then ret tt
              else if (tagIs tag "button" || tagIs tag "a") && isStandaloneInline el then
                let* text := extractInlineText el in
                let* linkRef := getLinkRef el in
                if truthy text
                then addLine cfg (indent listDepth ++ lit "- " ++ text) linkRef
                else ret tt
              else
                let* emitted :=
                  if length (children el) =? 0 then
                    let text := cleanText (textContent el) in
                    if truthy text then
                      let* linkRef := getLinkRef el in
                      addLine cfg text linkRef;; ret true
                    else ret false
                  else ret false in
                if emitted then ret tt
                else
                  let* _ :=
                    forEachUntilTruncated (children el)
                      (fun child => walk fuel' child (depth + 1) listDepth) in
                  ret tt
  end.

(** *** The passes of [getReadableText] *)

Variables roots shellRoots : list Element.

(** The shell pass. *)
Definition shellPass : M unit :=
  if includeShell cfg && (0 <? length shellRoots) then
    withShellMode 60
      (forEachWhileOpen shellRoots (fun root => walk (levels root) root 0 0))
  else ret tt.

(** [walkMode = 'main'] and the main pass. *)
Definition mainPass : M unit :=
  modify (fun st => setMode (shellMode st) (shellRemaining st) MainMode st);;
  forEach roots (fun root => walk (levels root) root 0 0).

(** [const href = anchor.getAttribute('href') || anchor.href; if (href) registerLink(href);] *)
Definition registerAnchor (anchor : Element) : M unit :=
  let href := orElse (attrOrEmpty anchor "href") (hrefProperty (props anchor)) in
  if truthy href then (let* _ := registerLink href in ret tt) else ret tt.

(** [linkList.length - baseCount >= shellLinkLimit], with the limit 60. *)
Definition shellLinkLimitReached (baseCount : nat) : M bool :=
  gets (fun st => 60 <=? length (linkList st) - baseCount).

Fixpoint sweepShellAnchors (baseCount : nat) (anchors : list Element) : M unit :=
  match anchors with
  | [] => ret tt
  | anchor :: rest =>
      let* full := shellLinkLimitReached baseCount in
      if full then ret tt
      else (registerAnchor anchor;; sweepShellAnchors baseCount rest)
  end.

Fixpoint sweepShellRoots (baseCount : nat) (rs : list Element) : M unit :=
  match rs with
  | [] => ret tt
  | root :: rest =>
      sweepShellAnchors baseCount (querySelectorAll root ANCHOR_WITH_HREF);;
      let* full := shellLinkLimitReached baseCount in
      if full then ret tt else sweepShellRoots baseCount rest
  end.

(** The anchors under the roots are registered after the traversal. *)
Definition linkSweep : M unit :=
  (if linksEnabled cfg && (0 <? length roots) then
     forEach roots
       (fun root => forEach (querySelectorAll root ANCHOR_WITH_HREF) registerAnchor)
   else ret tt);;
  if linksEnabled cfg && includeShell cfg && (0 <? length shellRoots) then
    let* baseCount := gets (fun st => length (linkList st)) in
    sweepShellRoots baseCount shellRoots
  else ret tt.

Definition addNodeLine (node : Element) : M unit :=
  let tag := tagOf node in
  if tagIs tag "blockquote" then
    let* text := extractInlineText node in
    if truthy text then addLine cfg (lit "> " ++ text) None else ret tt
  else if tagIs tag "li" then
    let* text := extractInlineText node in
    if truthy text then addLine cfg (lit "- " ++ text) None else ret tt
  else if tagIs tag "p" then
    let* text := extractInlineText node in
    if truthy text then addLine cfg text None else ret tt
  else if tagIs tag "figcaption" then
    let* text := extractInlineText node in
    if truthy text then addLine cfg (lit "- " ++ text) None else ret tt
  else if has HEADING_TAGS tag then
    let* text := extractInlineText node in
    if truthy text then
      let level := getHeadingLevel node tag in
      let prefix := repeatStr (lit "#") (Nat.min (Nat.max level 2) 6) in
      addLine cfg (prefix ++ lit " " ++ text) None
    else ret tt
  else ret tt.

(** ['h2,h3,h4,p,blockquote,figcaption,li'] *)
Definition FALLBACK_TAGS : list Compound :=
  [byTag "h2"; byTag "h3"; byTag "h4"; byTag "p"; byTag "blockquote";
   byTag "figcaption"; byTag "li"].

Definition fallbackRoot (root : Element) : M unit :=
  let nodes := querySelectorAll root FALLBACK_TAGS in
  let* _ := forEachUntilTruncated nodes addNodeLine in
  let* t := gets truncated in
  let* n := gets (fun st => length (lines st)) in
  if negb t && (n <? 8) then
    let segments :=
      List.filter truthy
        (List.map cleanText (splitOn (N.eqb NEWLINE) (innerText (props root)))) in
    forEach segments
      (fun segment =>
         let words := length (splitOn isSpace segment) in
         if 4 <=? words then addLine cfg segment None else ret tt)
  else ret tt.

(** The fallback pass for a low yield. *)
Definition fallbackPass : M unit :=
  let* ls := gets lines in
  let totalChars := fold_left (fun sum line => sum + length line) ls 0 in
  if (0 <? length roots) && ((length ls <? 8) || (totalChars <? 400))
  then forEach roots fallbackRoot
  else ret tt.

(** The link table. *)
Definition linkTable : M unit :=
  let* links := gets linkList in
  let* t := gets truncated in
  if linksEnabled cfg && (0 <? length links) && negb t then
    addLine cfg (lit "### Links") None;;
    let* _ :=
      forEachUntilTruncated links
        (fun link => addLine cfg (lit "@" ++ ref link ++ lit " " ++ href link) None) in
    ret tt
  else ret tt.

Definition extraction : M unit :=
  shellPass;; mainPass;; linkSweep;; fallbackPass;; linkTable.

(** The object that the closure returns. *)
Definition assemble (st : State) : Result.t :=
  {| Result.text := join [NEWLINE] (lines st);
     Result.truncated := truncated st;
     Result.stats :=
       {| Stats.lines := length (lines st);
          Stats.maxDepth := maxDepth cfg;
          Stats.items := itemCount st |};
     Result.links := linkList st |}.

End Closure.

(** ** Root selector *)

(** The score of an [article] and whether it qualifies. *)
Definition articleScore (article : Element) : bool * Z :=
  let paragraphs := querySelectorAll article [byTag "p"] in
  let paragraphText :=
    join (lit " ") (List.map (fun p => trim (innerText (props p))) paragraphs) in
  let pLen := length paragraphText in
  let pCount := length paragraphs in
  let linkCount := length (querySelectorAll article [byTag "a"]) in
  ((400 <=? pLen) || (3 <=? pCount),
   (Z.of_nat pLen + Z.of_nat pCount * 200 - Z.of_nat linkCount * 20)%Z).

Definition betterArticle (best : option Element * Z) (article : Element)
  : option Element * Z :=
  let '(qualifies, score) := articleScore article in
  if qualifies && (best.2 <? score)%Z then (Some article, score) else best.

Definition bestArticle (doc : Node) : option Element :=
  (fold_left betterArticle (docQuerySelectorAll doc [byTag "article"]) (None, (-1)%Z)).1.

Definition longerCandidate (best : option Element * Z) (candidate : Element)
  : option Element * Z :=
  let score := Z.of_nat (length (trim (innerText (props candidate)))) in
  if (best.2 <? score)%Z then (Some candidate, score) else best.

(** The choice between [main] and the body. *)
Definition bestLandmark (doc : Node) : option Element :=
  let candidates :=
    match head (docQuerySelectorAll doc [byTag "main"]) with
    | Some m => [m] | None => []
    end
    ++ match docBody doc with Some b => [b] | None => [] end in
  (fold_left longerCandidate candidates (head candidates, (-1)%Z)).1.

(** The roots found without a selector, and the configuration with
    [maxLineLength] as the choice of an article leaves it. *)
Definition defaultRoots (cfg : Config) (doc : Node) : Config * list Element :=
  match bestArticle doc with
  | Some article => (widenForArticle cfg, [article])
  | None =>
      match bestLandmark doc with
      | Some best => (cfg, [best])
      | None => (cfg, [])
      end
  end.

(** ['header,nav,aside,[role="navigation"]'] without the nodes that a root contains. *)
Definition selectShellRoots (cfg : Config) (doc : Node) (roots : list Element)
  : list Element :=
  if includeShell cfg then
    List.filter
      (fun node => negb (List.existsb (fun root => containsNode root node) roots))
      (docQuerySelectorAll doc
         [byTag "header"; byTag "nav"; byTag "aside"; byAttr "role" "navigation"])
  else [].

(** The closure up to the passes: the chosen roots, the shell roots and the
    configuration they are walked with; [None] when the selector query
    throws.  Without a document there is no root. *)
Definition selectRoots (host : Host) (opts : ReadableOptions)
  : option (Config * Node * list Element * list Element) :=
  let cfg := resolve opts in
  match document host with
  | None => Some (cfg, OtherNode, [], [])
  | Some doc =>
      match (if truthy (o_selector opts)
             then option_map (omap (elementAt doc)) (selected host)
             else Some [])
      with
      | None => None
      | Some chosen =>
          let '(cfg', roots) :=
            match chosen with
            | [] => defaultRoots cfg doc
            | _ => (cfg, chosen)
            end in
          Some (cfg', doc, roots, selectShellRoots cfg doc roots)
      end
  end.

(** The state in which the passes leave the closure's variables. *)
Definition finalState (cfg : Config) (doc : Node) (roots shellRoots : list Element)
  : State :=
  (extraction cfg doc (list_to_set (List.map path roots))
     (list_to_set (List.map path shellRoots)) roots shellRoots initialState).2.

(** [getReadableText]; [None] when the selector query throws. *)
Definition getReadableText (host : Host) (opts : ReadableOptions) : option Result.t :=
  match selectRoots host opts with
  | Some (cfg, doc, roots, shellRoots) =>
      Some (assemble cfg (finalState cfg doc roots shellRoots))
  | None => None
  end.

(** ** Executions

    Every change that the closure makes to its variables is made by
    [addLine], by [registerLink] or by an assignment to the mode flags. *)
Inductive step (cfg : Config) : State -> State -> Prop :=
| step_addLine line linkRef st : step cfg st (addLine cfg line linkRef st).2
| step_registerLink url st : step cfg st (registerLink url st).2
| step_setMode sm sr wm st : step cfg st (setMode sm sr wm st).

(** The states that a call can be in. *)
Definition reachable (cfg : Config) (st : State) : Prop :=
  rtc (step cfg) initialState st.

(** Candidate lines handed to the engine one after the other. *)
Definition emitAll (cfg : Config) (candidates : list jsstring) : M unit :=
  forEach candidates (fun line => addLine cfg line None).

End Extraction.

(** The number that a reference [Lk] carries. *)
Definition referenceNumber (r : jsstring) : nat := digitsValue (drop 1 r).

(** ** Sample documents

    The documents and options on which the scenarios are evaluated, with the
    runtime [asciiRuntime]. *)

Definition VISIBLE : option ComputedStyle :=
  Some {| display := lit "block"; visibility := lit "visible" |}.

(** An element with its tag name, attributes, rendered text and child nodes. *)
Definition element (tag : string) (attrs : list (string * string)) (rendered : string)
    (kids : list Node) : Node :=
  ElementNode
    {| tagName := lit tag;
       attributes := List.map (fun '(a, v) => (lit a, lit v)) attrs;
       innerText := lit rendered;
       computedStyle := VISIBLE;
       currentSrc := [];
       src := [];
       hrefProperty := [] |}
    kids.

Definition textNode (s : string) : Node := TextNode (lit s).

(** [<html><body>...</body></html>] *)
Definition page (rendered : string) (kids : list Node) : Host :=
  {| document := Some (element "HTML" [] rendered [element "BODY" [] rendered kids]);
     selected := None |}.

Definition defaults : ReadableOptions :=
  {| o_selector := [];
     o_maxDepth := None;
     o_maxItems := None;
     o_maxListItems := None;
     o_maxLineLength := None;
     o_filterMode := None;
     o_links := None;
     o_dedupe := None;
     o_dedupeWindow := None;
     o_includeFooter := None;
     o_includeShell := None |}.

(** [{ maxItems: 1 }] *)
Definition oneItem : ReadableOptions :=
  {| o_selector := [];
     o_maxDepth := None;
     o_maxItems := Some (ofZ 1);
     o_maxListItems := None;
     o_maxLineLength := None;
     o_filterMode := None;
     o_links := None;
     o_dedupe := None;
     o_dedupeWindow := None;
     o_includeFooter := None;
     o_includeShell := None |}.

(** The number [n / 2]: [halves 5] is 2.5. *)
Definition halves (n : Z) : number := Finite (Q2Qc (n # 2)).

(** [{ maxItems: x }] *)
Definition itemBudget (x : number) : ReadableOptions :=
  {| o_selector := [];
     o_maxDepth := None;
     o_maxItems := Some x;
     o_maxListItems := None;
     o_maxLineLength := None;
     o_filterMode := None;
     o_links := None;
     o_dedupe := None;
     o_dedupeWindow := None;
     o_includeFooter := None;
     o_includeShell := None |}.

(** [{ maxListItems: x }] *)
Definition listBudget (x : number) : ReadableOptions :=
  {| o_selector := [];
     o_maxDepth := None;
     o_maxItems := None;
     o_maxListItems := Some x;
     o_maxLineLength := None;
     o_filterMode := None;
     o_links := None;
     o_dedupe := None;
     o_dedupeWindow := None;
     o_includeFooter := None;
     o_includeShell := None |}.

(** [<p>Hello world</p><p>More</p><p><a href="https://example.org/a">link</a></p>] *)
Definition threeParagraphs : Host :=
  page "Hello world
More
link"
    [element "P" [] "Hello world" [textNode "Hello world"];
     element "P" [] "More" [textNode "More"];
     element "P" [] "link"
       [element "A" [("href", "https://example.org/a")]%string "link" [textNode "link"]]].

(** Options with the given budgets and filter mode, the others left unset. *)
Definition options (items listItems lineLength window : option Z)
    (mode : option FilterMode) : ReadableOptions :=
  {| o_selector := [];
     o_maxDepth := None;
     o_maxItems := ofZ <$> items;
     o_maxListItems := ofZ <$> listItems;
     o_maxLineLength := ofZ <$> lineLength;
     o_filterMode := mode;
     o_links := None;
     o_dedupe := None;
     o_dedupeWindow := ofZ <$> window;
     o_includeFooter := None;
     o_includeShell := None |}.

Definition button (attrs : list (string * string)) (caption : string) : Node :=
  element "BUTTON" attrs caption [textNode caption].

(** [<span>Color</span>] followed by a [<div>] of five buttons, the first
    one pressed; [last] is the caption of the fifth. *)
Definition colourWidget (last : string) : Host :=
  page "Color"
    [element "SPAN" [] "Color" [textNode "Color"];
     element "DIV" [] ""
       [button [("aria-pressed", "true")]%string "Red";
        button [] "Green";
        button [] "Blue";
        button [] "Yellow";
        button [] last]].

Definition sentence : string :=
  "The quick brown fox jumps over the lazy dog near the quiet river bank while the evening sun sets behind the distant blue hills".

(** An [<article>] of three paragraphs, the first of 126 characters. *)
Definition articlePage : Host :=
  page ""
    [element "ARTICLE" [] ""
       [element "P" [] sentence [textNode sentence];
        element "P" [] "Second paragraph" [textNode "Second paragraph"];
        element "P" [] "Third paragraph" [textNode "Third paragraph"]]].

Definition listItem (s : string) : Node := element "LI" [] s [textNode s].

(** Two lists of three items each. *)
Definition twoLists : Host :=
  page ""
    [element "UL" [] "" [listItem "a"; listItem "b"; listItem "c"];
     element "UL" [] "" [listItem "d"; listItem "e"; listItem "f"]].



(** A line that does not start with [#] and has the fingerprint of the
    heading [# A]: a middle dot is stripped from fingerprints only. *)
Definition dottedLine : jsstring := MIDDOT :: lit "# A".

(** Nine different candidates. *)
Definition nineLines : list jsstring :=
  List.map lit ["l1"; "l2"; "l3"; "l4"; "l5"; "l6"; "l7"; "l8"; "l9"]%string.

(** [<p>s</p>] *)
Definition paragraphOf (s : jsstring) : Node :=
  ElementNode
    {| tagName := lit "P";
       attributes := [];
       innerText := s;
       computedStyle := VISIBLE;
       currentSrc := [];
       src := [];
       hrefProperty := [] |}
    [TextNode s].

(** Nine different sentences. *)
Definition nineSentences : list jsstring :=
  List.map (fun k => lit sentence ++ lit " " ++ lit k)
    ["1"; "2"; "3"; "4"; "5"; "6"; "7"; "8"; "9"]%string.

(** [<p>·# A</p><h1>A</h1>], nine paragraphs of one sentence each, and
    [<p>·# A</p>] again. *)
Definition repeatedLine : Host :=
  page ""
    ([paragraphOf dottedLine; element "H1" [] "A" [textNode "A"]]
     ++ List.map paragraphOf nineSentences
     ++ [paragraphOf dottedLine]).

(** * Properties *)

(** ** The order of numbers *)

Lemma Qle_bool_true (p q : Qc) : Qle_bool p q = true ↔ (p ≤ q)%Qc.
Proof. apply Qle_bool_iff. Qed.

Lemma Qle_bool_false (p q : Qc) : Qle_bool p q = false ↔ (q < p)%Qc.
Proof.
  rewrite <- not_true_iff_false, Qle_bool_true. split.
  - apply Qcnot_le_lt.
  - apply Qclt_not_le.
Qed.

(** Turns the tests of the goal and of the hypotheses into statements
    about the order of the rationals. *)
Ltac to_order :=
  repeat match goal with
    | H : Qle_bool _ _ = true |- _ => apply Qle_bool_true in H
    | H : Qle_bool _ _ = false |- _ => apply Qle_bool_false in H
    | H : negb _ = true |- _ => apply negb_true_iff in H
    | H : negb _ = false |- _ => apply negb_false_iff in H
    | |- negb _ = true => apply negb_true_iff
    | |- negb _ = false => apply negb_false_iff
    | |- Qle_bool _ _ = true => apply Qle_bool_true
    | |- Qle_bool _ _ = false => apply Qle_bool_false
    end.

Lemma atMost_trans x y z : atMost x y = true → atMost y z = true → atMost x z = true.
Proof.
  destruct x, y, z; simpl; try done. intros. to_order. by eapply Qcle_trans.
Qed.

Lemma lessThan_atMost_trans x y z :
  lessThan x y = true → atMost y z = true → lessThan x z = true.
Proof.
  destruct x, y, z; simpl; try done. intros. to_order. by eapply Qclt_le_trans.
Qed.

Lemma atMost_lessThan_trans x y z :
  atMost x y = true → lessThan y z = true → lessThan x z = true.
Proof.
  destruct x, y, z; simpl; try done. intros. to_order. by eapply Qcle_lt_trans.
Qed.

Lemma lessThan_not_atMost x y : lessThan x y = true → atMost y x = false.
Proof. destruct x, y; simpl; try done. intros. by to_order. Qed.

Lemma atMost_not_lessThan x y : atMost x y = true → lessThan y x = false.
Proof. destruct x, y; simpl; try done. intros. by to_order. Qed.

(** Two finite numbers are always in order. *)
Lemma lessThan_Finite p q :
  lessThan (Finite p) (Finite q) = negb (atMost (Finite q) (Finite p)).
Proof. done. Qed.

Lemma atMost_ofNat n m : atMost (ofNat n) (ofNat m) = (n <=? m).
Proof.
  unfold ofNat, ofZ, atMost. apply eq_true_iff_eq.
  rewrite Qle_bool_true, <- Z2Qc_inj_le, Nat.leb_le. lia.
Qed.

Lemma lessThan_ofNat n m : lessThan (ofNat n) (ofNat m) = (n <? m).
Proof.
  unfold ofNat at 1 2, ofZ. rewrite lessThan_Finite.
  fold (ofZ (Z.of_nat n)) (ofZ (Z.of_nat m)). fold (ofNat n) (ofNat m).
  rewrite atMost_ofNat.
  destruct (m <=? n) eqn:H1, (n <? m) eqn:H2; simpl; try done.
  - apply Nat.leb_le in H1. apply Nat.ltb_lt in H2. lia.
  - apply Nat.leb_gt in H1. apply Nat.ltb_ge in H2. lia.
Qed.

(** A bound that a count has reached stays reached as the count grows. *)
Lemma atMost_grows x n m : atMost x (ofNat n) = true → n ≤ m → atMost x (ofNat m) = true.
Proof.
  intros Hx Hnm. eapply atMost_trans; [exact Hx|].
  rewrite atMost_ofNat. by apply Nat.leb_le.
Qed.

Lemma lessThan_grows x n m :
  lessThan x (ofNat n) = true → n ≤ m → lessThan x (ofNat m) = true.
Proof.
  intros Hx Hnm. eapply lessThan_atMost_trans; [exact Hx|].
  rewrite atMost_ofNat. by apply Nat.leb_le.
Qed.

Lemma atMost_shrinks x n m : atMost (ofNat n) x = true → m ≤ n → atMost (ofNat m) x = true.
Proof.
  intros Hx Hnm. eapply atMost_trans; [|exact Hx].
  rewrite atMost_ofNat. by apply Nat.leb_le.
Qed.

Lemma lessThan_shrinks x n m :
  lessThan (ofNat n) x = true → m ≤ n → lessThan (ofNat m) x = true.
Proof.
  intros Hx Hnm. eapply atMost_lessThan_trans; [|exact Hx].
  rewrite atMost_ofNat. by apply Nat.leb_le.
Qed.

Lemma atMost_ofZ a b : atMost (ofZ a) (ofZ b) = (a <=? b)%Z.
Proof.
  unfold ofZ, atMost. apply eq_true_iff_eq.
  by rewrite Qle_bool_true, <- Z2Qc_inj_le, Z.leb_le.
Qed.

Lemma lessThan_ofZ a b : lessThan (ofZ a) (ofZ b) = (a <? b)%Z.
Proof.
  unfold ofZ. rewrite lessThan_Finite. fold (ofZ a) (ofZ b). rewrite atMost_ofZ.
  destruct (b <=? a)%Z eqn:H1, (a <? b)%Z eqn:H2; simpl; try done.
  - apply Z.leb_le in H1. apply Z.ltb_lt in H2. lia.
  - apply Z.leb_gt in H1. apply Z.ltb_ge in H2. lia.
Qed.

Lemma mathMax_ofZ a b : mathMax (ofZ a) (ofZ b) = ofZ (Z.max a b).
Proof.
  unfold mathMax. cbn [ofZ]. fold (ofZ a) (ofZ b). rewrite lessThan_ofZ.
  destruct (a <? b)%Z eqn:H.
  - apply Z.ltb_lt in H. by rewrite Z.max_r by lia.
  - apply Z.ltb_ge in H. by rewrite Z.max_l by lia.
Qed.

(** The whole part of [q - 1], for [q] of 1 at least. *)
Lemma floor_pred (q : Qc) :
  (1 ≤ q)%Qc →
  truncate (q - 1)%Qc = Qfloor (q - 1)%Qc
  ∧ (0 <= Qfloor (q - 1)%Qc)%Z
  ∧ (Qc_of_Z (Qfloor (q - 1)%Qc + 1) ≤ q)%Qc.
Proof.
  intros Hq.
  assert (0 ≤ q - 1)%Qc as H0 by (by apply Qcle_minus_iff in Hq).
  split; [|split].
  - unfold truncate.
    by replace (Qle_bool 0 (q - 1)%Qc) with true
      by (symmetry; apply (Qle_bool_true 0%Qc (q - 1)%Qc), H0).
  - apply (Qfloor_resp_le 0%Qc (q - 1)%Qc H0).
  - rewrite Z2Qc_inj_add, Z2Qc_inj_1.
    replace q with (q - 1 + 1)%Qc at 2 by ring.
    apply Qcplus_le_compat; [|apply Qcle_refl].
    apply (Qfloor_le (q - 1)%Qc).
Qed.

Lemma truncate_ofZ z : truncate (Qc_of_Z z) = z.
Proof.
  unfold truncate. destruct (Qle_bool 0 (Qc_of_Z z)).
  - apply Qfloor_Z.
  - apply Qceiling_Z.
Qed.

Lemma minus_ofZ a b : minus (ofZ a) (ofZ b) = ofZ (a - b).
Proof. unfold ofZ. simpl. by rewrite Z2Qc_inj_sub. Qed.

Lemma isWhole_ofZ z : isWhole (Qc_of_Z z) = true.
Proof.
  unfold isWhole. apply Qle_bool_iff. unfold Qc_of_Z. cbn [this].
  rewrite Qfloor_Z. apply Qle_refl.
Qed.

Lemma atMost_refl q : atMost (Finite q) (Finite q) = true.
Proof. apply Qle_bool_true, Qcle_refl. Qed.

(** [Math.max] of a bound and a number that is not [NaN] is the larger. *)
Lemma mathMax_bound lo x :
  x ≠ NaN → atMost (ofZ lo) (mathMax (ofZ lo) x) = true
            ∧ atMost x (mathMax (ofZ lo) x) = true
            ∧ (mathMax (ofZ lo) x = ofZ lo ∨ mathMax (ofZ lo) x = x).
Proof.
  intros Hx. unfold ofZ. destruct x as [| | |q]; try done.
  - by split; [|split; [|right]].
  - split; [apply atMost_refl|]. by split; [|left].
  - unfold mathMax. rewrite lessThan_Finite.
    destruct (atMost (Finite q) (Finite (Qc_of_Z lo))) eqn:Hq; cbn [negb].
    + split; [apply atMost_refl|]. by split; [|left].
    + split; [|split; [apply atMost_refl|by right]].
      unfold atMost in *. to_order. by apply Qclt_le_weak.
Qed.

Lemma mathMax_NaN lo x : mathMax (ofZ lo) x = NaN ↔ x = NaN.
Proof.
  unfold ofZ. destruct x as [| | |q]; try done.
  unfold mathMax. by destruct (lessThan _ _).
Qed.

Section Properties.
Context `{rt : JsRuntime}.
Implicit Types (cfg : Config) (st : State) (line : jsstring).

(** ** The emission engine, one call at a time *)

(** The text that a candidate line is reduced to before any test. *)
Lemma addLine_unfold cfg line linkRef st :
  let cleaned := normalizeBullets (cleanText line) in
  let fp := fingerprintLine cleaned in
  (addLine cfg line linkRef st).2 =
    if truncated st then st
    else if shellMode st && (shellRemaining st <=? 0)%Z then st
    else if negb (truthy cleaned) then st
    else if dedupeEnabled cfg && negb (startsWith cleaned (lit "#"))
            && bool_decide (fp ∈ fingerprintSet st) then st
    else if reaches (itemCount st) (maxItems cfg) then setTruncated st
    else
      let st1 := pushLine (trimLine cfg (decorateLine cleaned linkRef)) st in
      if dedupeEnabled cfg then rememberFingerprint cfg fp st1 else st1.
Proof.
  unfold addLine; simpl.
  repeat (match goal with |- context [if ?b then _ else _] => destruct b end; simpl; try reflexivity).
Qed.

(** A call either changes nothing, or sets the flag, or appends one line. *)
Lemma addLine_cases cfg line linkRef st :
  let cleaned := normalizeBullets (cleanText line) in
  let fp := fingerprintLine cleaned in
  let st' := (addLine cfg line linkRef st).2 in
  st' = st
  ∨ (truncated st = false ∧ reaches (itemCount st) (maxItems cfg) = true
     ∧ st' = setTruncated st)
  ∨ (truncated st = false ∧ reaches (itemCount st) (maxItems cfg) = false
     ∧ truthy cleaned = true
     ∧ st' = (if dedupeEnabled cfg then rememberFingerprint cfg fp else id)
               (pushLine (trimLine cfg (decorateLine cleaned linkRef)) st)).
Proof.
  intros cleaned fp st'. subst st'. rewrite addLine_unfold. fold cleaned; fold fp.
  destruct (truncated st); [by left|].
  destruct (shellMode st && _); [by left|].
  destruct (truthy cleaned); simpl; [|by left].
  destruct (dedupeEnabled cfg && _ && _); [by left|].
  destruct (reaches _ _); [right; by left|].
  right; right. by destruct (dedupeEnabled cfg).
Qed.

Lemma rememberFingerprint_fields cfg fp st :
  let st' := rememberFingerprint cfg fp st in
  itemCount st' = itemCount st ∧ truncated st' = truncated st ∧ lines st' = lines st
  ∧ linkMap st' = linkMap st ∧ linkList st' = linkList st
  ∧ linkCounter st' = linkCounter st
  ∧ shellMode st' = shellMode st ∧ shellRemaining st' = shellRemaining st
  ∧ walkMode st' = walkMode st.
Proof.
  unfold rememberFingerprint.
  destruct (lessThan (dedupeWindow cfg) _); [destruct (fingerprintWindow st ++ [fp])|]; done.
Qed.

(** [registerLink] touches nothing but the link registry. *)
Lemma registerLink_fields url st :
  let st' := (registerLink url st).2 in
  itemCount st' = itemCount st ∧ truncated st' = truncated st ∧ lines st' = lines st
  ∧ fingerprintWindow st' = fingerprintWindow st
  ∧ fingerprintSet st' = fingerprintSet st
  ∧ shellMode st' = shellMode st ∧ shellRemaining st' = shellRemaining st
  ∧ walkMode st' = walkMode st.
Proof.
  unfold registerLink, bind, gets, ret, allocateLink.
  destruct (rejectedUrl _); simpl; [done|].
  destruct (linkMap st !! _) as [r|]; [destruct (truthy r)|]; done.
Qed.

(** [addLine] touches nothing of the link registry nor the walk mode. *)
Lemma addLine_link_fields cfg line linkRef st :
  let st' := (addLine cfg line linkRef st).2 in
  linkMap st' = linkMap st ∧ linkList st' = linkList st
  ∧ linkCounter st' = linkCounter st
  ∧ shellMode st' = shellMode st ∧ walkMode st' = walkMode st.
Proof.
  cbv zeta.
  destruct (addLine_cases cfg line linkRef st) as [->|[(_ & _ & ->)|(_ & _ & _ & ->)]];
    [done|done|].
  destruct (dedupeEnabled cfg); [|done].
  destruct (rememberFingerprint_fields cfg
              (fingerprintLine (normalizeBullets (cleanText line)))
              (pushLine (trimLine cfg
                 (decorateLine (normalizeBullets (cleanText line)) linkRef)) st))
    as (_ & _ & _ & -> & -> & -> & -> & _ & ->).
  done.
Qed.

(** ** Every function of the closure runs by steps *)

Definition Steps cfg {A} (m : M A) : Prop := ∀ st, rtc (step cfg) st (m st).2.

Lemma Steps_ret cfg {A} (a : A) : Steps cfg (ret a).
Proof. intros st. apply rtc_refl. Qed.

Lemma Steps_gets cfg {A} (f : State -> A) : Steps cfg (gets f).
Proof. intros st. apply rtc_refl. Qed.

Lemma Steps_bind cfg {A B} (m : M A) (k : A -> M B) :
  Steps cfg m → (∀ a, Steps cfg (k a)) → Steps cfg (bind m k).
Proof.
  intros Hm Hk st. unfold bind. specialize (Hm st).
  destruct (m st) as [a st1]. simpl in Hm.
  eapply rtc_trans; [exact Hm|apply Hk].
Qed.

Lemma Steps_addLine cfg line linkRef : Steps cfg (addLine cfg line linkRef).
Proof. intros st. apply rtc_once, step_addLine. Qed.

Lemma Steps_registerLink cfg url : Steps cfg (registerLink url).
Proof. intros st. apply rtc_once, step_registerLink. Qed.

Lemma Steps_setMode cfg (sm : State -> bool) (sr : State -> Z) (wm : State -> WalkMode) :
  Steps cfg (modify (fun st => setMode (sm st) (sr st) (wm st) st)).
Proof. intros st. apply rtc_once, step_setMode. Qed.

Lemma Steps_forEach cfg {A} (xs : list A) (body : A -> M unit) :
  (∀ x, Steps cfg (body x)) → Steps cfg (forEach xs body).
Proof.
  intros Hb. induction xs as [|x xs IH]; simpl; [apply Steps_ret|].
  apply Steps_bind; [apply Hb|intros _; exact IH].
Qed.

Lemma Steps_forEachUntilTruncated cfg {A} (xs : list A) (body : A -> M unit) :
  (∀ x, Steps cfg (body x)) → Steps cfg (forEachUntilTruncated xs body).
Proof.
  intros Hb. induction xs as [|x xs IH]; simpl; [apply Steps_ret|].
  apply Steps_bind; [apply Hb|intros _].
  apply Steps_bind; [apply Steps_gets|intros []; [apply Steps_ret|exact IH]].
Qed.

Lemma Steps_forEachWhileOpen cfg {A} (xs : list A) (body : A -> M unit) :
  (∀ x, Steps cfg (body x)) → Steps cfg (forEachWhileOpen xs body).
Proof.
  intros Hb. induction xs as [|x xs IH]; simpl; [apply Steps_ret|].
  apply Steps_bind; [apply Steps_gets|intros []; [apply Steps_ret|]].
  apply Steps_bind; [apply Hb|intros _; exact IH].
Qed.

Create HintDb steps discriminated.

Hint Resolve Steps_ret Steps_gets Steps_addLine Steps_registerLink Steps_setMode : steps.

(** Splits a computation into its parts, down to those known to run by steps. *)
Ltac by_steps :=
  repeat first
    [ progress (cbv zeta)
    | solve [eauto 2 with steps]
    | apply Steps_bind; [|intros ?]
    | apply Steps_forEach; intros ?
    | apply Steps_forEachUntilTruncated; intros ?
    | apply Steps_forEachWhileOpen; intros ?
    | match goal with
      | |- Steps _ (if ?b then _ else _) => destruct b
      | |- Steps _ (match ?o with _ => _ end) => destruct o
      end ].

Lemma Node_nested_ind (P : Node -> Prop) :
  (∀ data, P (TextNode data)) → P OtherNode →
  (∀ e kids, Forall P kids → P (ElementNode e kids)) →
  ∀ n, P n.
Proof.
  intros Htext Hother Helem. fix IH 1.
  intros [data| |e kids]; [apply Htext|apply Hother|].
  apply Helem. induction kids as [|k ks IHks]; constructor; [apply IH|apply IHks].
Qed.

Lemma Steps_emitHiddenHeading cfg el : Steps cfg (emitHiddenHeading cfg el).
Proof. unfold emitHiddenHeading. by_steps. Qed.

Lemma Steps_shouldSkip cfg doc rs srs el : Steps cfg (shouldSkip cfg doc rs srs el).
Proof. unfold shouldSkip. by_steps. Qed.

Lemma Steps_getLinkRef cfg el : Steps cfg (getLinkRef cfg el).
Proof. unfold getLinkRef. by_steps. Qed.

Hint Resolve Steps_emitHiddenHeading Steps_shouldSkip Steps_getLinkRef : steps.

Lemma Steps_collectInlineText cfg n : ∀ p, Steps cfg (collectInlineText cfg p n).
Proof.
  induction n as [data| |e kids IH] using Node_nested_ind; intros p; simpl;
    [apply Steps_ret|apply Steps_ret|].
  apply Steps_bind; [|intros ?; apply Steps_ret].
  generalize 0 as i.
  induction IH as [|k ks Hk _ IHks]; intros i; [apply Steps_ret|].
  apply Steps_bind; [|intros ?; apply Steps_bind; [apply IHks|intros ?; apply Steps_ret]].
  destruct k as [data| |ce ckids]; [apply Steps_ret|apply Steps_ret|].
  by_steps.
Qed.

Hint Resolve Steps_collectInlineText : steps.

Lemma Steps_extractInlineText cfg el : Steps cfg (extractInlineText cfg el).
Proof. unfold extractInlineText. by_steps. Qed.

Hint Resolve Steps_extractInlineText : steps.

Lemma Steps_firstLabel cfg eligible limit cands :
  Steps cfg (firstLabel cfg eligible limit cands).
Proof. induction cands as [|c rest IH]; simpl; by_steps. Qed.

Hint Resolve Steps_firstLabel : steps.

Lemma Steps_findGroupLabel cfg doc el : Steps cfg (findGroupLabel cfg doc el).
Proof. unfold findGroupLabel. by_steps. Qed.

Lemma Steps_extractTexts cfg nodes : Steps cfg (extractTexts cfg nodes).
Proof. induction nodes as [|n rest IH]; simpl; by_steps. Qed.

Hint Resolve Steps_findGroupLabel Steps_extractTexts : steps.

Lemma Steps_extractFilterGroup cfg doc rs el :
  Steps cfg (extractFilterGroup cfg doc rs el).
Proof. unfold extractFilterGroup. by_steps. Qed.

Hint Resolve Steps_extractFilterGroup : steps.

Lemma Steps_handleList cfg walk el depth listDepth :
  (∀ item d l, Steps cfg (walk item d l)) →
  Steps cfg (handleList cfg walk el depth listDepth).
Proof. intros Hw. unfold handleList. by_steps. Qed.

Lemma Steps_walk cfg doc rs srs fuel :
  ∀ el depth listDepth, Steps cfg (walk cfg doc rs srs fuel el depth listDepth).
Proof.
  induction fuel as [|fuel IH]; intros el depth listDepth; simpl; [apply Steps_ret|].
  by_steps; try apply IH; apply Steps_handleList, IH.
Qed.

Hint Resolve Steps_walk : steps.

Lemma Steps_shellPass cfg doc rs srs shellRoots :
  Steps cfg (shellPass cfg doc rs srs shellRoots).
Proof.
  unfold shellPass, withShellMode. by_steps.
Qed.

Lemma Steps_mainPass cfg doc rs srs roots : Steps cfg (mainPass cfg doc rs srs roots).
Proof. unfold mainPass. by_steps. Qed.

Lemma Steps_registerAnchor anchor cfg : Steps cfg (registerAnchor anchor).
Proof. unfold registerAnchor. by_steps. Qed.

Hint Resolve Steps_registerAnchor : steps.

Lemma Steps_sweepShellAnchors cfg base anchors :
  Steps cfg (sweepShellAnchors base anchors).
Proof. induction anchors as [|a rest IH]; simpl; by_steps. Qed.

Hint Resolve Steps_sweepShellAnchors : steps.

Lemma Steps_sweepShellRoots cfg base rs : Steps cfg (sweepShellRoots base rs).
Proof. induction rs as [|r rest IH]; simpl; by_steps. Qed.

Hint Resolve Steps_sweepShellRoots : steps.

Lemma Steps_linkSweep cfg roots shellRoots : Steps cfg (linkSweep cfg roots shellRoots).
Proof. unfold linkSweep. by_steps. Qed.

Lemma Steps_addNodeLine cfg node : Steps cfg (addNodeLine cfg node).
Proof. unfold addNodeLine. by_steps. Qed.

Hint Resolve Steps_addNodeLine : steps.

Lemma Steps_fallbackRoot cfg root : Steps cfg (fallbackRoot cfg root).
Proof. unfold fallbackRoot. by_steps. Qed.

Hint Resolve Steps_fallbackRoot : steps.

Lemma Steps_fallbackPass cfg roots : Steps cfg (fallbackPass cfg roots).
Proof. unfold fallbackPass. by_steps. Qed.

Lemma Steps_linkTable cfg : Steps cfg (linkTable cfg).
Proof. unfold linkTable. by_steps. Qed.

Hint Resolve Steps_shellPass Steps_mainPass Steps_linkSweep Steps_fallbackPass
  Steps_linkTable : steps.

Lemma Steps_extraction cfg doc rs srs roots shellRoots :
  Steps cfg (extraction cfg doc rs srs roots shellRoots).
Proof. unfold extraction. by_steps. Qed.

(** The state that a call ends in is one that steps lead to. *)
Lemma finalState_reachable cfg doc roots shellRoots :
  reachable cfg (finalState cfg doc roots shellRoots).
Proof. apply Steps_extraction. Qed.

(** ** The item budget *)

(** Every line is an item; the count is at most every whole number that
    has reached the cap; and when the flag is set the count has reached the
    cap itself: it is then the least whole number that [maxItems] does not
    exceed. *)
Definition budgetInv cfg st : Prop :=
  length (lines st) = itemCount st
  ∧ (∀ m, reaches m (maxItems cfg) = true → itemCount st ≤ m)
  ∧ (truncated st = true → reaches (itemCount st) (maxItems cfg) = true).

Lemma reaches_ofNat n m : reaches n (ofNat m) = (m <=? n).
Proof. apply atMost_ofNat. Qed.

Lemma reaches_grows n m budget :
  reaches n budget = true → n ≤ m → reaches m budget = true.
Proof. apply atMost_grows. Qed.

(** A budget that is not a number, or is unbounded, is never reached. *)
Lemma reaches_never n budget :
  budget = NaN ∨ budget = PosInfinity → reaches n budget = false.
Proof. by intros [-> | ->]. Qed.

(** A whole number that the option does not exceed, and that is 1 at
    least, has reached the cap that the option resolves to. *)
Lemma reaches_clamped lo x m :
  atMost x (ofNat m) = true → (lo <= Z.of_nat m)%Z →
  reaches m (mathMax (ofZ lo) x) = true.
Proof.
  intros Hx Hlo. assert (x ≠ NaN) as Hnan by (by intros ->).
  destruct (mathMax_bound lo x Hnan) as (_ & _ & [-> | ->]); [|exact Hx].
  unfold reaches, ofNat, ofZ, atMost. apply Qle_bool_true.
  apply Z2Qc_inj_le in Hlo. exact Hlo.
Qed.

Lemma step_budgetInv cfg st st' : step cfg st st' → budgetInv cfg st → budgetInv cfg st'.
Proof.
  intros Hstep (Hlen & Hcap & Hflag). destruct Hstep as [line linkRef st|url st|sm sr wm st].
  - destruct (addLine_cases cfg line linkRef st)
      as [->|[(Ht & Hr & ->)|(Ht & Hr & _ & ->)]]; [done| |].
    + split; [exact Hlen|]. split; [exact Hcap|]. by intros _.
    + assert (budgetInv cfg (pushLine (trimLine cfg
                (decorateLine (normalizeBullets (cleanText line)) linkRef)) st)) as Hpush.
      { repeat split; simpl.
        - rewrite length_app. simpl. lia.
        - intros m Hm. pose proof (Hcap m Hm).
          assert (m ≠ itemCount st) by (intros ->; congruence). lia.
        - by rewrite Ht. }
      destruct (dedupeEnabled cfg); [|exact Hpush].
      unfold budgetInv.
      destruct (rememberFingerprint_fields cfg
                  (fingerprintLine (normalizeBullets (cleanText line)))
                  (pushLine (trimLine cfg
                     (decorateLine (normalizeBullets (cleanText line)) linkRef)) st))
        as (-> & -> & -> & _).
      exact Hpush.
  - unfold budgetInv.
    destruct (registerLink_fields url st) as (-> & -> & -> & _). done.
  - done.
Qed.

Lemma reachable_budgetInv cfg st : reachable cfg st → budgetInv cfg st.
Proof.
  revert st. apply rtc_ind_r.
  - repeat split; simpl; [lia|done].
  - intros st st' _ Hstep IH. by eapply step_budgetInv.
Qed.

(** Once the flag is set, steps leave the flag, the lines and the count alone. *)
Lemma step_frozen cfg st st' :
  step cfg st st' → truncated st = true →
  truncated st' = true ∧ lines st' = lines st ∧ itemCount st' = itemCount st.
Proof.
  intros [line linkRef st0|url st0|sm sr wm st0] Ht.
  - rewrite addLine_unfold, Ht. done.
  - destruct (registerLink_fields url st0) as (-> & -> & -> & _). done.
  - done.
Qed.

Lemma steps_frozen cfg st st' :
  rtc (step cfg) st st' → truncated st = true →
  truncated st' = true ∧ lines st' = lines st ∧ itemCount st' = itemCount st.
Proof.
  induction 1 as [|st st1 st2 Hstep _ IH]; [done|]. intros Ht.
  destruct (step_frozen _ _ _ Hstep Ht) as (Ht1 & <- & <-). by apply IH.
Qed.

Lemma getReadableText_final host opts r :
  getReadableText host opts = Some r →
  ∃ cfg doc roots shellRoots,
    selectRoots host opts = Some (cfg, doc, roots, shellRoots)
    ∧ r = assemble cfg (finalState cfg doc roots shellRoots).
Proof.
  unfold getReadableText.
  destruct (selectRoots host opts) as [[[[cfg doc] roots] shellRoots]|]; [|done].
  intros [= <-]. by exists cfg, doc, roots, shellRoots.
Qed.

(** The root selector changes no constant but [maxLineLength]. *)
Lemma selectRoots_config host opts cfg doc roots shellRoots :
  selectRoots host opts = Some (cfg, doc, roots, shellRoots) →
  cfg = resolve opts ∨ cfg = widenForArticle (resolve opts).
Proof.
  unfold selectRoots. destruct (document host) as [d|]; [|intros [= <-]; by left].
  destruct (if truthy _ then _ else _) as [chosen|]; [|done].
  destruct chosen as [|c chosen'].
  - unfold defaultRoots. destruct (bestArticle d).
    + intros [= <-]; by right.
    + destruct (bestLandmark d); intros [= <-]; by left.
  - intros [= <-]; by left.
Qed.

(** C1, as the code has it.  [maxItems] is a number and need not be whole:
    the count of emitted items never exceeds a whole number that
    [maxItems] (once clamped to 1 at least) does not exceed, in the result of
    every call and in every state a call goes through; so it never exceeds
    a whole [maxItems] of 1 or more, and it stays below [maxItems + 1]
    otherwise.  The flag [truncated] is set by the budget test of
    [addLine] and by nothing else: a candidate that has passed the other
    tests when the count has reached the cap sets it and is not appended;
    the count is then the least whole number that the cap does not
    exceed.  Once the flag is set no line is appended any more, by whatever
    the closure then does; in particular not by the fallback pass nor by
    the link table. *)
Theorem item_budget_respected (host : Host) (opts : ReadableOptions) (r : Result.t) :
  getReadableText host opts = Some r →
  (∀ m, atMost (maxItems (resolve opts)) (ofNat m) = true → Stats.items (Result.stats r) ≤ m)
  ∧ (∀ x m, o_maxItems opts = Some x → atMost x (ofNat m) = true → 1 ≤ m →
       Stats.items (Result.stats r) ≤ m)
  ∧ Stats.lines (Result.stats r) = Stats.items (Result.stats r)
  ∧ (Result.truncated r = true →
     atMost (maxItems (resolve opts)) (ofNat (Stats.items (Result.stats r))) = true)
  ∧ (∀ cfg st, reachable cfg st →
       (∀ m, atMost (maxItems cfg) (ofNat m) = true → itemCount st ≤ m)
       ∧ (truncated st = true → atMost (maxItems cfg) (ofNat (itemCount st)) = true))
  ∧ (∀ cfg line linkRef st,
       let cleaned := normalizeBullets (cleanText line) in
       let st' := (addLine cfg line linkRef st).2 in
       (truncated st = false →
        (shellMode st && (shellRemaining st <=? 0)%Z) = false →
        truthy cleaned = true →
        (dedupeEnabled cfg && negb (startsWith cleaned (lit "#"))
         && bool_decide (fingerprintLine cleaned ∈ fingerprintSet st)) = false →
        reaches (itemCount st) (maxItems cfg) = true →
        truncated st' = true ∧ lines st' = lines st ∧ itemCount st' = itemCount st)
       ∧ (truncated st = false → truncated st' = true →
          reaches (itemCount st) (maxItems cfg) = true ∧ st' = setTruncated st))
  ∧ (∀ cfg st st', step cfg st st' → truncated st = false → truncated st' = true →
       ∃ line linkRef, st' = (addLine cfg line linkRef st).2)
  ∧ (∀ cfg st st', rtc (step cfg) st st' → truncated st = true →
       truncated st' = true ∧ lines st' = lines st ∧ itemCount st' = itemCount st)
  ∧ (∀ cfg roots st, truncated st = true →
       lines (fallbackPass cfg roots st).2 = lines st
       ∧ lines (linkTable cfg st).2 = lines st).
Proof.
  intros Hr. apply getReadableText_final in Hr as (cfg & doc & roots & shellRoots & Hsel & ->).
  assert (maxItems cfg = maxItems (resolve opts)) as Hmax.
  { by destruct (selectRoots_config _ _ _ _ _ _ Hsel) as [->| ->]. }
  destruct (reachable_budgetInv cfg _ (finalState_reachable cfg doc roots shellRoots))
    as (Hlen & Hcap & Hflag).
  rewrite <- Hmax.
  split; [exact Hcap|]. split; [|split; [exact Hlen|split; [exact Hflag|]]].
  { intros x m Hx Hle Hm. apply Hcap. rewrite Hmax. cbn [resolve maxItems].
    rewrite Hx. cbn [clampOpt]. apply reaches_clamped; [exact Hle|lia]. }
  clear Hlen Hcap Hflag Hmax.
  split; [|split; [|split; [|split]]].
  - intros cfg0 st Hst. destruct (reachable_budgetInv cfg0 st Hst) as (_ & ? & ?). done.
  - intros cfg0 line linkRef st cleaned st'. subst st'.
    rewrite addLine_unfold. fold cleaned. split.
    + intros -> -> -> -> ->. done.
    + intros Hf. rewrite Hf.
      destruct (shellMode st && _); [congruence|].
      destruct (truthy cleaned); simpl; [|congruence].
      destruct (dedupeEnabled cfg0 && _ && _); [congruence|].
      destruct (reaches _ _); [done|].
      destruct (dedupeEnabled cfg0); [|simpl; congruence].
      destruct (rememberFingerprint_fields cfg0 (fingerprintLine cleaned)
                  (pushLine (trimLine cfg0 (decorateLine cleaned linkRef)) st))
        as (_ & -> & _).
      simpl. congruence.
  - intros cfg0 st st' [line linkRef st0|url st0|sm sr wm st0] Hf Ht.
    + by exists line, linkRef.
    + destruct (registerLink_fields url st0) as (_ & Heq & _). congruence.
    + simpl in Ht. congruence.
  - intros cfg0 st st'. apply steps_frozen.
  - intros cfg0 roots0 st Ht. split.
    + by destruct (steps_frozen cfg0 _ _ (Steps_fallbackPass cfg0 roots0 st) Ht) as (_ & ? & _).
    + by destruct (steps_frozen cfg0 _ _ (Steps_linkTable cfg0 st) Ht) as (_ & ? & _).
Qed.

(** ** The link registry *)

Lemma digitsValue_acc d acc :
  fold_left (fun a c => 10 * a + N.to_nat (c - 48)%N) (uintUnits d) acc
  = Nat.of_uint_acc d acc.
Proof.
  revert acc. induction d; intros acc; simpl; rewrite ?Nat.tail_mul_spec, ?IHd;
    first [reflexivity | f_equal; lia].
Qed.

Lemma digitsValue_decimal n : digitsValue (decimal n) = n.
Proof.
  unfold digitsValue, decimal. rewrite digitsValue_acc.
  apply DecimalNat.Unsigned.of_to.
Qed.

Lemma referenceNumber_allocated n : referenceNumber (lit "L" ++ decimal n) = n.
Proof. unfold referenceNumber. simpl. apply digitsValue_decimal. Qed.

Lemma decimal_inj n m : decimal n = decimal m → n = m.
Proof. intros H. by rewrite <- (digitsValue_decimal n), H, digitsValue_decimal. Qed.

Lemma decimal_truthy n : truthy (lit "L" ++ decimal n) = true.
Proof. done. Qed.

(** The registry as the steps of a call keep it: the counter is the length
    of the list, the [k]-th entry (from 0) carries the reference [L(k+1)],
    the map holds exactly the entries of the list, and no URL is listed
    twice. *)
Definition linkInv st : Prop :=
  linkCounter st = length (linkList st)
  ∧ (∀ k e, linkList st !! k = Some e → ref e = lit "L" ++ decimal (k + 1))
  ∧ (∀ url r, linkMap st !! url = Some r ↔ {| ref := r; href := url |} ∈ linkList st)
  ∧ NoDup (List.map href (linkList st)).

(** What [registerLink] does in a state where the registry is as above. *)
Lemma registerLink_spec url st :
  linkInv st →
  let trimmed := trim url in
  if rejectedUrl trimmed then registerLink url st = (None, st)
  else
    match linkMap st !! trimmed with
    | Some r => registerLink url st = (Some (lit "@" ++ r), st)
    | None =>
        let r := lit "L" ++ decimal (length (linkList st) + 1) in
        registerLink url st =
          (Some (lit "@" ++ r),
           setLinks (<[trimmed := r]> (linkMap st))
             (linkList st ++ [{| ref := r; href := trimmed |}])
             (length (linkList st) + 1) st)
    end.
Proof.
  intros (Hc & Href & Hmap & _) trimmed. unfold registerLink, bind, gets, ret.
  fold trimmed. destruct (rejectedUrl trimmed); [done|].
  destruct (linkMap st !! trimmed) as [r|] eqn:Hl.
  - apply Hmap in Hl. apply list_elem_of_lookup in Hl as [k Hk].
    apply Href in Hk. simpl in Hk. rewrite Hk. done.
  - unfold allocateLink. rewrite Hc. done.
Qed.

Lemma registerLink_linkInv url st : linkInv st → linkInv (registerLink url st).2.
Proof.
  intros Hinv. pose proof (registerLink_spec url st Hinv) as Hspec. cbv zeta in Hspec.
  destruct (rejectedUrl (trim url)); [by rewrite Hspec|].
  destruct (linkMap st !! trim url) as [r|] eqn:Hl; rewrite Hspec; [done|].
  destruct Hinv as (Hc & Href & Hmap & Hnd). unfold linkInv. simpl.
  split; [by rewrite length_app; simpl|]. split; [|split].
  - intros k e Hk. apply lookup_app_Some in Hk as [Hk|[Hge Hk]]; [by apply Href|].
    apply list_lookup_singleton_Some in Hk as [Hk <-]. simpl.
    by replace k with (length (linkList st)) by lia.
  - intros u r. rewrite elem_of_app, list_elem_of_singleton, <- Hmap.
    destruct (decide (trim url = u)) as [<-|Hne].
    + rewrite lookup_insert_eq, Hl. split.
      * intros [= <-]. by right.
      * intros [?|[= -> ]]; [done|done].
    + rewrite lookup_insert_ne by done. split; [by left|].
      intros [?|[= _ ?]]; [done|congruence].
  - rewrite List.map_app. simpl. apply NoDup_app. split; [done|]. split; [|apply NoDup_singleton].
    intros u Hu ->%list_elem_of_singleton.
    apply list_elem_of_In, in_map_iff in Hu as ([r u'] & Heq & Hin). simpl in Heq. subst u'.
    apply list_elem_of_In, Hmap in Hin. congruence.
Qed.

Lemma step_linkInv cfg st st' : step cfg st st' → linkInv st → linkInv st'.
Proof.
  intros [line linkRef st0|url st0|sm sr wm st0] Hinv.
  - unfold linkInv.
    destruct (addLine_link_fields cfg line linkRef st0) as (-> & -> & -> & _). done.
  - by apply registerLink_linkInv.
  - done.
Qed.

Lemma reachable_linkInv cfg st : reachable cfg st → linkInv st.
Proof.
  revert st. apply rtc_ind_r.
  - repeat split; simpl; try done.
    + by intros ?%elem_of_nil.
    + apply NoDup_nil_2.
  - intros st st' _ Hstep IH. by eapply step_linkInv.
Qed.

(** The list of links only grows, at its end. *)
Lemma step_linkList_prefix cfg st st' :
  step cfg st st' → linkInv st → linkList st `prefix_of` linkList st'.
Proof.
  intros [line linkRef st0|url st0|sm sr wm st0] Hinv.
  - by destruct (addLine_link_fields cfg line linkRef st0) as (_ & -> & _).
  - pose proof (registerLink_spec url st0 Hinv) as Hspec. cbv zeta in Hspec.
    destruct (rejectedUrl (trim url)); [by rewrite Hspec|].
    destruct (linkMap st0 !! trim url); rewrite Hspec; [done|].
    simpl. by apply prefix_app_r.
  - done.
Qed.

Lemma steps_linkList_prefix cfg st st' :
  rtc (step cfg) st st' → linkInv st → linkList st `prefix_of` linkList st'.
Proof.
  induction 1 as [|st st1 st2 Hstep _ IH]; [done|]. intros Hinv.
  etrans; [by eapply step_linkList_prefix|]. apply IH. by eapply step_linkInv.
Qed.

Lemma steps_linkInv cfg st st' : rtc (step cfg) st st' → linkInv st → linkInv st'.
Proof. induction 1; [done|]. intros. eauto using step_linkInv. Qed.

(** C6.  In every state of a call the link list holds, at position [k]
    (from 0), the reference [L(k+1)], so that the numbers of the references
    increase strictly along the list, and no URL twice.  Registering a URL
    that is not rejected returns [@] followed by the reference of the entry
    that then holds its trimmed form: the entry it had already, with the
    registry unchanged, or else a new last entry with the next number.
    Every later registration of the same URL in the call returns the same
    reference and changes nothing. *)
Theorem link_references_stable (cfg : Config) (st : State) :
  reachable cfg st →
  (∀ k e, linkList st !! k = Some e →
     ref e = lit "L" ++ decimal (k + 1) ∧ referenceNumber (ref e) = k + 1)
  ∧ (∀ i j ei ej, linkList st !! i = Some ei → linkList st !! j = Some ej →
       (i < j → referenceNumber (ref ei) < referenceNumber (ref ej))
       ∧ (href ei = href ej → i = j))
  ∧ (∀ url,
       let trimmed := trim url in
       let res := (registerLink url st).1 in
       let st' := (registerLink url st).2 in
       if rejectedUrl trimmed then res = None ∧ st' = st
       else
         ∃ k,
           res = Some (lit "@L" ++ decimal (k + 1))
           ∧ linkList st' !! k
               = Some {| ref := lit "L" ++ decimal (k + 1); href := trimmed |}
           ∧ (k < length (linkList st) → st' = st)
           ∧ (length (linkList st) <= k →
              k = length (linkList st)
              ∧ linkList st'
                  = linkList st ++ [{| ref := lit "L" ++ decimal (k + 1); href := trimmed |}])
           ∧ (∀ st'', rtc (step cfg) st' st'' →
                registerLink url st'' = (res, st''))).
Proof.
  intros Hreach. pose proof (reachable_linkInv cfg st Hreach) as Hinv.
  pose proof Hinv as (Hc & Href & Hmap & Hnd).
  split; [|split].
  - intros k e Hk. rewrite (Href k e Hk). split; [done|apply referenceNumber_allocated].
  - intros i j ei ej Hi Hj. split.
    + intros Hlt. rewrite (Href i ei Hi), (Href j ej Hj), !referenceNumber_allocated. lia.
    + intros Heq. eapply NoDup_lookup; [exact Hnd| |].
      * by rewrite list_lookup_fmap, Hi.
      * by rewrite list_lookup_fmap, Hj, Heq.
  - intros url trimmed res st'. subst res st'.
    pose proof (registerLink_spec url st Hinv) as Hspec. cbv zeta in Hspec. fold trimmed in Hspec.
    destruct (rejectedUrl trimmed) eqn:Hrej; [by rewrite Hspec|].
    assert (∀ r st1, linkInv st1 → linkMap st1 !! trimmed = Some r →
            ∀ st2, rtc (step cfg) st1 st2 →
            registerLink url st2 = (Some (lit "@" ++ r), st2)) as Hlater.
    { intros r st1 Hinv1 Hl st2 Hsteps.
      pose proof (steps_linkInv _ _ _ Hsteps Hinv1) as Hinv2.
      pose proof (registerLink_spec url st2 Hinv2) as Hspec2. cbv zeta in Hspec2.
      fold trimmed in Hspec2. rewrite Hrej in Hspec2.
      destruct (steps_linkList_prefix _ _ _ Hsteps Hinv1) as [ext Hext].
      destruct Hinv1 as (_ & _ & Hmap1 & _). destruct Hinv2 as (_ & _ & Hmap2 & _).
      apply Hmap1 in Hl.
      assert (linkMap st2 !! trimmed = Some r) as Hl2.
      { apply Hmap2. rewrite Hext. apply elem_of_app. by left. }
      by rewrite Hl2 in Hspec2. }
    destruct (linkMap st !! trimmed) as [r|] eqn:Hl.
    + pose proof Hl as Hin. apply Hmap in Hin. apply list_elem_of_lookup in Hin as [k Hk].
      pose proof (Href k _ Hk) as Hr. simpl in Hr. subst r.
      exists k. rewrite Hspec. simpl. split; [done|]. split; [done|]. split; [done|].
      split.
      * intros Hge. apply lookup_lt_Some in Hk. lia.
      * intros st'' Hsteps. by eapply Hlater.
    + exists (length (linkList st)). rewrite Hspec. simpl.
      split; [done|]. split.
      { rewrite lookup_app_r by lia. by rewrite Nat.sub_diag. }
      split; [lia|]. split; [done|].
      intros st'' Hsteps.
      pose proof (registerLink_linkInv url st Hinv) as Hinv'. rewrite Hspec in Hinv'.
      eapply (Hlater _ _ Hinv'); [|exact Hsteps]. simpl. apply lookup_insert_eq.
Qed.

(** ** Duplicate suppression *)

Lemma rememberFingerprint_window cfg fp st :
  fingerprintWindow (rememberFingerprint cfg fp st) =
    if lessThan (dedupeWindow cfg) (ofNat (length (fingerprintWindow st ++ [fp])))
    then drop 1 (fingerprintWindow st ++ [fp])
    else fingerprintWindow st ++ [fp].
Proof.
  unfold rememberFingerprint.
  destruct (lessThan (dedupeWindow cfg) _); [|done].
  by destruct (fingerprintWindow st ++ [fp]).
Qed.

Lemma rememberFingerprint_set cfg fp st :
  fingerprintSet (rememberFingerprint cfg fp st) =
    if lessThan (dedupeWindow cfg) (ofNat (length (fingerprintWindow st ++ [fp])))
    then match head (fingerprintWindow st ++ [fp]) with
         | Some removed =>
             if truthy removed then ({[fp]} ∪ fingerprintSet st) ∖ {[removed]}
             else {[fp]} ∪ fingerprintSet st
         | None => {[fp]} ∪ fingerprintSet st
         end
    else {[fp]} ∪ fingerprintSet st.
Proof.
  unfold rememberFingerprint.
  destruct (lessThan (dedupeWindow cfg) _); [|done].
  by destruct (fingerprintWindow st ++ [fp]).
Qed.

(** The state after a candidate has been appended. *)
Lemma addLine_emits cfg line linkRef st :
  let cleaned := normalizeBullets (cleanText line) in
  let fp := fingerprintLine cleaned in
  truncated st = false →
  (shellMode st && (shellRemaining st <=? 0)%Z) = false →
  truthy cleaned = true →
  (dedupeEnabled cfg && negb (startsWith cleaned (lit "#"))
   && bool_decide (fp ∈ fingerprintSet st)) = false →
  reaches (itemCount st) (maxItems cfg) = false →
  (addLine cfg line linkRef st).2 =
    (if dedupeEnabled cfg then rememberFingerprint cfg fp else id)
      (pushLine (trimLine cfg (decorateLine cleaned linkRef)) st).
Proof.
  intros cleaned fp Ht Hs Hc Hd Hr. rewrite addLine_unfold. fold cleaned fp.
  rewrite Ht, Hs, Hc, Hd, Hr. simpl. by destruct (dedupeEnabled cfg).
Qed.

Lemma addLine_emits_lines cfg line linkRef st :
  let cleaned := normalizeBullets (cleanText line) in
  let fp := fingerprintLine cleaned in
  truncated st = false →
  (shellMode st && (shellRemaining st <=? 0)%Z) = false →
  truthy cleaned = true →
  (dedupeEnabled cfg && negb (startsWith cleaned (lit "#"))
   && bool_decide (fp ∈ fingerprintSet st)) = false →
  reaches (itemCount st) (maxItems cfg) = false →
  lines (addLine cfg line linkRef st).2
  = lines st ++ [trimLine cfg (decorateLine cleaned linkRef)].
Proof.
  intros cleaned fp Ht Hs Hc Hd Hr.
  rewrite (addLine_emits cfg line linkRef st Ht Hs Hc Hd Hr). fold cleaned fp.
  destruct (dedupeEnabled cfg); [|done].
  by destruct (rememberFingerprint_fields cfg fp
                 (pushLine (trimLine cfg (decorateLine cleaned linkRef)) st))
    as (_ & _ & -> & _).
Qed.

(** What holds of the window in every state: it is no longer than any
    whole number that [dedupeWindow] does not exceed, and a non-empty
    fingerprint of the membership set is in the window. *)
Definition windowInv cfg st : Prop :=
  (∀ m, atMost (dedupeWindow cfg) (ofNat m) = true → length (fingerprintWindow st) ≤ m)
  ∧ (∀ fp, truthy fp = true → fp ∈ fingerprintSet st → fp ∈ fingerprintWindow st).

Lemma rememberFingerprint_windowInv cfg fp st :
  windowInv cfg st → windowInv cfg (rememberFingerprint cfg fp st).
Proof.
  intros [Hlen Hsub]. unfold windowInv.
  rewrite rememberFingerprint_window, rememberFingerprint_set.
  destruct (lessThan (dedupeWindow cfg) _) eqn:Hfull.
  - split.
    { intros m Hm. rewrite length_drop, length_app. simpl.
      pose proof (Hlen m Hm). lia. }
    intros x Hx Hin.
    assert (∀ y, truthy y = true → y ∈ {[fp]} ∪ fingerprintSet st →
            y ∈ fingerprintWindow st ++ [fp]) as Hsub1.
    { intros y Hy [->%elem_of_singleton|Hy']%elem_of_union; apply elem_of_app;
        [right; by apply list_elem_of_singleton|left; by apply Hsub]. }
    destruct (fingerprintWindow st ++ [fp]) as [|removed rest] eqn:Hw;
      [by destruct (fingerprintWindow st)|].
    simpl in *. destruct (truthy removed) eqn:Hrem.
    + apply elem_of_difference in Hin as [Hin Hne].
      apply Hsub1 in Hin; [|done].
      apply elem_of_cons in Hin as [->|?]; [|done].
      exfalso. by apply Hne, elem_of_singleton.
    + apply Hsub1 in Hin; [|done].
      apply elem_of_cons in Hin as [->|?]; [congruence|done].
  - split.
    { intros m Hm. destruct (decide (length (fingerprintWindow st ++ [fp]) ≤ m)); [done|].
      rewrite (atMost_lessThan_trans _ (ofNat m)) in Hfull; [done|exact Hm|].
      rewrite lessThan_ofNat. apply Nat.ltb_lt. lia. }
    intros x Hx [->%elem_of_singleton|Hin]%elem_of_union; apply elem_of_app;
      [right; by apply list_elem_of_singleton|left; by apply Hsub].
Qed.

Lemma step_windowInv cfg st st' : step cfg st st' → windowInv cfg st → windowInv cfg st'.
Proof.
  intros [line linkRef st0|url st0|sm sr wm st0] Hinv.
  - destruct (addLine_cases cfg line linkRef st0)
      as [->|[(_ & _ & ->)|(_ & _ & _ & ->)]]; [done|done|].
    destruct (dedupeEnabled cfg); [|done].
    by apply rememberFingerprint_windowInv.
  - unfold windowInv.
    by destruct (registerLink_fields url st0) as (_ & _ & _ & -> & -> & _).
  - done.
Qed.

Lemma reachable_windowInv cfg st : reachable cfg st → windowInv cfg st.
Proof.
  revert st. apply rtc_ind_r.
  - split; simpl; [intros; lia|by intros ? _ ?%elem_of_empty].
  - intros st st' _ Hstep IH. by eapply step_windowInv.
Qed.

(** C4, as the code has it.  A candidate whose text starts with [#] is not
    put to the duplicate test: whatever the window holds, it is appended
    unless the output is truncated or a budget is exhausted.  With dedup
    enabled its fingerprint is then pushed into the window as that of any
    other line is, the oldest entry leaving a window that has grown past
    [dedupeWindow]; and while it is in the membership set a later candidate
    that does not start with [#] and has the same fingerprint is dropped. *)
Theorem heading_bypasses_and_enters_window
    (cfg : Config) (line : jsstring) (linkRef : option jsstring) (st : State) :
  let cleaned := normalizeBullets (cleanText line) in
  let fp := fingerprintLine cleaned in
  let st' := (addLine cfg line linkRef st).2 in
  startsWith cleaned (lit "#") = true →
  truncated st = false →
  (shellMode st && (shellRemaining st <=? 0)%Z) = false →
  reaches (itemCount st) (maxItems cfg) = false →
  lines st' = lines st ++ [trimLine cfg (decorateLine cleaned linkRef)]
  ∧ (dedupeEnabled cfg = true →
     fingerprintWindow st'
     = (if lessThan (dedupeWindow cfg) (ofNat (length (fingerprintWindow st) + 1))
        then drop 1 (fingerprintWindow st ++ [fp])
        else fingerprintWindow st ++ [fp])
     ∧ (lessThan (dedupeWindow cfg) (ofNat (length (fingerprintWindow st) + 1)) = false →
        fp ∈ fingerprintSet st'
        ∧ ∀ line2 linkRef2,
            fingerprintLine (normalizeBullets (cleanText line2)) = fp →
            startsWith (normalizeBullets (cleanText line2)) (lit "#") = false →
            (addLine cfg line2 linkRef2 st').2 = st')).
Proof.
  intros cleaned fp st' Hhead Ht Hs Hr. subst st'.
  assert (truthy cleaned = true) as Hc by (by destruct cleaned).
  assert ((dedupeEnabled cfg && negb (startsWith cleaned (lit "#"))
           && bool_decide (fp ∈ fingerprintSet st)) = false) as Hd.
  { rewrite Hhead. simpl. by rewrite andb_false_r. }
  split; [by apply addLine_emits_lines|].
  intros Hde. rewrite (addLine_emits cfg line linkRef st Ht Hs Hc Hd Hr). fold cleaned fp.
  rewrite Hde. rewrite rememberFingerprint_window. simpl.
  rewrite length_app. simpl.
  split; [done|].
  intros Hroom.
  assert (fp ∈ fingerprintSet
            (rememberFingerprint cfg fp
               (pushLine (trimLine cfg (decorateLine cleaned linkRef)) st))) as Hin.
  { rewrite rememberFingerprint_set. simpl. rewrite length_app. simpl.
    rewrite Hroom. apply elem_of_union_l. by apply elem_of_singleton. }
  split; [exact Hin|].
  intros line2 linkRef2 Hfp Hnh. rewrite addLine_unfold. rewrite Hfp, Hnh, Hde.
  rewrite (bool_decide_eq_true_2 _ Hin). simpl.
  repeat match goal with |- context [if ?b then _ else _] => destruct b end; done.
Qed.

Lemma Steps_emitAll cfg candidates : Steps cfg (emitAll cfg candidates).
Proof. unfold emitAll. by_steps. Qed.

(** A call of [addLine] appends a line exactly when it changes the lines. *)
Lemma addLine_changes_lines cfg line linkRef st :
  let cleaned := normalizeBullets (cleanText line) in
  let fp := fingerprintLine cleaned in
  lines (addLine cfg line linkRef st).2 ≠ lines st →
  truncated st = false
  ∧ (dedupeEnabled cfg && negb (startsWith cleaned (lit "#"))
     && bool_decide (fp ∈ fingerprintSet st)) = false
  ∧ (addLine cfg line linkRef st).2 =
      (if dedupeEnabled cfg then rememberFingerprint cfg fp else id)
        (pushLine (trimLine cfg (decorateLine cleaned linkRef)) st).
Proof.
  intros cleaned fp. rewrite addLine_unfold. fold cleaned fp.
  destruct (truncated st); [done|].
  destruct (shellMode st && _); [done|].
  destruct (truthy cleaned); simpl; [|done].
  destruct (dedupeEnabled cfg && _ && _); [done|].
  destruct (reaches _ _); [done|].
  by destruct (dedupeEnabled cfg).
Qed.

Lemma addLine_emits_flags cfg line linkRef st :
  truncated st = false → (∀ k, reaches k (maxItems cfg) = false) →
  truncated (addLine cfg line linkRef st).2 = false
  ∧ shellMode (addLine cfg line linkRef st).2 = shellMode st.
Proof.
  intros Ht Hm.
  destruct (addLine_link_fields cfg line linkRef st) as (_ & _ & _ & Hsm & _).
  split; [|exact Hsm].
  destruct (addLine_cases cfg line linkRef st)
    as [->|[(_ & Hr & _)|(_ & _ & _ & ->)]]; [done| |].
  - by rewrite Hm in Hr.
  - destruct (dedupeEnabled cfg); [|done].
    by destruct (rememberFingerprint_fields cfg
                   (fingerprintLine (normalizeBullets (cleanText line)))
                   (pushLine (trimLine cfg
                      (decorateLine (normalizeBullets (cleanText line)) linkRef)) st))
      as (_ & -> & _).
Qed.


(** ** Without a document *)

(** C8.  When the host has no document the call returns, whatever the
    options and the selector: the text is empty, the flag is not set, no line
    and no item is counted and no link is listed ([maxDepth] is the resolved
    option, as in every result). *)
Theorem no_document_degenerate
    (answer : option (list (list nat))) (opts : ReadableOptions) :
  getReadableText {| document := None; selected := answer |} opts
  = Some {| Result.text := [];
            Result.truncated := false;
            Result.stats :=
              {| Stats.lines := 0;
                 Stats.maxDepth := maxDepth (resolve opts);
                 Stats.items := 0 |};
            Result.links := [] |}.
Proof.
  unfold getReadableText, selectRoots. simpl document. cbv iota. f_equal.
  unfold finalState, extraction, shellPass, mainPass, linkSweep, fallbackPass, linkTable.
  generalize (resolve opts) as cfg. intros cfg.
  destruct (includeShell cfg), (linksEnabled cfg); reflexivity.
Qed.

(** ** Line length *)

Lemma dropWhile_length f s : length (dropWhile f s) ≤ length s.
Proof. induction s as [|c r IH]; simpl; [lia|]. destruct (f c); simpl; lia. Qed.

Lemma trimEnd_length s : length (trimEnd s) ≤ length s.
Proof.
  unfold trimEnd. rewrite length_rev.
  etrans; [apply dropWhile_length|]. by rewrite length_rev.
Qed.

Lemma dropWhile_head f s : headIs f (dropWhile f s) = false.
Proof. induction s as [|c r IH]; simpl; [done|]. by destruct (f c) eqn:Hc; simpl. Qed.

(** Nothing that [trimEnd] returns ends with white space. *)
Lemma trimEnd_no_trailing_space s : headIs isSpace (rev (trimEnd s)) = false.
Proof. unfold trimEnd. rewrite rev_involutive. apply dropWhile_head. Qed.

Lemma dropWhile_suffix f s : dropWhile f s `suffix_of` s.
Proof.
  induction s as [|c r IH]; simpl; [done|].
  destruct (f c); [by apply suffix_cons_r|done].
Qed.

Lemma trimEnd_prefix s : trimEnd s `prefix_of` s.
Proof.
  unfold trimEnd. destruct (dropWhile_suffix isSpace (rev s)) as [k Hk].
  exists (rev k). apply (f_equal (@rev N)) in Hk.
  by rewrite rev_involutive, rev_app_distr in Hk.
Qed.

(** [trimLine] under a finite limit of at least one unit: the line fits
    the limit; a line within the limit is left as it is, a longer one is
    cut. *)
Lemma trimLine_bounded cfg t :
  isFinite (maxLineLength cfg) = true →
  atMost (ofZ 1) (maxLineLength cfg) = true →
  atMost (ofNat (length (trimLine cfg t))) (maxLineLength cfg) = true
  ∧ (atMost (ofNat (length t)) (maxLineLength cfg) = true → trimLine cfg t = t)
  ∧ (atMost (ofNat (length t)) (maxLineLength cfg) = false →
     ∃ p, trimLine cfg t = p ++ [ELLIPSIS]
          ∧ p `prefix_of` t
          ∧ headIs isSpace (rev p) = false).
Proof.
  intros Hfin Hpos. unfold trimLine. rewrite Hfin. cbn [negb].
  destruct (atMost (ofNat (length t)) (maxLineLength cfg)) eqn:Hle; [done|].
  destruct (maxLineLength cfg) as [| | |q]; try done.
  set (cut := sliceEnd (length t) (minus (Finite q) (ofZ 1))).
  assert (atMost (ofNat (cut + 1)) (Finite q) = true) as Hcut.
  { destruct (floor_pred q) as (Htr & Hf0 & Hfq); [by apply Qle_bool_true|].
    apply (atMost_shrinks _ (Z.to_nat (Qfloor (q - 1)%Qc + 1))).
    - unfold ofNat, ofZ, atMost. apply Qle_bool_true. by rewrite Z2Nat.id by lia.
    - unfold cut, ofZ, minus, sliceEnd. cbv zeta. rewrite Z2Qc_inj_1, Htr.
      replace (Qfloor (q - 1)%Qc <? 0)%Z with false by (symmetry; apply Z.ltb_ge; lia).
      lia. }
  pose proof (trimEnd_length (take cut t)) as Hlen. rewrite length_take in Hlen.
  split.
  - apply (atMost_shrinks _ (cut + 1)); [exact Hcut|]. rewrite length_app. simpl. lia.
  - split; [done|]. intros _. exists (trimEnd (take cut t)).
    split; [done|]. split; [|apply trimEnd_no_trailing_space].
    etrans; [apply trimEnd_prefix|apply prefix_take].
Qed.

(** Without a finite limit no line is cut. *)
Lemma trimLine_unlimited cfg t : isFinite (maxLineLength cfg) = false → trimLine cfg t = t.
Proof. intros H. unfold trimLine. by rewrite H. Qed.

(** Every emitted line went through [trimLine]. *)
Definition trimmedLines cfg st : Prop :=
  Forall (fun l => ∃ t, l = trimLine cfg t) (lines st).

Lemma step_trimmedLines cfg st st' :
  step cfg st st' → trimmedLines cfg st → trimmedLines cfg st'.
Proof.
  intros [line linkRef st0|url st0|sm sr wm st0] Hinv; unfold trimmedLines in *.
  - destruct (addLine_cases cfg line linkRef st0)
      as [->|[(_ & _ & ->)|(_ & _ & _ & ->)]]; [done|done|].
    assert (Forall (fun l => ∃ t, l = trimLine cfg t)
              (lines (pushLine (trimLine cfg
                 (decorateLine (normalizeBullets (cleanText line)) linkRef)) st0))) as Hp.
    { simpl. apply Forall_app. split; [done|]. apply Forall_singleton. eauto. }
    destruct (dedupeEnabled cfg); [|done].
    by destruct (rememberFingerprint_fields cfg
                   (fingerprintLine (normalizeBullets (cleanText line)))
                   (pushLine (trimLine cfg
                      (decorateLine (normalizeBullets (cleanText line)) linkRef)) st0))
      as (_ & _ & -> & _).
  - by destruct (registerLink_fields url st0) as (_ & _ & -> & _).
  - done.
Qed.

Lemma reachable_trimmedLines cfg st : reachable cfg st → trimmedLines cfg st.
Proof.
  revert st. apply rtc_ind_r; [apply Forall_nil_2|].
  intros st st' _ Hstep IH. by eapply step_trimmedLines.
Qed.

Lemma selectRoots_article host opts cfg doc roots shellRoots :
  selectRoots host opts = Some (cfg, doc, roots, shellRoots) →
  cfg = resolve opts
  ∨ (cfg = widenForArticle (resolve opts)
     ∧ ∃ d article,
         document host = Some d ∧ bestArticle d = Some article ∧ roots = [article]).
Proof.
  unfold selectRoots. destruct (document host) as [d|]; [|intros [= <-]; by left].
  destruct (if truthy _ then _ else _) as [chosen|]; [|done].
  destruct chosen as [|c chosen'].
  - unfold defaultRoots. destruct (bestArticle d) as [article|] eqn:Hbest.
    + intros [= <- _ <- _]. right. split; [done|]. by exists d, article.
    + destruct (bestLandmark d); intros [= <-]; by left.
  - intros [= <-]; by left.
Qed.

(** The limit of a call is the clamped option, or that raised to 360. *)
Lemma selectRoots_maxLineLength host opts cfg doc roots shellRoots :
  selectRoots host opts = Some (cfg, doc, roots, shellRoots) →
  let base := clampOpt 40 (o_maxLineLength opts) PosInfinity in
  maxLineLength cfg = base
  ∨ (maxLineLength cfg
     = (if isFinite base && lessThan base (ofZ 360) then ofZ 360 else base)
     ∧ ∃ d article,
         document host = Some d ∧ bestArticle d = Some article ∧ roots = [article]).
Proof.
  intros Hsel base.
  destruct (selectRoots_article _ _ _ _ _ _ Hsel) as [->|[-> Hart]]; [by left|by right].
Qed.

(** A finite limit of a call is 40 at least. *)
Lemma selectRoots_limit_floor host opts cfg doc roots shellRoots :
  selectRoots host opts = Some (cfg, doc, roots, shellRoots) →
  isFinite (maxLineLength cfg) = true →
  atMost (ofZ 40) (maxLineLength cfg) = true.
Proof.
  intros Hsel Hfin.
  assert (isFinite (clampOpt 40 (o_maxLineLength opts) PosInfinity) = true →
          atMost (ofZ 40) (clampOpt 40 (o_maxLineLength opts) PosInfinity) = true) as Hbase.
  { destruct (o_maxLineLength opts) as [L|]; [|done]. cbn [clampOpt]. intros HfinL.
    apply mathMax_bound. intros ->. by rewrite (proj2 (mathMax_NaN 40 NaN)) in HfinL. }
  destruct (selectRoots_maxLineLength _ _ _ _ _ _ Hsel) as [Heq|[Heq _]];
    rewrite Heq in Hfin |- *; [by apply Hbase|].
  set (base := clampOpt 40 (o_maxLineLength opts) PosInfinity) in *.
  destruct (isFinite base) eqn:Hf; cbn [andb] in *; [|by rewrite Hf in Hfin].
  destruct (lessThan base (ofZ 360)); [by rewrite atMost_ofZ|by apply Hbase].
Qed.

(** C2, as the code has it.  The limit that lines are cut to is not the
    option itself: the option is raised to 40 at least, and to 360 at least
    when the root selector chose an article by itself; the lines of the
    result are no longer than that limit.  A line that was cut is a prefix
    of the full line without trailing white space, followed by one
    ellipsis; a line within the limit is left as it is, and so is every line
    when the option is not set, is [NaN] or is [Infinity]. *)
Theorem line_length_effective_limit
    (host : Host) (opts : ReadableOptions) (r : Result.t) :
  getReadableText host opts = Some r →
  ∃ cfg doc roots shellRoots ls,
    selectRoots host opts = Some (cfg, doc, roots, shellRoots)
    ∧ Result.text r = join [NEWLINE] ls
    ∧ Stats.lines (Result.stats r) = length ls
    ∧ (o_maxLineLength opts = None →
       maxLineLength cfg = PosInfinity ∧ ∀ t, trimLine cfg t = t)
    ∧ (∀ L, o_maxLineLength opts = Some L →
         let base := mathMax (ofZ 40) L in
         (maxLineLength cfg = base
          ∨ (maxLineLength cfg
             = (if isFinite base && lessThan base (ofZ 360) then ofZ 360 else base)
             ∧ ∃ d article,
                 document host = Some d ∧ bestArticle d = Some article
                 ∧ roots = [article]))
         ∧ (isFinite base = false → ∀ t, trimLine cfg t = t)
         ∧ (isFinite base = true →
            Forall (fun l => atMost (ofNat (length l)) (maxLineLength cfg) = true) ls))
    ∧ (∀ L, o_maxLineLength opts = Some (ofZ L) →
         let base := Z.to_nat (Z.max 40 L) in
         ∃ limit,
           maxLineLength cfg = ofNat limit
           ∧ (limit = base
              ∨ (limit = Nat.max 360 base
                 ∧ ∃ d article,
                     document host = Some d ∧ bestArticle d = Some article
                     ∧ roots = [article]))
           ∧ Forall (fun l => length l ≤ limit) ls)
    ∧ Forall
        (fun l =>
           ∃ t, l = trimLine cfg t
                ∧ (isFinite (maxLineLength cfg) = true →
                   (atMost (ofNat (length t)) (maxLineLength cfg) = true → l = t)
                   ∧ (atMost (ofNat (length t)) (maxLineLength cfg) = false →
                      ∃ p, l = p ++ [ELLIPSIS] ∧ p `prefix_of` t
                           ∧ headIs isSpace (rev p) = false)))
        ls.
Proof.
  intros Hr. apply getReadableText_final in Hr as (cfg & doc & roots & shellRoots & Hsel & ->).
  exists cfg, doc, roots, shellRoots, (lines (finalState cfg doc roots shellRoots)).
  pose proof (reachable_trimmedLines cfg _ (finalState_reachable cfg doc roots shellRoots))
    as Htrim.
  split; [done|]. split; [done|]. split; [done|].
  assert (isFinite (maxLineLength cfg) = true → atMost (ofZ 1) (maxLineLength cfg) = true)
    as Hpos.
  { intros Hfin. apply (atMost_trans _ (ofZ 40)); [by rewrite atMost_ofZ|].
    by eapply selectRoots_limit_floor. }
  pose proof (selectRoots_maxLineLength _ _ _ _ _ _ Hsel) as Hwhich. cbv zeta in Hwhich.
  assert (isFinite (maxLineLength cfg) = true →
          Forall (fun l => atMost (ofNat (length l)) (maxLineLength cfg) = true)
            (lines (finalState cfg doc roots shellRoots))) as Hall.
  { intros Hfin. eapply Forall_impl; [exact Htrim|]. intros l [t ->].
    by destruct (trimLine_bounded cfg t Hfin (Hpos Hfin)) as (? & _). }
  split; [|split; [|split]].
  - intros Hnone. rewrite Hnone in Hwhich. cbn in Hwhich.
    assert (maxLineLength cfg = PosInfinity) as Hn by (by destruct Hwhich as [?|[? _]]).
    split; [done|]. intros t. apply trimLine_unlimited. by rewrite Hn.
  - intros L HL base. rewrite HL in Hwhich. cbn [clampOpt] in Hwhich. fold base in Hwhich.
    split; [exact Hwhich|]. split.
    + intros Hinf t. apply trimLine_unlimited.
      destruct Hwhich as [->|[-> _]]; [done|]. by rewrite Hinf.
    + intros Hfin. apply Hall.
      destruct Hwhich as [->|[-> _]]; [done|]. rewrite Hfin. cbn [andb].
      by destruct (lessThan base (ofZ 360)).
  - intros L HL base. rewrite HL in Hwhich. cbn [clampOpt] in Hwhich.
    rewrite mathMax_ofZ in Hwhich. cbn [isFinite ofZ andb] in Hwhich.
    fold (ofZ (Z.max 40 L)) in Hwhich. rewrite lessThan_ofZ in Hwhich.
    assert (ofZ (Z.max 40 L) = ofNat base) as Hbase.
    { unfold ofNat, base. by rewrite Z2Nat.id by lia. }
    assert (∃ limit, maxLineLength cfg = ofNat limit
              ∧ (limit = base
                 ∨ (limit = Nat.max 360 base
                    ∧ ∃ d article, document host = Some d ∧ bestArticle d = Some article
                                   ∧ roots = [article]))) as (limit & Hl & Hlim).
    { destruct Hwhich as [Heq|[Heq Hart]].
      - exists base. split; [by rewrite Heq|by left].
      - destruct (Z.max 40 L <? 360)%Z eqn:Hlt.
        + apply Z.ltb_lt in Hlt. exists 360. split; [by rewrite Heq|].
          right. split; [unfold base; lia|done].
        + apply Z.ltb_ge in Hlt. exists base. split; [by rewrite Heq|].
          right. split; [unfold base; lia|done]. }
    exists limit. split; [done|]. split; [done|].
    assert (isFinite (maxLineLength cfg) = true) as Hfin by (by rewrite Hl).
    eapply Forall_impl; [exact (Hall Hfin)|]. intros l Hlen. cbv beta in Hlen.
    rewrite Hl, atMost_ofNat in Hlen. by apply Nat.leb_le.
  - eapply Forall_impl; [exact Htrim|]. intros l [t ->]. exists t. split; [done|].
    intros Hfin.
    by destruct (trimLine_bounded cfg t Hfin (Hpos Hfin)) as (_ & ? & ?).
Qed.

(** ** Lists *)

(** The loop that stops at the flag walks a prefix of the list; it reports
    a stop exactly when the flag is set after an item. *)
Lemma forEachUntilTruncated_prefix {A} (xs : list A) (body : A -> M unit) st :
  ∃ k, k ≤ length xs
       ∧ (forEachUntilTruncated xs body st).2 = (forEach (take k xs) body st).2
       ∧ ((forEachUntilTruncated xs body st).1 = true →
          truncated (forEachUntilTruncated xs body st).2 = true)
       ∧ ((forEachUntilTruncated xs body st).1 = false →
          k = length xs
          ∧ (0 < length xs → truncated (forEachUntilTruncated xs body st).2 = false)).
Proof.
  revert st. induction xs as [|x xs IH]; intros st.
  - exists 0. repeat split; try done. simpl. lia.
  - simpl. unfold bind, gets. destruct (body x st) as [[] st1] eqn:Hb.
    fold (@bind). destruct (truncated st1) eqn:Ht.
    + exists 1. simpl. unfold bind. rewrite Hb. unfold ret. simpl.
      split; [lia|]. split; [by destruct xs|]. by split.
    + destruct (IH st1) as (k & Hk & Heq & Hstop & Hall).
      exists (S k). simpl. unfold bind at 1. rewrite Hb.
      split; [lia|]. split; [done|]. split; [done|]. intros H.
      destruct (Hall H) as [-> Hflag]. split; [done|]. intros _.
      destruct xs as [|y ys]; [by simpl|]. apply Hflag. simpl. lia.
Qed.

(** The loop over the indexes below the limit visits a prefix of the
    items: those whose index is below the limit. *)
Lemma itemsBelow_prefix {A} (limit : number) (items : list A) (i : nat) :
  let k := length (itemsBelow limit i items) in
  itemsBelow limit i items = take k items
  ∧ k ≤ length items
  ∧ (∀ j, j < k ↔ j < length items ∧ lessThan (ofNat (i + j)) limit = true).
Proof.
  revert i. induction items as [|item rest IH]; intros i; cbn [itemsBelow].
  - cbn. split; [done|]. split; [done|]. intros j. lia.
  - destruct (lessThan (ofNat i) limit) eqn:Hi; cbn [length].
    + destruct (IH (S i)) as (Heq & Hle & Hk). cbv zeta in *.
      split; [cbn [take]; by rewrite <- Heq|]. split; [lia|].
      intros [|j].
      * rewrite Nat.add_0_r, Hi. split; [intros _; split; [lia|done]|lia].
      * replace (i + S j) with (S i + j) by lia. destruct (Hk j) as [H1 H2]. split.
        -- intros Hj. destruct H1 as [? ?]; [lia|]. split; [lia|done].
        -- intros [Hj Hlt].
           assert (j < length (itemsBelow limit (S i) rest)); [|lia].
           apply H2. split; [lia|done].
    + split; [done|]. split; [lia|]. intros j. split; [lia|]. intros [_ Hj].
      rewrite (lessThan_shrinks limit (i + j) i Hj) in Hi by lia. done.
Qed.

Lemma mathMin_atMost a b :
  mathMin a b ≠ NaN → atMost (mathMin a b) a = true ∧ atMost (mathMin a b) b = true.
Proof.
  destruct a as [| | |p], b as [| | |q]; try done; unfold mathMin;
    try (cbn [lessThan]; intros _; split; first [reflexivity|apply atMost_refl]).
  rewrite lessThan_Finite.
  destruct (atMost (Finite p) (Finite q)) eqn:Hpq; cbn [negb]; intros _.
  - by rewrite atMost_refl.
  - rewrite atMost_refl. split; [|done].
    unfold atMost in *. to_order. by apply Qclt_le_weak.
Qed.

Lemma mathMin_ofNat n m : mathMin (ofNat n) (ofNat m) = ofNat (Nat.min n m).
Proof.
  unfold mathMin. cbn [ofNat ofZ]. fold (ofZ (Z.of_nat n)) (ofZ (Z.of_nat m)).
  fold (ofNat n) (ofNat m). rewrite lessThan_ofNat.
  destruct (m <? n) eqn:H.
  - apply Nat.ltb_lt in H. by rewrite Nat.min_r by lia.
  - apply Nat.ltb_ge in H. by rewrite Nat.min_l by lia.
Qed.

(** A whole number below [10^21] is printed as its decimal numeral. *)
Lemma numberToString_ofNat n :
  (Z.of_nat n < 10 ^ 21)%Z → numberToString (ofNat n) = decimal n.
Proof.
  intros Hn. unfold numberToString, ofNat, ofZ.
  rewrite isWhole_ofZ. cbn [andb this Qc_of_Z]. rewrite Qfloor_Z.
  replace (Z.abs (Z.of_nat n) <? 10 ^ 21)%Z with true by (symmetry; apply Z.ltb_lt; lia).
  replace (Z.of_nat n <? 0)%Z with false by (symmetry; apply Z.ltb_ge; lia).
  by rewrite Z.abs_eq, Nat2Z.id by lia.
Qed.

(** C7, as the code has it.  [handleList] calls [walk] on the first [j] of
    the [li] children of the list and on no other node, in their order.
    The loop runs over the indexes below [min(n, maxListItems)]: there are
    [k] of them, at most [n] and at most every whole number that
    [maxListItems] does not exceed (exactly [min(n, maxListItems)] when
    that is whole); the loop walks all [k] items unless the flag
    [truncated] is set after one of them, which ends the call.  When the
    loop has run to its end and [n] exceeds the limit, the candidate line
    [- … (n - limit more)] is handed to the emission engine, and in no other
    case; the engine appends it, and nothing else, when the output is not
    truncated, the budgets are not exhausted and the line is not a
    duplicate.  With a whole [maxListItems] below [n] the count in that
    line is [n - maxListItems]. *)
Theorem list_items_limited
    (cfg : Config) (walkItem : Element -> nat -> nat -> M unit)
    (el : Element) (depth listDepth : nat) (st : State) :
  let items := List.filter (fun child => tagIs (tagOf child) "li") (children el) in
  let n := length items in
  let limit := listLimit cfg n in
  let visit := fun item => walkItem item (depth + 1) (listDepth + 1) in
  let summary := indent listDepth ++ moreLine (minus (ofNat n) limit) in
  let st' := (handleList cfg walkItem el depth listDepth st).2 in
  ∃ k,
    k ≤ n
    ∧ (∀ i, i < k ↔ i < n ∧ lessThan (ofNat i) limit = true)
    ∧ (∀ m, atMost (maxListItems cfg) (ofNat m) = true → k ≤ m)
    ∧ (∀ m, maxListItems cfg = ofNat m → k = Nat.min n m)
    ∧ (∃ j,
         j ≤ k
         ∧ let st1 := (forEach (take j items) visit st).2 in
           (j < k → truncated st1 = true ∧ st' = st1)
           ∧ (j = k →
              if (0 <? k) && truncated st1 then st' = st1
              else if lessThan limit (ofNat n) then
                st' = (addLine cfg summary None st1).2
                ∧ (lines st' = lines st1 ∨ ∃ l, lines st' = lines st1 ++ [l])
                ∧ (truncated st1 = false →
                   (shellMode st1 && (shellRemaining st1 <=? 0)%Z) = false →
                   truthy (normalizeBullets (cleanText summary)) = true →
                   (dedupeEnabled cfg
                    && negb (startsWith (normalizeBullets (cleanText summary)) (lit "#"))
                    && bool_decide
                         (fingerprintLine (normalizeBullets (cleanText summary))
                            ∈ fingerprintSet st1)) = false →
                   reaches (itemCount st1) (maxItems cfg) = false →
                   lines st'
                   = lines st1 ++ [trimLine cfg (normalizeBullets (cleanText summary))])
              else st' = st1))
    ∧ (∀ m, maxListItems cfg = ofNat m → m < n → (Z.of_nat n < 10 ^ 21)%Z →
         limit = ofNat m
         ∧ moreLine (minus (ofNat n) limit)
           = lit "- " ++ [ELLIPSIS] ++ lit " (" ++ decimal (n - m) ++ lit " more)").
Proof.
  intros items n limit visit summary st'. subst st'.
  destruct (itemsBelow_prefix limit items 0) as (Hvis & Hkn & Hk).
  set (k := length (itemsBelow limit 0 items)) in *. cbv zeta in Hvis, Hkn, Hk.
  fold n in Hkn, Hk.
  exists k. split; [exact Hkn|]. split; [exact Hk|].
  assert (∀ m, atMost (maxListItems cfg) (ofNat m) = true → k ≤ m) as Hceil.
  { intros m Hm. destruct (decide (k ≤ m)) as [|Hgt]; [done|]. exfalso.
    assert (lessThan (ofNat m) limit = true) as Hlt by (apply Hk; lia).
    assert (limit ≠ NaN) as Hnan by (intros Heq; by rewrite Heq in Hlt).
    destruct (mathMin_atMost (ofNat n) (maxListItems cfg) Hnan) as [_ Hle].
    pose proof (lessThan_atMost_trans _ _ _ Hlt (atMost_trans _ _ _ Hle Hm)) as Hmm.
    rewrite lessThan_ofNat in Hmm. apply Nat.ltb_lt in Hmm. lia. }
  split; [exact Hceil|].
  assert (∀ m, maxListItems cfg = ofNat m → limit = ofNat (Nat.min n m)) as Hwhole.
  { intros m Hm. unfold limit, listLimit. by rewrite Hm, mathMin_ofNat. }
  split.
  { intros m Hm. specialize (Hwhole m Hm).
    destruct (decide (k < Nat.min n m)) as [Hlt|Hge].
    - destruct (Hk k) as [_ Hin]. exfalso.
      assert (k < k); [|lia]. apply Hin. split; [lia|].
      rewrite Hwhole, lessThan_ofNat. by apply Nat.ltb_lt.
    - destruct (decide (Nat.min n m < k)) as [Hlt|?]; [|lia]. exfalso.
      destruct (Hk (Nat.min n m)) as [Hin _]. destruct (Hin Hlt) as [_ Hmm].
      rewrite Hwhole, lessThan_ofNat in Hmm. apply Nat.ltb_lt in Hmm. lia. }
  split.
  - set (loop := forEachUntilTruncated (itemsBelow limit 0 items) visit st).
    assert ((handleList cfg walkItem el depth listDepth st).2
            = if loop.1 then loop.2
              else if lessThan limit (ofNat n)
                   then (addLine cfg summary None loop.2).2
                   else loop.2) as ->.
    { unfold handleList, bind. fold items n limit visit loop.
      destruct loop as [[] st1]; simpl; [done|]. by destruct (lessThan limit (ofNat n)). }
    destruct (forEachUntilTruncated_prefix (itemsBelow limit 0 items) visit st)
      as (j & Hj & Heq & Hstop & Hall).
    fold loop k in Hj, Heq, Hstop, Hall.
    rewrite Hvis, take_take in Heq. replace (j `min` k) with j in Heq by lia.
    exists j. split; [exact Hj|]. cbv zeta. rewrite <- Heq. split.
    + intros Hlt. destruct (loop.1) eqn:Hflag; [by split; [apply Hstop|]|].
      destruct (Hall eq_refl) as [-> _]. lia.
    + intros ->. destruct (loop.1) eqn:Hflag.
      * rewrite (Hstop eq_refl). destruct k; [|done].
        (* an empty loop reports no stop *)
        exfalso. unfold loop in Hflag.
        destruct (itemsBelow limit 0 items); [simpl in Hflag; congruence|done].
      * destruct (Hall eq_refl) as [_ Hopen].
        destruct (0 <? k) eqn:Hpos; cbn [andb].
        { apply Nat.ltb_lt in Hpos. rewrite (Hopen Hpos).
          destruct (lessThan limit (ofNat n)); [|done].
          split; [done|]. split.
          - destruct (addLine_cases cfg summary None loop.2)
              as [->|[(_ & _ & ->)|(_ & _ & _ & ->)]]; [by left|by left|right].
            eexists. destruct (dedupeEnabled cfg); [|done].
            by destruct (rememberFingerprint_fields cfg
                 (fingerprintLine (normalizeBullets (cleanText summary)))
                 (pushLine (trimLine cfg (decorateLine (normalizeBullets (cleanText
                    summary)) None)) loop.2)) as (_ & _ & -> & _).
          - intros. apply addLine_emits_lines; try done. by apply Hopen. }
        destruct (lessThan limit (ofNat n)); [|done].
        split; [done|]. split.
        { destruct (addLine_cases cfg summary None loop.2)
            as [->|[(_ & _ & ->)|(_ & _ & _ & ->)]]; [by left|by left|right].
          eexists. destruct (dedupeEnabled cfg); [|done].
          by destruct (rememberFingerprint_fields cfg
               (fingerprintLine (normalizeBullets (cleanText summary)))
               (pushLine (trimLine cfg (decorateLine (normalizeBullets (cleanText
                  summary)) None)) loop.2)) as (_ & _ & -> & _). }
        intros. by apply addLine_emits_lines.
  - intros m Hm Hlt Hbig. specialize (Hwhole m Hm).
    rewrite Nat.min_r in Hwhole by lia. split; [exact Hwhole|].
    rewrite Hwhole. unfold moreLine, ofNat at 1 2. rewrite minus_ofZ.
    replace (Z.of_nat n - Z.of_nat m)%Z with (Z.of_nat (n - m)) by lia.
    fold (ofNat (n - m)). by rewrite numberToString_ofNat by lia.
Qed.

(** ** The links of the result *)

(** The link list has an entry for the URL [u]. *)
Definition listed (u : jsstring) st : Prop := ∃ e, e ∈ linkList st ∧ href e = u.

Lemma registerLink_listed url st :
  linkInv st → rejectedUrl (trim url) = false → listed (trim url) (registerLink url st).2.
Proof.
  intros Hinv Hrej. pose proof (registerLink_spec url st Hinv) as Hspec.
  cbv zeta in Hspec. rewrite Hrej in Hspec.
  destruct (linkMap st !! trim url) as [r|] eqn:Hl; rewrite Hspec; simpl.
  - destruct Hinv as (_ & _ & Hmap & _). apply Hmap in Hl. by eexists.
  - eexists. split; [apply elem_of_app; right; by apply list_elem_of_singleton|done].
Qed.

Lemma steps_listed cfg u st st' :
  rtc (step cfg) st st' → linkInv st → listed u st → listed u st'.
Proof.
  intros Hsteps Hinv (e & He & Hu). unfold listed.
  destruct (steps_linkList_prefix _ _ _ Hsteps Hinv) as [ext ->].
  exists e. split; [apply elem_of_app; by left|done].
Qed.

Lemma forEach_listed cfg {A} (xs : list A) (body : A -> M unit) (x : A) u :
  (∀ y, Steps cfg (body y)) → x ∈ xs →
  (∀ st, linkInv st → listed u (body x st).2) →
  ∀ st, linkInv st → listed u (forEach xs body st).2.
Proof.
  intros Hsteps Hx Hbody. induction xs as [|y ys IH]; intros st Hinv.
  - by apply elem_of_nil in Hx.
  - simpl. unfold bind. destruct (body y st) as [[] st1] eqn:Hb.
    assert (st1 = (body y st).2) as Hst1 by (by rewrite Hb).
    assert (linkInv st1) as Hinv1.
    { rewrite Hst1. eapply steps_linkInv; [apply Hsteps|done]. }
    apply elem_of_cons in Hx as [<-|Hx].
    + eapply steps_listed; [apply (Steps_forEach cfg ys body Hsteps st1)|done|].
      rewrite Hst1. by apply Hbody.
    + by apply IH.
Qed.

(** The anchors under the roots are in the link list once the sweep is done. *)
Lemma linkSweep_listed cfg roots shellRoots root anchor st :
  let url := orElse (attrOrEmpty anchor "href") (hrefProperty (props anchor)) in
  linksEnabled cfg = true → linkInv st →
  root ∈ roots → anchor ∈ querySelectorAll root ANCHOR_WITH_HREF →
  truthy url = true → rejectedUrl (trim url) = false →
  listed (trim url) (linkSweep cfg roots shellRoots st).2.
Proof.
  intros url Hen Hinv Hroot Hanchor Hurl Hrej.
  unfold linkSweep. rewrite Hen. simpl.
  assert ((0 <? length roots) = true) as ->.
  { apply Nat.ltb_lt. destruct roots; [by apply elem_of_nil in Hroot|simpl; lia]. }
  unfold bind at 1.
  destruct (forEach roots _ st) as [[] st1] eqn:Hloop.
  assert (listed (trim url) st1 ∧ linkInv st1) as [Hl Hinv1].
  { assert (st1 = (forEach roots
              (fun root => forEach (querySelectorAll root ANCHOR_WITH_HREF) registerAnchor)
              st).2) as -> by (by rewrite Hloop).
    split.
    - apply (forEach_listed cfg roots _ root); try done.
      + intros y. apply Steps_forEach. intros a. apply Steps_registerAnchor.
      + intros st0 Hinv0.
        apply (forEach_listed cfg _ registerAnchor anchor); try done.
        * intros a. apply Steps_registerAnchor.
        * intros st2 Hinv2. unfold registerAnchor. fold url. rewrite Hurl.
          unfold bind. destruct (registerLink url st2) as [res st3] eqn:Hreg.
          assert (st3 = (registerLink url st2).2) as -> by (by rewrite Hreg).
          by apply registerLink_listed.
    - eapply steps_linkInv; [|exact Hinv].
      apply (Steps_forEach cfg). intros y. apply Steps_forEach. intros a.
      apply Steps_registerAnchor. }
  eapply steps_listed; [|exact Hinv1|exact Hl].
  destruct (includeShell cfg && _); [|apply rtc_refl].
  unfold bind, gets. apply (Steps_sweepShellRoots cfg).
Qed.

Lemma result_links_swept host opts r :
  getReadableText host opts = Some r →
  ∃ cfg doc roots shellRoots,
    selectRoots host opts = Some (cfg, doc, roots, shellRoots)
    ∧ Result.links r = linkList (finalState cfg doc roots shellRoots)
    ∧ (linksEnabled cfg = true →
       ∀ root anchor,
         root ∈ roots → anchor ∈ querySelectorAll root ANCHOR_WITH_HREF →
         let url := orElse (attrOrEmpty anchor "href") (hrefProperty (props anchor)) in
         truthy url = true → rejectedUrl (trim url) = false →
         ∃ e, e ∈ Result.links r ∧ href e = trim url).
Proof.
  intros Hr. apply getReadableText_final in Hr as (cfg & doc & roots & shellRoots & Hsel & ->).
  exists cfg, doc, roots, shellRoots. split; [done|]. split; [done|].
  intros Hen root anchor Hroot Hanchor url Hurl Hrej. simpl.
  unfold finalState, extraction.
  set (rs := list_to_set (List.map path roots) : gset (list nat)).
  set (srs := list_to_set (List.map path shellRoots) : gset (list nat)).
  unfold bind at 1. destruct (shellPass cfg doc rs srs shellRoots initialState)
    as [[] st1] eqn:H1.
  unfold bind at 1. destruct (mainPass cfg doc rs srs roots st1) as [[] st2] eqn:H2.
  unfold bind at 1. destruct (linkSweep cfg roots shellRoots st2) as [[] st3] eqn:H3.
  assert (reachable cfg st2) as Hreach2.
  { eapply rtc_trans; [apply (Steps_shellPass cfg doc rs srs shellRoots initialState)|].
    rewrite H1. simpl. replace st2 with (mainPass cfg doc rs srs roots st1).2
      by (by rewrite H2). apply Steps_mainPass. }
  pose proof (reachable_linkInv cfg st2 Hreach2) as Hinv2.
  assert (listed (trim url) st3) as Hl.
  { replace st3 with (linkSweep cfg roots shellRoots st2).2 by (by rewrite H3).
    by apply linkSweep_listed with (root := root) (anchor := anchor). }
  assert (linkInv st3) as Hinv3.
  { replace st3 with (linkSweep cfg roots shellRoots st2).2 by (by rewrite H3).
    eapply steps_linkInv; [apply Steps_linkSweep|done]. }
  eapply steps_listed; [|exact Hinv3|exact Hl].
  apply (Steps_bind cfg (fallbackPass cfg roots) (fun _ => linkTable cfg)).
  - apply Steps_fallbackPass.
  - intros _. apply Steps_linkTable.
Qed.

(** A link stays in the list from the moment it is registered. *)
Lemma registered_stays cfg url st st' :
  reachable cfg st → rejectedUrl (trim url) = false →
  rtc (step cfg) (registerLink url st).2 st' →
  listed (trim url) st'.
Proof.
  intros Hreach Hrej Hsteps. pose proof (reachable_linkInv cfg st Hreach) as Hinv.
  eapply steps_listed; [exact Hsteps| |].
  - eapply step_linkInv; [apply (step_registerLink cfg)|done].
  - by apply registerLink_listed.
Qed.

(** * Further properties of the code *)

(** ** Options out of range *)

Lemma mathMax_low lo x : atMost x (ofZ lo) = true → mathMax (ofZ lo) x = ofZ lo.
Proof.
  intros Hx. apply atMost_not_lessThan in Hx as Hlt.
  unfold mathMax, ofZ in *. rewrite Hlt. by destruct x.
Qed.

Lemma mathMax_high lo x : lessThan (ofZ lo) x = true → mathMax (ofZ lo) x = x.
Proof. intros Hx. unfold mathMax, ofZ in *. rewrite Hx. by destruct x. Qed.

(** A budget that no count reaches never sets the flag. *)
Lemma reachable_never_truncated cfg st :
  (∀ k, reaches k (maxItems cfg) = false) → reachable cfg st → truncated st = false.
Proof.
  intros Hnever. revert st. apply rtc_ind_r; [done|].
  intros st st' _ [line linkRef st0|url st0|sm sr wm st0] IH.
  - by destruct (addLine_emits_flags cfg line linkRef st0 IH Hnever).
  - by destruct (registerLink_fields url st0) as (_ & -> & _).
  - done.
Qed.

(** A numeric option that is out of range is clamped, not rejected, and
    [NaN] is not clamped at all.  An item budget of 1 or less (down to
    [-Infinity]) acts as 1: the result has one item at most.  A budget that
    is [NaN] or [Infinity] is, like an unset one, never reached: the output
    is never truncated.  The [maxDepth] of the result is 0 for an option of
    0 or less, the option itself when that is more than 0, [NaN] for
    [NaN], and 6 when the option is unset. *)
Theorem options_clamped (host : Host) (opts : ReadableOptions) (r : Result.t) :
  getReadableText host opts = Some r →
  (∀ x, o_maxItems opts = Some x → atMost x (ofZ 1) = true →
     Stats.items (Result.stats r) ≤ 1)
  ∧ (o_maxItems opts = None ∨ o_maxItems opts = Some NaN
     ∨ o_maxItems opts = Some PosInfinity →
     Result.truncated r = false)
  ∧ (∀ x, o_maxDepth opts = Some x → atMost x (ofZ 0) = true →
       Stats.maxDepth (Result.stats r) = ofZ 0)
  ∧ (∀ x, o_maxDepth opts = Some x → lessThan (ofZ 0) x = true →
       Stats.maxDepth (Result.stats r) = x)
  ∧ (o_maxDepth opts = Some NaN → Stats.maxDepth (Result.stats r) = NaN)
  ∧ (o_maxDepth opts = None → Stats.maxDepth (Result.stats r) = ofZ 6).
Proof.
  intros Hr. apply getReadableText_final in Hr as (cfg & doc & roots & shellRoots & Hsel & ->).
  assert (maxItems cfg = clampOpt 1 (o_maxItems opts) PosInfinity
          ∧ maxDepth cfg = clampOpt 0 (o_maxDepth opts) (ofZ 6)) as [Hitems Hdepth].
  { by destruct (selectRoots_config _ _ _ _ _ _ Hsel) as [->| ->]. }
  pose proof (finalState_reachable cfg doc roots shellRoots) as Hreach.
  cbn [assemble Result.stats Result.truncated Stats.items Stats.maxDepth].
  rewrite Hdepth. split; [|split; [|split; [|split; [|split]]]].
  - intros x Hx Hlow. destruct (reachable_budgetInv cfg _ Hreach) as (_ & Hcap & _).
    apply Hcap. rewrite Hitems, Hx. cbn [clampOpt]. rewrite (mathMax_low 1 x Hlow).
    apply (atMost_ofZ 1 1).
  - intros Hx. apply (reachable_never_truncated cfg); [|exact Hreach].
    intros k. rewrite Hitems. apply reaches_never.
    destruct Hx as [->|[->| ->]]; cbn; auto.
  - intros x Hx Hlow. rewrite Hx. cbn [clampOpt]. by apply mathMax_low.
  - intros x Hx Hhigh. rewrite Hx. cbn [clampOpt]. by apply mathMax_high.
  - by intros ->.
  - by intros ->.
Qed.

(** ** What the registry never lists *)

Definition acceptedLinks st : Prop :=
  Forall (fun e => ∃ url, href e = trim url ∧ rejectedUrl (trim url) = false)
    (linkList st).

Lemma step_acceptedLinks cfg st st' :
  step cfg st st' → linkInv st → acceptedLinks st → acceptedLinks st'.
Proof.
  intros [line linkRef st0|url st0|sm sr wm st0] Hinv Hacc; unfold acceptedLinks in *.
  - by destruct (addLine_link_fields cfg line linkRef st0) as (_ & -> & _).
  - pose proof (registerLink_spec url st0 Hinv) as Hspec. cbv zeta in Hspec.
    destruct (rejectedUrl (trim url)) eqn:Hrej; [by rewrite Hspec|].
    destruct (linkMap st0 !! trim url); rewrite Hspec; [done|]. simpl.
    apply Forall_app. split; [done|]. apply Forall_singleton. by exists url.
  - done.
Qed.

Lemma reachable_acceptedLinks cfg st : reachable cfg st → acceptedLinks st.
Proof.
  intros Hreach. assert (linkInv st ∧ acceptedLinks st) as [_ ?]; [|done].
  revert st Hreach. apply rtc_ind_r.
  - split; [apply (reachable_linkInv cfg); apply rtc_refl|apply Forall_nil_2].
  - intros st st' Hst Hstep [Hinv Hacc]. split.
    + by eapply step_linkInv.
    + by eapply step_acceptedLinks.
Qed.

Lemma trim_no_space_at_ends s :
  headIs isSpace (trim s) = false ∧ headIs isSpace (rev (trim s)) = false.
Proof.
  unfold trim. split; [|apply trimEnd_no_trailing_space].
  destruct (trimEnd_prefix (trimStart s)) as [k Hk].
  pose proof (dropWhile_head isSpace s) as Hhead. fold (trimStart s) in Hhead.
  rewrite Hk in Hhead. by destruct (trimEnd (trimStart s)).
Qed.

(** No link of a result is empty or starts with [javascript:], [#],
    [data:] or [blob:], and none has white space at either end: the
    registry stores a URL trimmed. *)
Theorem result_links_accepted (host : Host) (opts : ReadableOptions) (r : Result.t) :
  getReadableText host opts = Some r →
  ∀ e, e ∈ Result.links r →
    truthy (href e) = true
    ∧ startsWith (href e) (lit "javascript:") = false
    ∧ startsWith (href e) (lit "#") = false
    ∧ startsWith (href e) (lit "data:") = false
    ∧ startsWith (href e) (lit "blob:") = false
    ∧ headIs isSpace (href e) = false
    ∧ headIs isSpace (rev (href e)) = false.
Proof.
  intros Hr e He.
  apply getReadableText_final in Hr as (cfg & doc & roots & shellRoots & _ & ->).
  pose proof (reachable_acceptedLinks cfg _ (finalState_reachable cfg doc roots shellRoots))
    as Hacc.
  unfold acceptedLinks in Hacc. rewrite Forall_forall in Hacc.
  destruct (Hacc e He) as (url & Heq & Hrej). rewrite Heq.
  unfold rejectedUrl in Hrej.
  repeat (apply orb_false_elim in Hrej as [Hrej ?]).
  apply negb_false_iff in Hrej.
  destruct (trim_no_space_at_ends url). repeat split; done.
Qed.

(** ** Dedup disabled *)

Lemma step_no_fingerprints cfg st st' :
  dedupeEnabled cfg = false → step cfg st st' →
  fingerprintWindow st = [] ∧ fingerprintSet st = ∅ →
  fingerprintWindow st' = [] ∧ fingerprintSet st' = ∅.
Proof.
  intros Hde [line linkRef st0|url st0|sm sr wm st0] Hinv.
  - destruct (addLine_cases cfg line linkRef st0)
      as [->|[(_ & _ & ->)|(_ & _ & _ & ->)]]; [done|done|]. by rewrite Hde.
  - by destruct (registerLink_fields url st0) as (_ & _ & _ & -> & -> & _).
  - done.
Qed.

(** With [dedupe: false] no fingerprint is ever recorded, and a candidate
    is never dropped for being a repetition: whatever was emitted before, a
    candidate with a non-empty cleaned text is appended unless the output
    is truncated or a budget is exhausted. *)
Theorem dedupe_disabled_never_suppresses
    (cfg : Config) (st : State) (line : jsstring) (linkRef : option jsstring) :
  dedupeEnabled cfg = false →
  reachable cfg st →
  let cleaned := normalizeBullets (cleanText line) in
  fingerprintWindow st = [] ∧ fingerprintSet st = ∅
  ∧ (truncated st = false →
     (shellMode st && (shellRemaining st <=? 0)%Z) = false →
     truthy cleaned = true →
     reaches (itemCount st) (maxItems cfg) = false →
     lines (addLine cfg line linkRef st).2
     = lines st ++ [trimLine cfg (decorateLine cleaned linkRef)]).
Proof.
  intros Hde Hreach cleaned.
  assert (fingerprintWindow st = [] ∧ fingerprintSet st = ∅) as [Hw Hs].
  { revert st Hreach. apply rtc_ind_r; [done|].
    intros st st' _ Hstep IH. by eapply step_no_fingerprints. }
  split; [done|]. split; [done|].
  intros Ht Hsh Hc Hb. apply addLine_emits_lines; try done. by rewrite Hde.
Qed.

(** ** Trimming twice *)

(** A line that has been cut to the limit is not cut again: [trimLine] is
    idempotent, for every limit that is not below 1 (whole or not), and
    without a limit. *)
Theorem trimLine_idempotent (cfg : Config) (t : jsstring) :
  lessThan (maxLineLength cfg) (ofZ 1) = false →
  trimLine cfg (trimLine cfg t) = trimLine cfg t.
Proof.
  intros Hpos. destruct (isFinite (maxLineLength cfg)) eqn:Hfin.
  - assert (atMost (ofZ 1) (maxLineLength cfg) = true) as Hone.
    { destruct (maxLineLength cfg) as [| | |q]; try done.
      unfold ofZ in *. rewrite lessThan_Finite in Hpos. by apply negb_false_iff in Hpos. }
    destruct (trimLine_bounded cfg t Hfin Hone) as (Hlen & _).
    destruct (trimLine_bounded cfg (trimLine cfg t) Hfin Hone) as (_ & Hfix & _).
    by apply Hfix.
  - by rewrite !trimLine_unlimited.
Qed.

(** ** The sweep over the shell roots *)

Lemma registerLink_length url st :
  length (linkList st) ≤ length (linkList (registerLink url st).2)
  ∧ length (linkList (registerLink url st).2) ≤ length (linkList st) + 1.
Proof.
  unfold registerLink, bind, gets, ret, allocateLink.
  destruct (rejectedUrl _); simpl; [lia|].
  destruct (linkMap st !! _) as [r|]; [destruct (truthy r)|]; simpl;
    rewrite ?length_app; simpl; lia.
Qed.

Lemma registerAnchor_length anchor st :
  length (linkList st) ≤ length (linkList (registerAnchor anchor st).2)
  ∧ length (linkList (registerAnchor anchor st).2) ≤ length (linkList st) + 1.
Proof.
  unfold registerAnchor. destruct (truthy _); [|simpl; lia].
  unfold bind. pose proof (registerLink_length
    (orElse (attrOrEmpty anchor "href") (hrefProperty (props anchor))) st) as H.
  by destruct (registerLink _ st).
Qed.

Lemma sweepShellAnchors_cons base a rest st :
  sweepShellAnchors base (a :: rest) st
  = if 60 <=? length (linkList st) - base then (tt, st)
    else sweepShellAnchors base rest (registerAnchor a st).2.
Proof.
  cbn [sweepShellAnchors]. unfold bind, shellLinkLimitReached, gets, ret.
  destruct (60 <=? _); [done|]. by destruct (registerAnchor a st) as [[] st1].
Qed.

Lemma sweepShellRoots_cons base root rest st :
  sweepShellRoots base (root :: rest) st
  = let st1 := (sweepShellAnchors base (querySelectorAll root ANCHOR_WITH_HREF) st).2 in
    if 60 <=? length (linkList st1) - base then (tt, st1)
    else sweepShellRoots base rest st1.
Proof.
  cbn [sweepShellRoots]. unfold bind, shellLinkLimitReached, gets, ret.
  destruct (sweepShellAnchors base _ st) as [[] st1]. cbn [snd].
  by destruct (60 <=? _).
Qed.

Lemma sweepShellAnchors_length base anchors st :
  length (linkList st) ≤ length (linkList (sweepShellAnchors base anchors st).2)
  ∧ (length (linkList st) ≤ base + 60 →
     length (linkList (sweepShellAnchors base anchors st).2) ≤ base + 60).
Proof.
  revert st. induction anchors as [|a rest IH]; intros st; [simpl; lia|].
  rewrite sweepShellAnchors_cons.
  destruct (60 <=? length (linkList st) - base) eqn:Hfull; [simpl; lia|].
  apply Nat.leb_gt in Hfull.
  pose proof (registerAnchor_length a st) as Ha.
  destruct (IH (registerAnchor a st).2) as [Hlo Hhi]. split; [lia|].
  intros Hb. apply Hhi. lia.
Qed.

(** The sweep over the shell roots registers at most 60 links, and removes
    none: it stops as soon as 60 have been added to the [baseCount] links
    that were there. *)
Theorem shell_sweep_adds_at_most_sixty (rs : list Element) (st : State) :
  let st' := (sweepShellRoots (length (linkList st)) rs st).2 in
  length (linkList st) ≤ length (linkList st')
  ∧ length (linkList st') ≤ length (linkList st) + 60.
Proof.
  cbv zeta.
  assert (∀ base rs st,
            length (linkList st) ≤ length (linkList (sweepShellRoots base rs st).2)
            ∧ (length (linkList st) ≤ base + 60 →
               length (linkList (sweepShellRoots base rs st).2) ≤ base + 60)) as Hgen.
  { clear rs st. intros base rs. induction rs as [|root rest IH]; intros st; [simpl; lia|].
    rewrite sweepShellRoots_cons. cbv zeta.
    pose proof (sweepShellAnchors_length base
                  (querySelectorAll root ANCHOR_WITH_HREF) st) as [Hlo Hhi].
    destruct (60 <=? _); [simpl; lia|].
    destruct (IH (sweepShellAnchors base
                    (querySelectorAll root ANCHOR_WITH_HREF) st).2) as [Hlo1 Hhi1].
    split; [lia|]. intros Hb. apply Hhi1. lia. }
  destruct (Hgen (length (linkList st)) rs st) as [Hlo Hhi]. split; [done|]. apply Hhi. lia.
Qed.

(** ** The choice of an article *)

Lemma betterArticle_fold (l : list Element) (best : option Element * Z) :
  let res := fold_left betterArticle l best in
  (best.2 <= res.2)%Z
  ∧ (res.1 = best.1 ∧ res.2 = best.2
     ∨ ∃ a, res.1 = Some a ∧ a ∈ l ∧ (articleScore a).1 = true
            ∧ res.2 = (articleScore a).2 ∧ (best.2 < res.2)%Z)
  ∧ ∀ b, b ∈ l → (articleScore b).1 = true → ((articleScore b).2 <= res.2)%Z.
Proof.
  revert best. induction l as [|x l IH]; intros best; cbn [fold_left].
  - split; [lia|]. split; [by left|]. by intros b ?%elem_of_nil.
  - destruct (IH (betterArticle best x)) as (Hmono & Hwhich & Hmax).
    assert ((best.2 <= (betterArticle best x).2)%Z
            ∧ ((articleScore x).1 = true →
               ((articleScore x).2 <= (betterArticle best x).2)%Z)
            ∧ (betterArticle best x = best
               ∨ betterArticle best x = (Some x, (articleScore x).2)
                 ∧ (articleScore x).1 = true ∧ (best.2 < (articleScore x).2)%Z))
      as (Hstep & Hx & Hcase).
    { unfold betterArticle. destruct (articleScore x) as [q s]. cbn [fst snd].
      destruct q; cbn [andb].
      - destruct (best.2 <? s)%Z eqn:Hlt; cbn [fst snd].
        + apply Z.ltb_lt in Hlt. split; [lia|]. split; [lia|]. by right.
        + apply Z.ltb_ge in Hlt. split; [lia|]. split; [lia|]. by left.
      - split; [lia|]. split; [done|]. by left. }
    split; [lia|]. split.
    + destruct Hwhich as [[H1 H2]|(a & H1 & Ha & Hq & H2 & Hlt)].
      * destruct Hcase as [Hsame|(Hnew & Hq & Hlt)].
        -- left. by rewrite H1, H2, Hsame.
        -- right. exists x. rewrite H1, H2, Hnew. cbn [fst snd].
           split; [done|]. split; [by left|]. done.
      * right. exists a. split; [done|]. split; [by right|]. split; [done|].
        split; [done|lia].
    + intros b [->|Hb]%elem_of_cons Hq; [|by apply Hmax].
      specialize (Hx Hq). lia.
Qed.

(** The article that the root selector chooses qualifies (paragraph text of
    400 characters or three paragraphs), has a score of 0 at least, and no
    qualifying article of the document has a higher score; none is chosen
    exactly when every qualifying article has a negative score (its links
    outweigh its paragraphs). *)
Theorem bestArticle_maximal (doc : Node) :
  let articles := docQuerySelectorAll doc [byTag "article"] in
  match bestArticle doc with
  | Some a =>
      a ∈ articles ∧ (articleScore a).1 = true ∧ (0 <= (articleScore a).2)%Z
      ∧ ∀ b, b ∈ articles → (articleScore b).1 = true →
          ((articleScore b).2 <= (articleScore a).2)%Z
  | None =>
      ∀ b, b ∈ articles → (articleScore b).1 = true → ((articleScore b).2 < 0)%Z
  end.
Proof.
  intros articles. unfold bestArticle. fold articles.
  destruct (betterArticle_fold articles (None, (-1)%Z)) as (Hmono & Hwhich & Hmax).
  simpl in *.
  destruct Hwhich as [[H1 H2]|(a & H1 & Ha & Hq & H2 & Hlt)].
  - rewrite H1. intros b Hb Hqb. specialize (Hmax b Hb Hqb). lia.
  - rewrite H1. split; [done|]. split; [done|]. split; [lia|].
    intros b Hb Hqb. specialize (Hmax b Hb Hqb). lia.
Qed.

(** ** Depth of the walk *)

Lemma bind_cong {A B} (m : M A) (k1 k2 : A -> M B) st :
  (∀ a st', k1 a st' = k2 a st') → bind m k1 st = bind m k2 st.
Proof. intros H. unfold bind. destruct (m st). apply H. Qed.

Lemma forEach_cong {A} (xs : list A) (b1 b2 : A -> M unit) st :
  (∀ x st', x ∈ xs → b1 x st' = b2 x st') → forEach xs b1 st = forEach xs b2 st.
Proof.
  revert st. induction xs as [|x xs IH]; intros st H; [done|].
  cbn [forEach]. unfold bind. rewrite H by (apply elem_of_cons; by left).
  destruct (b2 x st). apply IH. intros y st' Hy. apply H. by right.
Qed.

Lemma forEachUntilTruncated_cong {A} (xs : list A) (b1 b2 : A -> M unit) st :
  (∀ x st', x ∈ xs → b1 x st' = b2 x st') →
  forEachUntilTruncated xs b1 st = forEachUntilTruncated xs b2 st.
Proof.
  revert st. induction xs as [|x xs IH]; intros st H; [done|].
  cbn [forEachUntilTruncated]. unfold bind, gets.
  rewrite H by (apply elem_of_cons; by left). destruct (b2 x st) as [[] st1].
  destruct (truncated st1); [done|]. apply IH. intros y st' Hy. apply H. by right.
Qed.

Lemma handleList_cong cfg (w1 w2 : Element -> nat -> nat -> M unit) el depth listDepth st :
  (∀ item st', item ∈ children el →
     w1 item (depth + 1) (listDepth + 1) st' = w2 item (depth + 1) (listDepth + 1) st') →
  handleList cfg w1 el depth listDepth st = handleList cfg w2 el depth listDepth st.
Proof.
  intros H. unfold handleList. cbv zeta. unfold bind.
  rewrite (forEachUntilTruncated_cong _ _
             (fun item => w2 item (depth + 1) (listDepth + 1))); [done|].
  intros x st' Hx. apply H.
  destruct (itemsBelow_prefix
              (listLimit cfg (length (List.filter (fun child => tagIs (tagOf child) "li")
                                        (children el))))
              (List.filter (fun child => tagIs (tagOf child) "li") (children el)) 0)
    as (Heq & _). cbv zeta in Heq. rewrite Heq in Hx.
  apply elem_of_take in Hx as (i & Hx & _). apply list_elem_of_lookup_2 in Hx.
  apply list_elem_of_In, filter_In in Hx as [Hx _]. by apply list_elem_of_In.
Qed.

Lemma nodeLevels_element e kids :
  nodeLevels (ElementNode e kids) = S (foldr Nat.max 0 (List.map nodeLevels kids)).
Proof. cbn [nodeLevels]. f_equal. induction kids as [|k ks IH]; [done|]. cbn. by rewrite IH. Qed.

Lemma childrenFrom_levels p i ks child :
  child ∈ childrenFrom p i ks →
  levels child ≤ foldr Nat.max 0 (List.map nodeLevels ks).
Proof.
  revert i. induction ks as [|k ks IH]; intros i Hin; [by apply elem_of_nil in Hin|].
  cbn [List.map foldr]. destruct k as [data| |e kids]; cbn [childrenFrom] in Hin.
  - specialize (IH (S i) Hin). lia.
  - specialize (IH (S i) Hin). lia.
  - apply elem_of_cons in Hin as [->|Hin]; [unfold levels, nodeOf; cbn [props childNodes]; lia|].
    specialize (IH (S i) Hin). lia.
Qed.

(** A child has fewer levels than its parent. *)
Lemma children_levels el child : child ∈ children el → levels child < levels el.
Proof.
  intros Hin. apply childrenFrom_levels in Hin.
  unfold levels at 2. unfold nodeOf. rewrite nodeLevels_element. lia.
Qed.

Lemma levels_positive el : 0 < levels el.
Proof. unfold levels, nodeOf. cbn [nodeLevels]. lia. Qed.

(** Takes two runs of the same code apart, down to the calls that differ. *)
Ltac same_code :=
  repeat first
    [ match goal with |- ?x = ?x => reflexivity end
    | progress (cbv zeta)
    | apply bind_cong; intros ? ?
    | match goal with
      | |- (if ?b then _ else _) _ = _ => destruct b
      | |- (match ?o with _ => _ end) _ = _ => destruct o
      end ].

(** A call at a depth beyond [maxDepth] does nothing, and every recursive
    call goes one level down the tree and one unit up in depth.  So the
    calls of [walk] nest no deeper than the subtree has levels, and
    [maxDepth + 1 - depth] deep at most where [maxDepth] is a number: with
    that much fuel or more the result is the same, whatever the fuel.
    (The passes start the walk of a root at depth 0 with the levels of its
    subtree; a [maxDepth] that is [NaN] or [Infinity] bounds nothing.) *)
Theorem walk_depth_bounded
    (cfg : Config) (doc : Node) (rootSet shellRootSet : gset (list nat))
    (fuel1 fuel2 : nat) (el : Element) (depth listDepth : nat) (st : State) :
  (lessThan (maxDepth cfg) (ofNat depth) = true →
   walk cfg doc rootSet shellRootSet fuel1 el depth listDepth st = (tt, st))
  ∧ (levels el ≤ fuel1 ∨ lessThan (maxDepth cfg) (ofNat (fuel1 + depth)) = true →
     levels el ≤ fuel2 ∨ lessThan (maxDepth cfg) (ofNat (fuel2 + depth)) = true →
     walk cfg doc rootSet shellRootSet fuel1 el depth listDepth st
     = walk cfg doc rootSet shellRootSet fuel2 el depth listDepth st)
  ∧ (∀ m, maxDepth cfg = ofNat m →
       (m < depth →
        walk cfg doc rootSet shellRootSet fuel1 el depth listDepth st = (tt, st))
       ∧ (m + 1 ≤ fuel1 + depth → m + 1 ≤ fuel2 + depth →
          walk cfg doc rootSet shellRootSet fuel1 el depth listDepth st
          = walk cfg doc rootSet shellRootSet fuel2 el depth listDepth st)).
Proof.
  assert (∀ fuel el depth listDepth st, lessThan (maxDepth cfg) (ofNat depth) = true →
          walk cfg doc rootSet shellRootSet fuel el depth listDepth st = (tt, st)) as Hdeep.
  { intros fuel el0 d l st0 Hd. destruct fuel as [|fuel]; [done|].
    cbn [walk]. unfold bind at 1. unfold gets at 1.
    destruct (truncated st0); [done|]. by rewrite Hd. }
  assert (∀ fuel1 fuel2 el depth listDepth st,
            levels el ≤ fuel1 ∨ lessThan (maxDepth cfg) (ofNat (fuel1 + depth)) = true →
            levels el ≤ fuel2 ∨ lessThan (maxDepth cfg) (ofNat (fuel2 + depth)) = true →
            walk cfg doc rootSet shellRootSet fuel1 el depth listDepth st
            = walk cfg doc rootSet shellRootSet fuel2 el depth listDepth st) as Hfuel.
  { clear fuel1 fuel2 el depth listDepth st.
    induction fuel1 as [|fuel1 IH]; intros fuel2 el depth listDepth st H1 H2.
    { destruct H1 as [H1|H1]; [pose proof (levels_positive el); lia|].
      by rewrite !Hdeep. }
    destruct fuel2 as [|fuel2].
    { destruct H2 as [H2|H2]; [pose proof (levels_positive el); lia|].
      by rewrite !Hdeep. }
    destruct (lessThan (maxDepth cfg) (ofNat depth)) eqn:Hd; [by rewrite !Hdeep|].
    assert (∀ item l st', item ∈ children el →
              walk cfg doc rootSet shellRootSet fuel1 item (depth + 1) l st'
              = walk cfg doc rootSet shellRootSet fuel2 item (depth + 1) l st') as Hrec.
    { intros item l st' Hitem. pose proof (children_levels el item Hitem).
      apply IH.
      - destruct H1 as [H1|H1]; [left; lia|right].
        by replace (fuel1 + (depth + 1)) with (S fuel1 + depth) by lia.
      - destruct H2 as [H2|H2]; [left; lia|right].
        by replace (fuel2 + (depth + 1)) with (S fuel2 + depth) by lia. }
    cbn [walk]. same_code.
    - apply handleList_cong. intros. by apply Hrec.
    - apply forEach_cong. intros x st0 Hx. apply Hrec.
      by apply list_elem_of_In, filter_In in Hx as [Hx%list_elem_of_In _].
    - unfold bind.
      rewrite (forEachUntilTruncated_cong _ _
                 (fun child => walk cfg doc rootSet shellRootSet fuel2 child
                                 (depth + 1) listDepth)); [done|].
      intros x st0 Hx. by apply Hrec. }
  split; [apply Hdeep|]. split; [apply Hfuel|].
  intros m Hm. rewrite Hm in Hdeep, Hfuel. split.
  - intros Hlt. apply Hdeep. rewrite lessThan_ofNat. by apply Nat.ltb_lt.
  - intros H1 H2. apply Hfuel; right; rewrite lessThan_ofNat; apply Nat.ltb_lt; lia.
Qed.

(** ** Cleaned text *)

(** Every white-space unit of [s] is a plain space that follows a unit
    which is none ([afterSpace] tells whether a space came just before). *)
Fixpoint spaced (afterSpace : bool) (s : jsstring) : bool :=
  match s with
  | [] => true
  | c :: r =>
      if isSpace c then (c =? SPACE)%N && negb afterSpace && spaced true r
      else spaced false r
  end.

Lemma collapseFrom_spaced b s : spaced b (collapseFrom b s) = true.
Proof.
  revert b. induction s as [|c r IH]; intros b; [done|]. cbn [collapseFrom].
  destruct (isSpace c) eqn:Hc.
  - destruct b; [apply IH|]. cbn [spaced].
    change (isSpace SPACE) with true. cbn. apply IH.
  - cbn [spaced]. rewrite Hc. apply IH.
Qed.

Lemma spaced_weaken s : spaced true s = true → spaced false s = true.
Proof.
  destruct s as [|c r]; [done|]. cbn [spaced]. destruct (isSpace c); [|done].
  by rewrite andb_false_r.
Qed.

Lemma spaced_head s : spaced true s = true → headIs isSpace s = false.
Proof.
  destruct s as [|c r]; [done|]. cbn [spaced headIs]. destruct (isSpace c); [|done].
  by rewrite andb_false_r.
Qed.

Lemma dropWhile_fixed f s : headIs f s = false → dropWhile f s = s.
Proof. destruct s as [|c r]; [done|]. cbn. by intros ->. Qed.

Lemma spaced_dropWhile b s : spaced b s = true → spaced true (dropWhile isSpace s) = true.
Proof.
  destruct s as [|c r]; [done|]. cbn [spaced dropWhile].
  destruct (isSpace c) eqn:Hc.
  - intros [[_ _]%andb_true_iff Hr]%andb_true_iff.
    by rewrite (dropWhile_fixed _ _ (spaced_head _ Hr)).
  - intros Hr. cbn [spaced]. by rewrite Hc.
Qed.

Lemma spaced_prefix b p q : spaced b (p ++ q) = true → spaced b p = true.
Proof.
  revert b. induction p as [|c p IH]; intros b; [done|]. cbn [app spaced].
  destruct (isSpace c).
  - intros [H1 H2]%andb_true_iff. rewrite H1. cbn. by apply IH.
  - apply IH.
Qed.

Lemma spaced_units b s c :
  spaced b s = true → c ∈ s → isSpace c = true → c = SPACE.
Proof.
  revert b. induction s as [|x s IH]; intros b Hs Hc Hsp; [by apply elem_of_nil in Hc|].
  cbn [spaced] in Hs. apply elem_of_cons in Hc as [->|Hc].
  - rewrite Hsp in Hs. apply andb_true_iff in Hs as [[Hx _]%andb_true_iff _].
    by apply N.eqb_eq.
  - destruct (isSpace x); [|by eapply IH].
    apply andb_true_iff in Hs as [_ Hs]. by eapply IH.
Qed.

Lemma spaced_no_double b s i :
  spaced b s = true → s !! i = Some SPACE → s !! (S i) ≠ Some SPACE.
Proof.
  revert b i. induction s as [|x s IH]; intros b i Hs Hi; [done|].
  cbn [spaced] in Hs. destruct i as [|i].
  - cbn in Hi. injection Hi as ->. change (isSpace SPACE) with true in Hs. cbn in Hs.
    apply andb_true_iff in Hs as [_ Hs]. cbn. intros Hnext.
    destruct s as [|y s]; [done|]. cbn in Hnext. injection Hnext as ->.
    cbn [spaced] in Hs. change (isSpace SPACE) with true in Hs. cbn in Hs.
    discriminate Hs.
  - cbn in Hi |- *. destruct (isSpace x).
    + apply andb_true_iff in Hs as [_ Hs]. by eapply IH.
    + by eapply IH.
Qed.

Lemma collapseFrom_fixed b s : spaced b s = true → collapseFrom b s = s.
Proof.
  revert b. induction s as [|c r IH]; intros b Hs; [done|].
  cbn [spaced] in Hs. cbn [collapseFrom]. destruct (isSpace c).
  - apply andb_true_iff in Hs as [[Hc Hb]%andb_true_iff Hr].
    apply N.eqb_eq in Hc. subst c. destruct b; [done|]. by rewrite IH.
  - by rewrite IH.
Qed.

Lemma trimEnd_fixed s : headIs isSpace (rev s) = false → trimEnd s = s.
Proof. intros H. unfold trimEnd. by rewrite (dropWhile_fixed _ _ H), rev_involutive. Qed.

Lemma normalize_spaced t :
  spaced true (normalize t) = true ∧ headIs isSpace (rev (normalize t)) = false.
Proof.
  unfold normalize, trim. split; [|apply trimEnd_no_trailing_space].
  destruct (trimEnd_prefix (trimStart (collapseSpaces
              (List.map (fun c => if (c =? NBSP)%N then SPACE else c) t)))) as [k Hk].
  eapply spaced_prefix. rewrite <- Hk. unfold trimStart.
  eapply spaced_dropWhile. apply collapseFrom_spaced.
Qed.

Lemma normalize_fixed s :
  spaced true s = true → headIs isSpace (rev s) = false → normalize s = s.
Proof.
  intros Hs Hend. unfold normalize.
  assert (List.map (fun c => if (c =? NBSP)%N then SPACE else c) s = s) as ->.
  { rewrite <- (map_id s) at 2. apply map_ext_in. intros c Hc.
    destruct (c =? NBSP)%N eqn:Heq; [|done]. apply N.eqb_eq in Heq. subst c.
    apply list_elem_of_In in Hc. by pose proof (spaced_units _ _ _ Hs Hc eq_refl). }
  unfold collapseSpaces. rewrite (collapseFrom_fixed _ _ (spaced_weaken _ Hs)).
  unfold trim, trimStart. rewrite (dropWhile_fixed _ _ (spaced_head _ Hs)).
  by apply trimEnd_fixed.
Qed.

(** What [cleanText] returns is tidy: its only white space is the plain
    space (no line break, tab or no-break space), never at either end and
    never twice in a row; and cleaning it again changes nothing. *)
Theorem cleanText_tidy (t : jsstring) :
  let s := cleanText t in
  (∀ c, c ∈ s → isSpace c = true → c = SPACE)
  ∧ headIs isSpace s = false
  ∧ headIs isSpace (rev s) = false
  ∧ (∀ i, s !! i = Some SPACE → s !! (S i) ≠ Some SPACE)
  ∧ cleanText s = s.
Proof.
  cbv zeta.
  assert (spaced true (cleanText t) = true
          ∧ headIs isSpace (rev (cleanText t)) = false
          ∧ cleanText (cleanText t) = cleanText t) as (Hs & Hend & Hfix).
  { destruct (normalize_spaced t) as [Hs Hend].
    assert (cleanText t = []
            ∨ (cleanText t = normalize t ∧ truthy (normalize t) = true
               ∧ truthy (trim (stripBulletGlyphs (normalize t))) = true
               ∧ looksLikeCode (normalize t) = false)) as Hcases.
    { unfold cleanText.
      destruct (truthy (normalize t)); cbn [negb]; [|by left].
      destruct (truthy (trim (stripBulletGlyphs (normalize t)))); cbn [negb]; [|by left].
      destruct (looksLikeCode (normalize t)); [by left|by right]. }
    destruct Hcases as [->|(-> & H1 & H2 & H3)]; [done|].
    split; [done|]. split; [done|].
    unfold cleanText. rewrite (normalize_fixed _ Hs Hend), H1, H2, H3. done. }
  split; [intros c; by apply spaced_units with (b := true)|].
  split; [by apply spaced_head|]. split; [done|].
  split; [intros i; by apply spaced_no_double with (b := true)|done].
Qed.

(** ** The budget of the shell pass *)

(** The steps that leave the mode flags to the emission engine: calls of
    [addLine] and of [registerLink]. *)
Inductive quietStep (cfg : Config) : State -> State -> Prop :=
| quiet_addLine line linkRef st : quietStep cfg st (addLine cfg line linkRef st).2
| quiet_registerLink url st : quietStep cfg st (registerLink url st).2.

Definition Quiet cfg {A} (m : M A) : Prop := ∀ st, rtc (quietStep cfg) st (m st).2.

Lemma Quiet_ret cfg {A} (a : A) : Quiet cfg (ret a).
Proof. intros st. apply rtc_refl. Qed.

Lemma Quiet_gets cfg {A} (f : State -> A) : Quiet cfg (gets f).
Proof. intros st. apply rtc_refl. Qed.

Lemma Quiet_bind cfg {A B} (m : M A) (k : A -> M B) :
  Quiet cfg m → (∀ a, Quiet cfg (k a)) → Quiet cfg (bind m k).
Proof.
  intros Hm Hk st. unfold bind. specialize (Hm st).
  destruct (m st) as [a st1]. eapply rtc_trans; [exact Hm|apply Hk].
Qed.

Lemma Quiet_addLine cfg line linkRef : Quiet cfg (addLine cfg line linkRef).
Proof. intros st. apply rtc_once, quiet_addLine. Qed.

Lemma Quiet_registerLink cfg url : Quiet cfg (registerLink url).
Proof. intros st. apply rtc_once, quiet_registerLink. Qed.

Lemma Quiet_forEach cfg {A} (xs : list A) (body : A -> M unit) :
  (∀ x, Quiet cfg (body x)) → Quiet cfg (forEach xs body).
Proof.
  intros Hb. induction xs as [|x xs IH]; cbn [forEach]; [apply Quiet_ret|].
  apply Quiet_bind; [apply Hb|intros _; exact IH].
Qed.

Lemma Quiet_forEachUntilTruncated cfg {A} (xs : list A) (body : A -> M unit) :
  (∀ x, Quiet cfg (body x)) → Quiet cfg (forEachUntilTruncated xs body).
Proof.
  intros Hb. induction xs as [|x xs IH]; cbn [forEachUntilTruncated]; [apply Quiet_ret|].
  apply Quiet_bind; [apply Hb|intros _].
  apply Quiet_bind; [apply Quiet_gets|intros []; [apply Quiet_ret|exact IH]].
Qed.

Lemma Quiet_forEachWhileOpen cfg {A} (xs : list A) (body : A -> M unit) :
  (∀ x, Quiet cfg (body x)) → Quiet cfg (forEachWhileOpen xs body).
Proof.
  intros Hb. induction xs as [|x xs IH]; cbn [forEachWhileOpen]; [apply Quiet_ret|].
  apply Quiet_bind; [apply Quiet_gets|intros []; [apply Quiet_ret|]].
  apply Quiet_bind; [apply Hb|intros _; exact IH].
Qed.

Create HintDb quiet discriminated.

Hint Resolve Quiet_ret Quiet_gets Quiet_addLine Quiet_registerLink : quiet.

Ltac by_quiet :=
  repeat first
    [ progress (cbv zeta)
    | solve [eauto 2 with quiet]
    | apply Quiet_bind; [|intros ?]
    | apply Quiet_forEach; intros ?
    | apply Quiet_forEachUntilTruncated; intros ?
    | apply Quiet_forEachWhileOpen; intros ?
    | match goal with
      | |- Quiet _ (if ?b then _ else _) => destruct b
      | |- Quiet _ (match ?o with _ => _ end) => destruct o
      end ].

Lemma Quiet_emitHiddenHeading cfg el : Quiet cfg (emitHiddenHeading cfg el).
Proof. unfold emitHiddenHeading. by_quiet. Qed.

Lemma Quiet_shouldSkip cfg doc rs srs el : Quiet cfg (shouldSkip cfg doc rs srs el).
Proof. unfold shouldSkip. by_quiet. Qed.

Lemma Quiet_getLinkRef cfg el : Quiet cfg (getLinkRef cfg el).
Proof. unfold getLinkRef. by_quiet. Qed.

Hint Resolve Quiet_emitHiddenHeading Quiet_shouldSkip Quiet_getLinkRef : quiet.

Lemma Quiet_collectInlineText cfg n : ∀ p, Quiet cfg (collectInlineText cfg p n).
Proof.
  induction n as [data| |e kids IH] using Node_nested_ind; intros p; cbn [collectInlineText];
    [apply Quiet_ret|apply Quiet_ret|].
  apply Quiet_bind; [|intros ?; apply Quiet_ret].
  generalize 0 as i.
  induction IH as [|k ks Hk _ IHks]; intros i; [apply Quiet_ret|].
  apply Quiet_bind; [|intros ?; apply Quiet_bind; [apply IHks|intros ?; apply Quiet_ret]].
  destruct k as [data| |ce ckids]; [apply Quiet_ret|apply Quiet_ret|].
  by_quiet.
Qed.

Hint Resolve Quiet_collectInlineText : quiet.

Lemma Quiet_extractInlineText cfg el : Quiet cfg (extractInlineText cfg el).
Proof. unfold extractInlineText. by_quiet. Qed.

Hint Resolve Quiet_extractInlineText : quiet.

Lemma Quiet_firstLabel cfg eligible limit cands :
  Quiet cfg (firstLabel cfg eligible limit cands).
Proof. induction cands as [|c rest IH]; cbn [firstLabel]; by_quiet. Qed.

Hint Resolve Quiet_firstLabel : quiet.

Lemma Quiet_findGroupLabel cfg doc el : Quiet cfg (findGroupLabel cfg doc el).
Proof. unfold findGroupLabel. by_quiet. Qed.

Lemma Quiet_extractTexts cfg nodes : Quiet cfg (extractTexts cfg nodes).
Proof. induction nodes as [|n rest IH]; cbn [extractTexts]; by_quiet. Qed.

Hint Resolve Quiet_findGroupLabel Quiet_extractTexts : quiet.

Lemma Quiet_extractFilterGroup cfg doc rs el :
  Quiet cfg (extractFilterGroup cfg doc rs el).
Proof. unfold extractFilterGroup. by_quiet. Qed.

Hint Resolve Quiet_extractFilterGroup : quiet.

Lemma Quiet_handleList cfg visit el depth listDepth :
  (∀ item d l, Quiet cfg (visit item d l)) →
  Quiet cfg (handleList cfg visit el depth listDepth).
Proof. intros Hw. unfold handleList. by_quiet. Qed.

(** The walk itself never assigns the mode flags. *)
Lemma Quiet_walk cfg doc rs srs fuel :
  ∀ el depth listDepth, Quiet cfg (walk cfg doc rs srs fuel el depth listDepth).
Proof.
  induction fuel as [|fuel IH]; intros el depth listDepth; cbn [walk]; [apply Quiet_ret|].
  by_quiet; try apply IH; apply Quiet_handleList, IH.
Qed.

(** What quiet steps keep while the shell mode is on: the flags, and the
    sum of the items emitted and of the budget that remains. *)
Lemma quiet_steps_shell_budget cfg st st' :
  rtc (quietStep cfg) st st' →
  shellMode st = true → (0 <= shellRemaining st)%Z →
  shellMode st' = true ∧ walkMode st' = walkMode st
  ∧ (0 <= shellRemaining st' <= shellRemaining st)%Z
  ∧ (Z.of_nat (itemCount st') + shellRemaining st'
     = Z.of_nat (itemCount st) + shellRemaining st)%Z
  ∧ (Z.of_nat (length (lines st')) + shellRemaining st'
     = Z.of_nat (length (lines st)) + shellRemaining st)%Z.
Proof.
  intros Hsteps Hsm Hrem. revert st' Hsteps. apply rtc_ind_r; [repeat split; (done || lia)|].
  intros st1 st2 _ Hstep (Hsm1 & Hwm1 & Hrem1 & Hsum1 & Hlen1).
  destruct Hstep as [line linkRef st1|url st1].
  - rewrite addLine_unfold.
    destruct (truncated st1); [done|]. rewrite Hsm1. cbn [andb].
    destruct (shellRemaining st1 <=? 0)%Z eqn:Hle; [done|]. apply Z.leb_gt in Hle.
    destruct (negb _); [done|]. destruct (_ && _ && _); [done|].
    destruct (reaches _ _); [done|]. cbv zeta.
    assert (∀ l, let st3 := pushLine l st1 in
              shellMode st3 = true ∧ walkMode st3 = walkMode st
              ∧ (0 <= shellRemaining st3 <= shellRemaining st)%Z
              ∧ (Z.of_nat (itemCount st3) + shellRemaining st3
                 = Z.of_nat (itemCount st) + shellRemaining st)%Z
              ∧ (Z.of_nat (length (lines st3)) + shellRemaining st3
                 = Z.of_nat (length (lines st)) + shellRemaining st)%Z) as Hpush.
    { intros l. cbn. rewrite Hsm1, length_app. cbn. repeat split; try done; lia. }
    destruct (dedupeEnabled cfg); [|apply Hpush].
    match goal with |- context [rememberFingerprint cfg ?fp (pushLine ?l st1)] =>
      destruct (rememberFingerprint_fields cfg fp (pushLine l st1))
        as (-> & _ & -> & _ & _ & _ & -> & -> & ->); apply (Hpush l)
    end.
  - by destruct (registerLink_fields url st1) as (-> & _ & -> & _ & _ & -> & -> & ->).
Qed.

(** The shell pass appends at most 60 lines, whatever the shell regions
    hold, and leaves the mode flags as it found them. *)
Theorem shell_pass_budget
    (cfg : Config) (doc : Node) (rootSet shellRootSet : gset (list nat))
    (shellRoots : list Element) (st : State) :
  let st' := (shellPass cfg doc rootSet shellRootSet shellRoots st).2 in
  itemCount st ≤ itemCount st' ∧ itemCount st' ≤ itemCount st + 60
  ∧ length (lines st) ≤ length (lines st') ∧ length (lines st') ≤ length (lines st) + 60
  ∧ shellMode st' = shellMode st
  ∧ shellRemaining st' = shellRemaining st
  ∧ walkMode st' = walkMode st.
Proof.
  cbv zeta. unfold shellPass.
  destruct (includeShell cfg && (0 <? length shellRoots)); [|cbn; repeat split; lia].
  unfold withShellMode, bind, gets, modify.
  set (loop := forEachWhileOpen shellRoots
                 (fun root => walk cfg doc rootSet shellRootSet (levels root) root 0 0)).
  pose proof (Quiet_forEachWhileOpen cfg shellRoots
                (fun root => walk cfg doc rootSet shellRootSet (levels root) root 0 0)
                (fun root => Quiet_walk cfg doc rootSet shellRootSet _ root 0 0)
                (setMode true 60 ShellModeWalk st)) as Hq.
  fold loop in Hq.
  destruct (quiet_steps_shell_budget cfg _ _ Hq eq_refl) as (_ & _ & Hrem & Hsum & Hlen);
    [cbn; lia|].
  destruct (loop (setMode true 60 ShellModeWalk st)) as [[] st1].
  cbn in Hrem, Hsum, Hlen |- *. repeat split; lia.
Qed.

(** ** Suppression, one fingerprint at a time *)

(** The steps of a call that hand the engine no candidate that starts with
    [#] and has the fingerprint [fp]. *)
Inductive stepSparing (cfg : Config) (fp : jsstring) : State -> State -> Prop :=
| sparing_addLine line linkRef st :
    (startsWith (normalizeBullets (cleanText line)) (lit "#") = true →
     fingerprintLine (normalizeBullets (cleanText line)) ≠ fp) →
    stepSparing cfg fp st (addLine cfg line linkRef st).2
| sparing_registerLink url st : stepSparing cfg fp st (registerLink url st).2
| sparing_setMode sm sr wm st : stepSparing cfg fp st (setMode sm sr wm st).

Lemma stepSparing_step cfg fp st st' : stepSparing cfg fp st st' → step cfg st st'.
Proof. intros [line linkRef st0 _|url st0|sm sr wm st0]; constructor. Qed.

Lemma stepsSparing_reachable cfg fp st :
  rtc (stepSparing cfg fp) initialState st → reachable cfg st.
Proof.
  unfold reachable. generalize initialState. induction 1 as [|st0 st1 st2 Hstep _ IH].
  - apply rtc_refl.
  - eapply rtc_l; [by eapply stepSparing_step|exact IH].
Qed.

(** How often [fp] is in a window. *)
Definition copies (fp : jsstring) (w : list jsstring) : nat :=
  length (filter (fun x => x = fp) w).

Lemma copies_app fp w1 w2 : copies fp (w1 ++ w2) = copies fp w1 + copies fp w2.
Proof. unfold copies. by rewrite filter_app, length_app. Qed.

Lemma copies_cons fp x w :
  copies fp (x :: w) = (if decide (x = fp) then 1 else 0) + copies fp w.
Proof.
  unfold copies. destruct (decide (x = fp)).
  - by rewrite filter_cons_True.
  - by rewrite filter_cons_False.
Qed.

Lemma copies_elem_of fp w : fp ∈ w ↔ 0 < copies fp w.
Proof.
  induction w as [|x w IH]; [split; [by intros ?%elem_of_nil|cbn; lia]|].
  rewrite copies_cons, elem_of_cons, IH. destruct (decide (x = fp)); [|split].
  - split; [lia|by left].
  - intros [?|?]; [congruence|lia].
  - intros ?. right. lia.
Qed.

(** [fp] is in the window once at most, and then in the membership set. *)
Definition keptOnce (fp : jsstring) st : Prop :=
  copies fp (fingerprintWindow st) ≤ 1
  ∧ (fp ∈ fingerprintWindow st → fp ∈ fingerprintSet st).

Lemma rememberFingerprint_keptOnce cfg fp pushed st :
  keptOnce fp st → (pushed = fp → fp ∉ fingerprintSet st) →
  keptOnce fp (rememberFingerprint cfg pushed st).
Proof.
  intros [Hcount Hin] Hfresh. unfold keptOnce.
  rewrite rememberFingerprint_window, rememberFingerprint_set.
  assert (copies fp (fingerprintWindow st ++ [pushed]) ≤ 1
          ∧ (fp ∈ fingerprintWindow st ++ [pushed] → fp ∈ {[pushed]} ∪ fingerprintSet st))
    as [Hcount1 Hin1].
  { rewrite copies_app, copies_cons. cbn. split.
    - destruct (decide (pushed = fp)) as [Heq|]; [|lia].
      assert (¬ 0 < copies fp (fingerprintWindow st)); [|lia].
      rewrite <- copies_elem_of. intros Hw. by apply (Hfresh Heq), Hin.
    - intros [Hw| ->%list_elem_of_singleton]%elem_of_app.
      + apply elem_of_union_r. by apply Hin.
      + apply elem_of_union_l. by apply elem_of_singleton. }
  destruct (lessThan (dedupeWindow cfg) _); [|done].
  destruct (fingerprintWindow st ++ [pushed]) as [|removed rest]; [done|].
  change (drop 1 (removed :: rest)) with rest.
  change (head (removed :: rest)) with (Some removed). cbv iota.
  rewrite copies_cons in Hcount1. split; [lia|].
  intros Hrest. assert (fp ∈ {[pushed]} ∪ fingerprintSet st) as Hset
    by (apply Hin1; by right).
  destruct (truthy removed); [|done].
  apply elem_of_difference. split; [done|]. intros Heq%elem_of_singleton.
  apply copies_elem_of in Hrest. destruct (decide (removed = fp)); [lia|congruence].
Qed.

Lemma stepSparing_keptOnce cfg fp st st' :
  dedupeEnabled cfg = true →
  stepSparing cfg fp st st' → keptOnce fp st → keptOnce fp st'.
Proof.
  intros Hde [line linkRef st0 Hspare|url st0|sm sr wm st0] Hinv.
  - rewrite addLine_unfold.
    destruct (truncated st0); [done|].
    destruct (shellMode st0 && _); [done|].
    destruct (negb _); [done|].
    rewrite Hde. cbn [andb].
    destruct (startsWith (normalizeBullets (cleanText line)) (lit "#")) eqn:Hhead;
      cbn [negb andb].
    + destruct (reaches (itemCount st0) (maxItems cfg)); [done|]. cbv zeta.
      apply rememberFingerprint_keptOnce; [done|]. intros Heq. by destruct (Hspare eq_refl).
    + destruct (bool_decide _) eqn:Hdup; [done|].
      destruct (reaches (itemCount st0) (maxItems cfg)); [done|]. cbv zeta.
      apply rememberFingerprint_keptOnce; [done|]. intros <-.
      by apply bool_decide_eq_false in Hdup.
  - unfold keptOnce.
    by destruct (registerLink_fields url st0) as (_ & _ & _ & -> & -> & _).
  - done.
Qed.

(** Duplicate suppression, as far as the code provides it.  A fingerprint
    stays in the membership set for as long as it is in the window, and is
    in the window once at most, as long as no candidate that starts with
    [#] and has this fingerprint is handed to the engine (headings with
    other fingerprints may repeat at will).  A candidate that does not
    start with [#] and has such a fingerprint is then dropped while the
    fingerprint is in the window, and is appended, budgets permitting, when
    the fingerprint is not or no longer there, its fingerprint entering
    the window and the oldest one leaving a window that has grown past
    [dedupeWindow].  The window is never longer than a whole number that
    [dedupeWindow] does not exceed. *)
Theorem duplicate_dropped_while_in_window (cfg : Config) (fp : jsstring) (st : State) :
  dedupeEnabled cfg = true →
  rtc (stepSparing cfg fp) initialState st →
  (∀ m, atMost (dedupeWindow cfg) (ofNat m) = true → length (fingerprintWindow st) ≤ m)
  ∧ copies fp (fingerprintWindow st) ≤ 1
  ∧ (fp ∈ fingerprintWindow st → fp ∈ fingerprintSet st)
  ∧ (truthy fp = true → fp ∈ fingerprintSet st → fp ∈ fingerprintWindow st)
  ∧ ∀ line linkRef,
      let cleaned := normalizeBullets (cleanText line) in
      let st' := (addLine cfg line linkRef st).2 in
      fingerprintLine cleaned = fp →
      startsWith cleaned (lit "#") = false →
      (fp ∈ fingerprintWindow st → st' = st)
      ∧ (truthy fp = true →
         fp ∉ fingerprintWindow st →
         truncated st = false →
         (shellMode st && (shellRemaining st <=? 0)%Z) = false →
         truthy cleaned = true →
         reaches (itemCount st) (maxItems cfg) = false →
         lines st' = lines st ++ [trimLine cfg (decorateLine cleaned linkRef)]
         ∧ fingerprintWindow st'
           = (if lessThan (dedupeWindow cfg) (ofNat (length (fingerprintWindow st) + 1))
              then drop 1 (fingerprintWindow st ++ [fp])
              else fingerprintWindow st ++ [fp])).
Proof.
  intros Hde Hsteps.
  assert (keptOnce fp st) as [Hcount Hin].
  { revert st Hsteps. apply rtc_ind_r.
    - split; [cbn; lia|by intros ?%elem_of_nil].
    - intros st0 st1 _ Hstep IH. by eapply stepSparing_keptOnce. }
  destruct (reachable_windowInv cfg st (stepsSparing_reachable cfg fp st Hsteps))
    as [Hlen Hsub].
  split; [exact Hlen|]. split; [exact Hcount|]. split; [exact Hin|].
  split; [apply Hsub|].
  intros line linkRef cleaned st' Hfp Hnh. subst st'. split.
  - intros Hw. rewrite addLine_unfold. fold cleaned. rewrite Hfp, Hnh, Hde.
    rewrite (bool_decide_eq_true_2 _ (Hin Hw)). cbn [negb andb].
    repeat match goal with |- context [if ?b then _ else _] => destruct b end; done.
  - intros Hne Hout Ht Hs Hc Hr.
    assert ((dedupeEnabled cfg && negb (startsWith cleaned (lit "#"))
             && bool_decide (fingerprintLine cleaned ∈ fingerprintSet st)) = false) as Hd.
    { rewrite Hde, Hnh, Hfp. cbn [negb andb]. apply bool_decide_eq_false.
      intros Hset. by apply Hout, Hsub. }
    split; [by apply addLine_emits_lines|].
    rewrite (addLine_emits cfg line linkRef st Ht Hs Hc Hd Hr). fold cleaned.
    rewrite Hde, Hfp, rememberFingerprint_window. cbn [pushLine fingerprintWindow].
    by rewrite length_app.
Qed.

End Properties.

(** * Scenarios

    The theorems above at concrete inputs, and the inputs at which the
    specification's wording and the code part ways; all of them are
    evaluated with [asciiRuntime]. *)

(** Splits a conjunction into its parts, and nothing else. *)
Ltac conjuncts := repeat match goal with |- _ ∧ _ => split end.

(** C1 is false as stated: with [maxItems: 2.5] the page of three
    paragraphs gives three items, which is more than [maxItems]; the flag is
    set by the fourth candidate. *)
Lemma item_budget_counterexample :
  ∃ r, getReadableText (rt := asciiRuntime) threeParagraphs (itemBudget (halves 5)) = Some r
       ∧ Stats.items (Result.stats r) = 3
       ∧ lessThan (halves 5) (ofNat (Stats.items (Result.stats r))) = true
       ∧ Result.truncated r = true
       ∧ splitOn (N.eqb NEWLINE) (Result.text r)
         = [lit "Hello world"; lit "More"; lit "[link]@L1"].
Proof. eexists. conjuncts; vm_compute; reflexivity. Qed.

Lemma item_budget_respected_witness :
  ∃ r, (getReadableText (rt := asciiRuntime) threeParagraphs oneItem = Some r
        ∧ Result.truncated r = true
        ∧ Stats.items (Result.stats r) ≤ 1)
       ∧ ∃ r', getReadableText (rt := asciiRuntime) threeParagraphs (itemBudget (halves 5))
               = Some r'
               ∧ Stats.items (Result.stats r') ≤ 3.
Proof.
  assert (∃ r, getReadableText (rt := asciiRuntime) threeParagraphs oneItem = Some r
               ∧ Result.truncated r = true) as (r & H & Ht)
    by (eexists; split; vm_compute; reflexivity).
  assert (∃ r', getReadableText (rt := asciiRuntime) threeParagraphs (itemBudget (halves 5))
                = Some r') as (r' & H')
    by (eexists; vm_compute; reflexivity).
  exists r. split.
  - split; [exact H|]. split; [exact Ht|].
    apply (proj1 (item_budget_respected (rt := asciiRuntime) _ _ _ H) 1).
    vm_compute. reflexivity.
  - exists r'. split; [exact H'|].
    apply (proj1 (proj2 (item_budget_respected (rt := asciiRuntime) _ _ _ H'))
             (halves 5) 3); [reflexivity|vm_compute; reflexivity|lia].
Defined.

(** C2 is false as stated: with [maxLineLength: 100] the page whose root is
    an article has a line of 126 characters in its text. *)
Lemma line_length_counterexample :
  ∃ r, getReadableText (rt := asciiRuntime) articlePage
         (options None None (Some 100%Z) None None) = Some r
       ∧ head (splitOn (N.eqb NEWLINE) (Result.text r)) = Some (lit sentence)
       ∧ length (lit sentence) = 126.
Proof. eexists. conjuncts; vm_compute; reflexivity. Qed.

Lemma line_length_effective_limit_witness :
  ∃ r ls,
    getReadableText (rt := asciiRuntime) articlePage
      (options None None (Some 100%Z) None None) = Some r
    ∧ Result.text r = join [NEWLINE] ls
    ∧ Forall (fun l => length l ≤ 360) ls.
Proof.
  assert (∃ r, getReadableText (rt := asciiRuntime) articlePage
                 (options None None (Some 100%Z) None None) = Some r) as [r Hr]
    by (eexists; vm_compute; reflexivity).
  destruct (line_length_effective_limit (rt := asciiRuntime) _ _ _ Hr)
    as (cfg & doc & roots & shellRoots & ls & _ & Htext & _ & _ & _ & Hlim & _).
  destruct (Hlim 100%Z eq_refl) as (limit & _ & Hwhich & Hall).
  exists r, ls. split; [exact Hr|]. split; [exact Htext|].
  eapply Forall_impl; [exact Hall|]. intros l Hl. simpl in Hl.
  destruct Hwhich as [->|[-> _]]; vm_compute in Hl |- *; lia.
Defined.

(** C3 is false as stated: in compact mode the widget's line starts with a
    list marker and shows [+2 more] as a fifth item; nothing is folded,
    since only an item that is a plus sign and digits to its end is. *)
Lemma colour_widget_counterexample :
  ∃ r, getReadableText (rt := asciiRuntime) (colourWidget "+2 more")
         (options None None None None (Some Compact)) = Some r
       ∧ splitOn (N.eqb NEWLINE) (Result.text r)
         = [lit "Color"; lit "- Color: Red, Green, Blue, Yellow, +2 more"]
       ∧ includes (Result.text r) (lit "(+2 more)") = false.
Proof. eexists. conjuncts; vm_compute; reflexivity. Qed.

(** C3, as the code has it.  For the document of the scenario, in compact
    mode, the widget's line is [- Color: Red, Green, Blue, Yellow, +2 more]:
    the caption [+2 more] does not have the form that is folded.  When the
    fifth button is labelled [+2] it is folded into the counted remainder
    and the line is [- Color: Red, Green, Blue, Yellow (+2 more)]. *)
Theorem colour_widget_line :
  (Result.text <$> getReadableText (rt := asciiRuntime) (colourWidget "+2 more")
                     (options None None None None (Some Compact)))
  = Some (lit "Color" ++ [NEWLINE]
          ++ lit "- Color: Red, Green, Blue, Yellow, +2 more")
  ∧ (Result.text <$> getReadableText (rt := asciiRuntime) (colourWidget "+2")
                       (options None None None None (Some Compact)))
    = Some (lit "Color" ++ [NEWLINE]
            ++ lit "- Color: Red, Green, Blue, Yellow (+2 more)")
  ∧ plusCount (lit "+2 more") = None
  ∧ plusCount (lit "+2") = Some 2.
Proof. conjuncts; vm_compute; reflexivity. Qed.

(** C4 is false as stated: the fingerprint of an emitted heading is in the
    window and in the membership set; a later line with that fingerprint
    that does not start with [#] is dropped, though alone it is emitted;
    and a heading pushed into a full window evicts the oldest fingerprint,
    whose line is then emitted again. *)
Lemma heading_fingerprint_counterexample :
  let cfg := resolve defaults in
  let st1 := (addLine (rt := asciiRuntime) cfg (lit "# A") None initialState).2 in
  let cfg10 := resolve (options None None None (Some 10%Z) None) in
  let full := (emitAll (rt := asciiRuntime) cfg10 (lit "l0" :: nineLines) initialState).2 in
  let after := (addLine (rt := asciiRuntime) cfg10 (lit "# A") None full).2 in
  fingerprintWindow st1 = [lit "# a"]
  ∧ bool_decide (lit "# a" ∈ fingerprintSet st1) = true
  ∧ lines (addLine (rt := asciiRuntime) cfg dottedLine None st1).2 = lines st1
  ∧ lines (addLine (rt := asciiRuntime) cfg dottedLine None initialState).2 = [dottedLine]
  ∧ head (fingerprintWindow full) = Some (lit "l0")
  ∧ lines (addLine (rt := asciiRuntime) cfg10 (lit "l0") None full).2 = lines full
  ∧ fingerprintWindow after = List.map lit
      ["l1"; "l2"; "l3"; "l4"; "l5"; "l6"; "l7"; "l8"; "l9"; "# a"]%string
  ∧ lines (addLine (rt := asciiRuntime) cfg10 (lit "l0") None after).2
    = lines after ++ [lit "l0"].
Proof. cbv zeta. conjuncts; vm_compute; reflexivity. Qed.

Lemma heading_bypasses_and_enters_window_witness :
  let cfg := resolve defaults in
  let st1 := (addLine (rt := asciiRuntime) cfg (lit "# A") None initialState).2 in
  lines (addLine (rt := asciiRuntime) cfg (lit "# A") None st1).2 = [lit "# A"; lit "# A"].
Proof.
  cbv zeta.
  set (cfg := resolve defaults).
  set (st1 := (addLine (rt := asciiRuntime) cfg (lit "# A") None initialState).2).
  assert (startsWith (normalizeBullets (cleanText (lit "# A"))) (lit "#") = true) as H1
    by (vm_compute; reflexivity).
  assert (truncated st1 = false) as H2 by (vm_compute; reflexivity).
  assert ((shellMode st1 && (shellRemaining st1 <=? 0)%Z) = false) as H3
    by (vm_compute; reflexivity).
  assert (reaches (itemCount st1) (maxItems cfg) = false) as H4
    by (vm_compute; reflexivity).
  rewrite (proj1 (heading_bypasses_and_enters_window (rt := asciiRuntime)
                    cfg (lit "# A") None st1 H1 H2 H3 H4)).
  vm_compute. reflexivity.
Defined.

(** C5 at the input where the code breaks it: with a window of ten, of two
    candidates that do not start with [#] and have the same fingerprint
    both are emitted, the second after a heading with that fingerprint and
    nine other lines, although the fingerprint is in the window after each
    of these candidates.  (The heading has pushed the fingerprint a second
    time; when the first copy leaves the window the fingerprint is deleted
    from the membership set, while the second copy is still in the
    window.) *)
Lemma duplicate_emitted_within_window :
  let cfg10 := resolve (options None None None (Some 10%Z) None) in
  let between := lit "# A" :: nineLines in
  let state k :=
    (emitAll (rt := asciiRuntime) cfg10 (dottedLine :: take k between) initialState).2 in
  startsWith (normalizeBullets (cleanText dottedLine)) (lit "#") = false
  ∧ fingerprintLine (rt := asciiRuntime) (normalizeBullets (cleanText dottedLine))
    = lit "# a"
  ∧ lines (state 0) = [dottedLine]
  ∧ List.forallb (fun k => bool_decide (lit "# a" ∈ fingerprintWindow (state k)))
      (seq 0 11) = true
  ∧ fingerprintWindow (state 1) = [lit "# a"; lit "# a"]
  ∧ length (fingerprintWindow (state 10)) = 10
  ∧ bool_decide (lit "# a" ∈ fingerprintSet (state 10)) = false
  ∧ lines (addLine (rt := asciiRuntime) cfg10 dottedLine None (state 10)).2
    = lines (state 10) ++ [dottedLine]
  ∧ ∃ r, getReadableText (rt := asciiRuntime) repeatedLine
           (options None None None (Some 10%Z) None) = Some r
         ∧ splitOn (N.eqb NEWLINE) (Result.text r)
           = [dottedLine; lit "# A"] ++ nineSentences ++ [dottedLine].
Proof.
  cbv zeta. conjuncts; try (vm_compute; reflexivity).
  eexists. split; vm_compute; reflexivity.
Qed.

(** After the heading [# A] has been emitted twice, the line [x] is still
    emitted once only: no heading has its fingerprint. *)
Lemma duplicate_dropped_while_in_window_witness :
  let cfg10 := resolve (options None None None (Some 10%Z) None) in
  let st1 := (addLine (rt := asciiRuntime) cfg10 (lit "# A") None initialState).2 in
  let st2 := (addLine (rt := asciiRuntime) cfg10 (lit "# A") None st1).2 in
  let st3 := (addLine (rt := asciiRuntime) cfg10 (lit "x") None st2).2 in
  fingerprintWindow st3 = [lit "# a"; lit "# a"; lit "x"]
  ∧ lines st3 = [lit "# A"; lit "# A"; lit "x"]
  ∧ (addLine (rt := asciiRuntime) cfg10 (lit "x") None st3).2 = st3.
Proof.
  intros cfg10 st1 st2 st3.
  split; [vm_compute; reflexivity|]. split; [vm_compute; reflexivity|].
  assert (∀ st, stepSparing (rt := asciiRuntime) cfg10 (lit "x") st
                  (addLine (rt := asciiRuntime) cfg10 (lit "# A") None st).2) as Hhead.
  { intros st. apply (sparing_addLine (rt := asciiRuntime)). intros _ Heq.
    vm_compute in Heq. discriminate Heq. }
  assert (∀ st, stepSparing (rt := asciiRuntime) cfg10 (lit "x") st
                  (addLine (rt := asciiRuntime) cfg10 (lit "x") None st).2) as Hplain.
  { intros st. apply (sparing_addLine (rt := asciiRuntime)). intros Hh.
    vm_compute in Hh. discriminate Hh. }
  assert (rtc (stepSparing (rt := asciiRuntime) cfg10 (lit "x")) initialState st3) as Hsteps.
  { eapply rtc_l; [apply (Hhead initialState)|].
    eapply rtc_l; [apply (Hhead st1)|]. apply rtc_once, (Hplain st2). }
  destruct (duplicate_dropped_while_in_window (rt := asciiRuntime)
              cfg10 (lit "x") st3 eq_refl Hsteps) as (_ & _ & _ & _ & Hcall).
  apply (Hcall (lit "x") None); [vm_compute; reflexivity|vm_compute; reflexivity|].
  apply (bool_decide_eq_true_1 (lit "x" ∈ fingerprintWindow st3)).
  vm_compute. reflexivity.
Defined.

Lemma link_references_stable_witness :
  let cfg := resolve defaults in
  let st := (registerLink (lit " https://example.org/a ") initialState).2 in
  linkList st = [{| ref := lit "L1"; href := lit "https://example.org/a" |}]
  ∧ registerLink (lit "https://example.org/a") st = (Some (lit "@L1"), st)
  ∧ (registerLink (lit "https://example.org/b") st).1 = Some (lit "@L2")
  ∧ ∀ k e, linkList st !! k = Some e →
      ref e = lit "L" ++ decimal (k + 1) ∧ referenceNumber (ref e) = k + 1.
Proof.
  cbv zeta.
  set (cfg := resolve defaults).
  set (st := (registerLink (lit " https://example.org/a ") initialState).2).
  assert (reachable (rt := asciiRuntime) cfg st) as Hreach
    by (apply rtc_once; apply (step_registerLink (rt := asciiRuntime))).
  conjuncts; [vm_compute; reflexivity|vm_compute; reflexivity|vm_compute; reflexivity|].
  exact (proj1 (link_references_stable (rt := asciiRuntime) cfg st Hreach)).
Defined.

(** C7 is false as stated: with [maxListItems: 1] two lists of three items
    each give one summary line, not two (the second is dropped as a
    duplicate of the first), and the items beyond the limit are emitted as
    item lines all the same, by the fallback pass.  [handleList] on the
    second list, in the state that the first left, appends its first item
    and nothing else.  With [maxListItems: 2.5] all three items of a list
    are walked, and the summary line counts [0.5 more]. *)
Lemma list_summary_counterexample :
  let opts := options None (Some 1%Z) None None None in
  (∃ r, getReadableText (rt := asciiRuntime) twoLists opts = Some r
        ∧ splitOn (N.eqb NEWLINE) (Result.text r)
          = [lit "- a"; moreLine (rt := asciiRuntime) (ofNat 2); lit "- d";
             lit "- b"; lit "- c"; lit "- e"; lit "- f"])
  ∧ (∃ doc first second,
      document twoLists = Some doc
      ∧ elementAt doc [0; 0] = Some first
      ∧ elementAt doc [0; 1] = Some second
      ∧ let visit := walk (rt := asciiRuntime) (resolve opts) doc {[ [0] ]} ∅ 6 in
        let st1 := (handleList (rt := asciiRuntime) (resolve opts) visit first 1 0
                      initialState).2 in
        let st2 := (handleList (rt := asciiRuntime) (resolve opts) visit second 1 0 st1).2 in
        length (List.filter (fun child => tagIs (tagOf (rt := asciiRuntime) child) "li")
                  (children second)) = 3
        ∧ lines st1 = [lit "- a"; moreLine (rt := asciiRuntime) (ofNat 2)]
        ∧ lines st2 = [lit "- a"; moreLine (rt := asciiRuntime) (ofNat 2); lit "- d"])
  ∧ ∃ r, getReadableText (rt := asciiRuntime) twoLists (listBudget (halves 5)) = Some r
         ∧ splitOn (N.eqb NEWLINE) (Result.text r)
           = [lit "- a"; lit "- b"; lit "- c";
              lit "- " ++ [ELLIPSIS] ++ lit " (0.5 more)";
              lit "- d"; lit "- e"; lit "- f"].
Proof.
  cbv zeta. split; [|split].
  - eexists. split; vm_compute; reflexivity.
  - do 3 eexists. split; [reflexivity|]. split; [vm_compute; reflexivity|].
    split; [vm_compute; reflexivity|]. conjuncts; vm_compute; reflexivity.
  - eexists. split; vm_compute; reflexivity.
Qed.


(** C10.  The links of the result are the link list as the call leaves it,
    whether or not the output was truncated.  A link stays in the list from
    the moment it is registered; with links enabled, every anchor with an
    [href] under a root whose URL is not rejected has its entry, for the
    sweep after the traversal registers it.  So the result can list a URL
    whose reference is nowhere in its text: a page of three paragraphs cut
    after one item lists the anchor of the third. *)
Theorem result_links_complete :
  (∀ (rt : JsRuntime) host opts r,
     getReadableText host opts = Some r →
     ∃ cfg doc roots shellRoots,
       selectRoots host opts = Some (cfg, doc, roots, shellRoots)
       ∧ Result.links r = linkList (finalState cfg doc roots shellRoots)
       ∧ (linksEnabled cfg = true →
          ∀ root anchor,
            root ∈ roots → anchor ∈ querySelectorAll root ANCHOR_WITH_HREF →
            let url := orElse (attrOrEmpty anchor "href") (hrefProperty (props anchor)) in
            truthy url = true → rejectedUrl (trim url) = false →
            ∃ e, e ∈ Result.links r ∧ href e = trim url))
  ∧ (∀ (rt : JsRuntime) cfg url st st',
       reachable cfg st → rejectedUrl (trim url) = false →
       rtc (step cfg) (registerLink url st).2 st' →
       ∃ e, e ∈ linkList st' ∧ href e = trim url)
  ∧ (∃ r, getReadableText (rt := asciiRuntime) threeParagraphs oneItem = Some r
          ∧ Result.truncated r = true
          ∧ Result.links r = [{| ref := lit "L1"; href := lit "https://example.org/a" |}]
          ∧ Result.text r = lit "Hello world"
          ∧ includes (Result.text r) (lit "L1") = false).
Proof.
  split; [|split].
  - intros rt host opts r. apply result_links_swept.
  - intros rt cfg url st st'. apply registered_stays.
  - eexists. conjuncts; vm_compute; reflexivity.
Qed.

(** ** Further scenarios *)

(** Out-of-range budgets on the page of three paragraphs: with
    [maxItems: 0] the result has one item; with [maxItems: NaN] it is not
    truncated. *)
Lemma options_clamped_witness :
  (∃ r, getReadableText (rt := asciiRuntime) threeParagraphs (itemBudget (ofZ 0)) = Some r
        ∧ Stats.items (Result.stats r) ≤ 1
        ∧ Result.text r = lit "Hello world")
  ∧ ∃ r, getReadableText (rt := asciiRuntime) threeParagraphs (itemBudget NaN) = Some r
         ∧ Result.truncated r = false.
Proof.
  split.
  - assert (∃ r, getReadableText (rt := asciiRuntime) threeParagraphs (itemBudget (ofZ 0))
                 = Some r ∧ Result.text r = lit "Hello world") as (r & Hr & Htext)
      by (eexists; split; vm_compute; reflexivity).
    exists r. split; [exact Hr|]. split; [|exact Htext].
    apply (proj1 (options_clamped (rt := asciiRuntime) _ _ _ Hr) (ofZ 0)); [reflexivity|].
    vm_compute. reflexivity.
  - assert (∃ r, getReadableText (rt := asciiRuntime) threeParagraphs (itemBudget NaN)
                 = Some r) as (r & Hr)
      by (eexists; vm_compute; reflexivity).
    exists r. split; [exact Hr|].
    apply (proj1 (proj2 (options_clamped (rt := asciiRuntime) _ _ _ Hr))).
    right. left. reflexivity.
Defined.

(** The one link of the page of three paragraphs. *)
Lemma result_links_accepted_witness :
  ∃ r e,
    getReadableText (rt := asciiRuntime) threeParagraphs defaults = Some r
    ∧ e ∈ Result.links r
    ∧ truthy (href e) = true
    ∧ startsWith (href e) (lit "#") = false.
Proof.
  assert (∃ r, getReadableText (rt := asciiRuntime) threeParagraphs defaults = Some r
               ∧ head (Result.links r)
                 = Some {| ref := lit "L1"; href := lit "https://example.org/a" |})
    as (r & Hr & Hhead)
    by (eexists; split; vm_compute; reflexivity).
  exists r, {| ref := lit "L1"; href := lit "https://example.org/a" |}.
  assert ({| ref := lit "L1"; href := lit "https://example.org/a" |} ∈ Result.links r)
    as He.
  { destruct (Result.links r) as [|e0 es]; [discriminate Hhead|].
    injection Hhead as ->. apply elem_of_cons. left. reflexivity. }
  destruct (result_links_accepted (rt := asciiRuntime) _ _ _ Hr _ He)
    as (Htruthy & _ & Hhash & _).
  split; [exact Hr|]. split; [exact He|]. split; [exact Htruthy|exact Hhash].
Defined.

(** With [dedupe: false] the same line is emitted twice. *)
Lemma dedupe_disabled_never_suppresses_witness :
  let cfg := resolve {| o_selector := [];
                        o_maxDepth := None;
                        o_maxItems := None;
                        o_maxListItems := None;
                        o_maxLineLength := None;
                        o_filterMode := None;
                        o_links := None;
                        o_dedupe := Some false;
                        o_dedupeWindow := None;
                        o_includeFooter := None;
                        o_includeShell := None |} in
  let st := (emitAll (rt := asciiRuntime) cfg [lit "same"] initialState).2 in
  lines st = [lit "same"]
  ∧ lines (addLine (rt := asciiRuntime) cfg (lit "same") None st).2
    = lines st ++ [lit "same"].
Proof.
  intros cfg st.
  assert (reachable (rt := asciiRuntime) cfg st) as Hreach
    by apply (Steps_emitAll (rt := asciiRuntime)).
  destruct (dedupe_disabled_never_suppresses (rt := asciiRuntime)
              cfg st (lit "same") None eq_refl Hreach) as (_ & _ & Hemit).
  split; [vm_compute; reflexivity|].
  rewrite Hemit; [|vm_compute; reflexivity ..].
  apply (f_equal (fun l => lines st ++ [l])). vm_compute. reflexivity.
Defined.

(** A sentence of 126 characters cut to 40, and cut again. *)
Lemma trimLine_idempotent_witness :
  let cfg := resolve (options None None (Some 40%Z) None None) in
  length (trimLine cfg (lit sentence)) = 40
  ∧ trimLine cfg (trimLine cfg (lit sentence)) = trimLine cfg (lit sentence).
Proof.
  intros cfg. split; [vm_compute; reflexivity|].
  apply trimLine_idempotent. vm_compute. reflexivity.
Defined.
